(** * Request-coordination layer of the User Data API

    A shallow embedding of the three stateful components of the backend
    ([LRUCache.ts], [rateLimiter.ts], [AsyncQueue.ts]), of the response
    time tracker ([responseTracker.ts]) and of the handlers of [index.ts]
    that run without an [await], and the proofs of their specification;
    then the seat selection of the front end.

    Numbers are JavaScript numbers holding integers (counters, lengths and
    millisecond timestamps from [Date.now()]); they are modelled as [Z].
    [Date.now()] is an explicit argument [now] of every operation that
    reads the clock. *)

From Stdlib Require Import QArith Qcanon.
From stdpp Require Import gmap strings list fin_maps sorting pretty.

Open Scope Z_scope.

(* ===================================================================== *)
(** * Part I: the program                                                 *)
(* ===================================================================== *)

(** ** rateLimiter.ts *)

Module RateLimiter.

(** [interface RateLimitConfig].  The field [burstRequests] of the
    configuration is spelled [burstLimit] here, because the client
    record has a field of the same name. *)
Record RateLimitConfig := mkConfig {
  maxRequests : Z;     (* Max requests per window *)
  windowMs : Z;        (* Time window in ms *)
  burstLimit : Z;      (* Burst capacity: config.burstRequests *)
  burstWindowMs : Z    (* Burst window in ms *)
}.

(** [interface ClientRecord]: two arrays of arrival times. *)
Record ClientRecord := mkRecord {
  requests : list Z;
  burstRequests : list Z
}.

Record RateLimiter := mkLimiter {
  clients : gmap string ClientRecord;
  config : RateLimitConfig
}.

Definition new (cfg : RateLimitConfig) : RateLimiter :=
  {| clients := ∅; config := cfg |}.

(** [Math.ceil(x / 1000)] for an integer [x]. *)
Definition ceil_div (x d : Z) : Z := - ((- x) / d).

(** Which of the two quotas a 429 response reports (its [message]). *)
Inductive Limit := Burst | Rate.

(** What the middleware does with the request: [next()], or a 429 with
    a [retryAfter] field.  [retryAfter] is [None] when the source
    computes it from [array[0]] of an empty array ([NaN]). *)
Inductive Response :=
| Next
| TooManyRequests (limit : Limit) (retryAfter : option Z).

(** [array.filter((t) => now - t < window)] *)
Definition prune (now window : Z) (ts : list Z) : list Z :=
  filter (λ t, now - t < window) ts.

(** [Math.ceil((array[0] + window - now) / 1000)] *)
Definition retryAfterOf (ts : list Z) (window now : Z) : option Z :=
  match ts with
  | [] => None
  | t0 :: _ => Some (ceil_div (t0 + window - now) 1000)
  end.

(** The request handler returned by [middleware()], for the client
    identity [clientId] at time [now]. *)
Definition middleware (clientId : string) (now : Z) (this : RateLimiter)
  : Response * RateLimiter :=
  let cfg := config this in
  let record :=
    match clients this !! clientId with
    | Some r => r
    | None => {| requests := []; burstRequests := [] |}
    end in
  (* Clean up old timestamps *)
  let reqs := prune now (windowMs cfg) (requests record) in
  let bursts := prune now (burstWindowMs cfg) (burstRequests record) in
  (* Check burst limit *)
  if bool_decide (burstLimit cfg <= Z.of_nat (length bursts)) then
    (TooManyRequests Burst (retryAfterOf bursts (burstWindowMs cfg) now),
     {| clients := <[clientId := {| requests := reqs; burstRequests := bursts |}]>
                     (clients this);
        config := cfg |})
  (* Check rate limit *)
  else if bool_decide (maxRequests cfg <= Z.of_nat (length reqs)) then
    (TooManyRequests Rate (retryAfterOf reqs (windowMs cfg) now),
     {| clients := <[clientId := {| requests := reqs; burstRequests := bursts |}]>
                     (clients this);
        config := cfg |})
  else
    (* Add timestamps *)
    (Next,
     {| clients := <[clientId := {| requests := reqs ++ [now];
                                    burstRequests := bursts ++ [now] |}]>
                     (clients this);
        config := cfg |}).

(** [cleanup()]: prune every record and drop the ones left empty. *)
Definition cleanup (now : Z) (this : RateLimiter) : RateLimiter :=
  let cfg := config this in
  {| clients :=
       filter (λ kr, ¬ (requests kr.2 = [] ∧ burstRequests kr.2 = []))
         ((λ r, {| requests := prune now (windowMs cfg) (requests r);
                   burstRequests := prune now (burstWindowMs cfg) (burstRequests r) |})
            <$> clients this);
     config := cfg |}.

(** A run of the middleware for one client at the given arrival times:
    the responses, first call first, and the final state. *)
Fixpoint serve (clientId : string) (times : list Z) (this : RateLimiter)
  : list Response * RateLimiter :=
  match times with
  | [] => ([], this)
  | now :: rest =>
      let '(r, this1) := middleware clientId now this in
      let '(rs, this2) := serve clientId rest this1 in
      (r :: rs, this2)
  end.

(** The record of a client, as the handler sees it before pruning. *)
Definition recordOf (clientId : string) (this : RateLimiter) : ClientRecord :=
  match clients this !! clientId with
  | Some r => r
  | None => {| requests := []; burstRequests := [] |}
  end.

(** The limiter of [index.ts]: 10 req/min, 5 burst in 10sec. *)
Definition rateLimiter : RateLimiter :=
  new {| maxRequests := 10; windowMs := 60000;
         burstLimit := 5; burstWindowMs := 10000 |}.

(** Arrival times are pushed in arrival order: with a clock that never
    runs backwards both arrays are sorted and bounded by the last
    reading of the clock. *)
Definition ordered (bound : Z) (ts : list Z) : Prop :=
  StronglySorted Z.le ts ∧ Forall (λ t, t <= bound) ts.

Definition recordOrdered (bound : Z) (r : ClientRecord) : Prop :=
  ordered bound (requests r) ∧ ordered bound (burstRequests r).

(** What [getClientId] reads of a request: [req.ip] and
    [req.socket.remoteAddress], each a string or [undefined]. *)
Record Request := mkRequest {
  ip : option string;
  remoteAddress : option string
}.

(** [a || b] on values that are a string or [undefined]: the empty
    string is falsy as [undefined] is. *)
Definition orElse (a b : option string) : option string :=
  match a with
  | Some s => if bool_decide (s = "") then b else a
  | None => b
  end.

(** [getClientId(req)] *)
Definition getClientId (req : Request) : string :=
  match orElse (orElse (ip req) (remoteAddress req)) (Some "unknown") with
  | Some s => s
  | None => ""
  end.

(** The traffic of several clients: the handler called once for each
    request, given as client identity and arrival time, first request
    first; the responses and the final state. *)
Fixpoint serveAll (reqs : list (string * Z)) (this : RateLimiter)
  : list Response * RateLimiter :=
  match reqs with
  | [] => ([], this)
  | (clientId, now) :: rest =>
      let '(r, this1) := middleware clientId now this in
      let '(rs, this2) := serveAll rest this1 in
      (r :: rs, this2)
  end.

(** Whether the handler called [next()]. *)
Definition allowed (r : Response) : bool :=
  match r with Next => true | TooManyRequests _ _ => false end.

(** The requests that were let through, and the arrival times of those
    of one client. *)
Definition letThrough (reqs : list (string * Z)) (rs : list Response)
  : list (string * Z) :=
  (filter (λ qr, Is_true (allowed qr.2)) (zip reqs rs)).*1.

Definition arrivals (clientId : string) (reqs : list (string * Z)) : list Z :=
  (filter (λ q, q.1 = clientId) reqs).*2.

(** How many of the times [ts] lie in the window of length [w] that
    ends at [t]. *)
Definition inWindow (w t : Z) (ts : list Z) : nat :=
  length (filter (λ u, t - w < u ∧ u <= t) ts).

(** The arrays of a record are no longer than the quotas. *)
Definition withinQuota (cfg : RateLimitConfig) (r : ClientRecord) : Prop :=
  Z.of_nat (length (requests r)) <= Z.max 0 (maxRequests cfg) ∧
  Z.of_nat (length (burstRequests r)) <= Z.max 0 (burstLimit cfg).

End RateLimiter.

(** ** responseTracker.ts *)

Module ResponseTimeTracker.

(** [class ResponseTimeTracker].  The samples are differences of two
    readings of [Date.now()], hence integers. *)
Record ResponseTimeTracker := mkTracker {
  responseTimes : list Z;
  maxSamples : Z
}.

(** [constructor(maxSamples = 1000)] *)
Definition new (maxSamples : Z) : ResponseTimeTracker :=
  {| responseTimes := []; maxSamples := maxSamples |}.

(** [track(timeMs)]: [push], then one [shift] if the array has become
    longer than [maxSamples]. *)
Definition track (timeMs : Z) (this : ResponseTimeTracker) : ResponseTimeTracker :=
  let times := responseTimes this ++ [timeMs] in
  if bool_decide (Z.of_nat (length times) > maxSamples this)
  then {| responseTimes := drop 1 times; maxSamples := maxSamples this |}
  else {| responseTimes := times; maxSamples := maxSamples this |}.

(** [this.responseTimes.reduce((a, b) => a + b, 0)] *)
Definition sum (times : list Z) : Z := foldl Z.add 0 times.

(** [getAverage()].  The quotient of two integers is modelled as the
    exact rational number; the rounding of the floating-point division
    is not modelled. *)
Definition getAverage (this : ResponseTimeTracker) : Qc :=
  if bool_decide (length (responseTimes this) = 0%nat) then 0%Qc
  else (Qc_of_Z (sum (responseTimes this))
        / Qc_of_Z (Z.of_nat (length (responseTimes this))))%Qc.

(** [reset()] *)
Definition reset (this : ResponseTimeTracker) : ResponseTimeTracker :=
  {| responseTimes := []; maxSamples := maxSamples this |}.

(** [track] called once for each of the samples, first sample first. *)
Definition trackAll (samples : list Z) (this : ResponseTimeTracker)
  : ResponseTimeTracker :=
  foldl (λ this x, track x this) this samples.

End ResponseTimeTracker.

(** ** LRUCache.ts *)

Module LRUCache.

(** A [CacheNode] object is identified by its address in the store of
    allocated nodes; [prev] and [next] hold [null] or such an address. *)
Abbreviation addr := nat (only parsing).

Section Generic.
Context {T : Type}.

(** [interface CacheNode<T>] *)
Record CacheNode := mkNode {
  key : string;
  value : T;
  timestamp : Z;
  prev : option addr;
  next : option addr
}.

(** [interface CacheStats] *)
Record CacheStats := mkStats {
  hits : Z;
  misses : Z;
  size : Z;
  evictions : Z
}.

(** [class LRUCache<T>].  [heap] is the store of the node objects
    allocated so far and [fresh] the next unused address; the timer
    handle [cleanupInterval] is not part of the state: the sweep it
    triggers is an operation of its own. *)
Record LRUCache := mkCache {
  capacity : Z;
  ttl : Z;
  cache : gmap string addr;
  head : option addr;
  tail : option addr;
  stats : CacheStats;
  heap : gmap addr CacheNode;
  fresh : addr
}.

(** *** Field assignments *)

Definition set_cache (m : gmap string addr) (c : LRUCache) : LRUCache :=
  mkCache (capacity c) (ttl c) m (head c) (tail c) (stats c) (heap c) (fresh c).
Definition set_head (h : option addr) (c : LRUCache) : LRUCache :=
  mkCache (capacity c) (ttl c) (cache c) h (tail c) (stats c) (heap c) (fresh c).
Definition set_tail (t : option addr) (c : LRUCache) : LRUCache :=
  mkCache (capacity c) (ttl c) (cache c) (head c) t (stats c) (heap c) (fresh c).
Definition set_stats (s : CacheStats) (c : LRUCache) : LRUCache :=
  mkCache (capacity c) (ttl c) (cache c) (head c) (tail c) s (heap c) (fresh c).
Definition set_heap (h : gmap addr CacheNode) (c : LRUCache) : LRUCache :=
  mkCache (capacity c) (ttl c) (cache c) (head c) (tail c) (stats c) h (fresh c).

Definition node_set_value (v : T) (n : CacheNode) : CacheNode :=
  mkNode (key n) v (timestamp n) (prev n) (next n).
Definition node_set_timestamp (t : Z) (n : CacheNode) : CacheNode :=
  mkNode (key n) (value n) t (prev n) (next n).
Definition node_set_prev (p : option addr) (n : CacheNode) : CacheNode :=
  mkNode (key n) (value n) (timestamp n) p (next n).
Definition node_set_next (p : option addr) (n : CacheNode) : CacheNode :=
  mkNode (key n) (value n) (timestamp n) (prev n) p.

(** [node.field = ...] for the node at address [a] *)
Definition write (a : addr) (f : CacheNode → CacheNode) (c : LRUCache) : LRUCache :=
  set_heap (alter f a (heap c)) c.

(** [node.prev] and [node.next] for the node at address [a] *)
Definition prevOf (a : addr) (c : LRUCache) : option addr := heap c !! a ≫= prev.
Definition nextOf (a : addr) (c : LRUCache) : option addr := heap c !! a ≫= next.

Definition hit (s : CacheStats) : CacheStats :=
  mkStats (hits s + 1) (misses s) (size s) (evictions s).
Definition miss (s : CacheStats) : CacheStats :=
  mkStats (hits s) (misses s + 1) (size s) (evictions s).
Definition grow (s : CacheStats) : CacheStats :=
  mkStats (hits s) (misses s) (size s + 1) (evictions s).
Definition shrink (s : CacheStats) : CacheStats :=
  mkStats (hits s) (misses s) (size s - 1) (evictions s).
Definition evicted (s : CacheStats) : CacheStats :=
  mkStats (hits s) (misses s) (size s) (evictions s + 1).

(** *** The class *)

(** [constructor(capacity = 100, ttl = 60000)] *)
Definition new (capacity ttl : Z) : LRUCache :=
  {| capacity := capacity; ttl := ttl; cache := ∅; head := None; tail := None;
     stats := {| hits := 0; misses := 0; size := 0; evictions := 0 |};
     heap := ∅; fresh := 0%nat |}.

Definition isExpired (now : Z) (c : LRUCache) (node : CacheNode) : bool :=
  bool_decide (now - timestamp node > ttl c).

Definition removeNode (node : addr) (c : LRUCache) : LRUCache :=
  let c :=
    match prevOf node c with
    | Some p => write p (node_set_next (nextOf node c)) c
    | None => set_head (nextOf node c) c
    end in
  match nextOf node c with
  | Some n => write n (node_set_prev (prevOf node c)) c
  | None => set_tail (prevOf node c) c
  end.

Definition addToHead (node : addr) (c : LRUCache) : LRUCache :=
  let c := write node (node_set_next (head c)) c in
  let c := write node (node_set_prev None) c in
  let c :=
    match head c with
    | Some h => write h (node_set_prev (Some node)) c
    | None => c
    end in
  let c := set_head (Some node) c in
  match tail c with
  | None => set_tail (Some node) c
  | Some _ => c
  end.

Definition moveToHead (node : addr) (c : LRUCache) : LRUCache :=
  addToHead node (removeNode node c).

Definition evictLRU (c : LRUCache) : LRUCache :=
  match tail c with
  | None => c
  | Some t =>
      match heap c !! t with
      | None => c (* a reference always denotes an allocated node *)
      | Some n =>
          let c := set_cache (delete (key n) (cache c)) c in
          let c := removeNode t c in
          let c := set_stats (shrink (stats c)) c in
          set_stats (evicted (stats c)) c
      end
  end.

(** The node that [this.cache.get(key)] returns, with its address.  A
    key of the index always leads to an allocated node (see [recency]),
    so [None] stands for a key that the index does not hold. *)
Definition lookup (k : string) (c : LRUCache) : option (addr * CacheNode) :=
  a ← cache c !! k; n ← heap c !! a; Some (a, n).

Definition get (k : string) (now : Z) (c : LRUCache) : option T * LRUCache :=
  match lookup k c with
  | None => (None, set_stats (miss (stats c)) c)
  | Some (a, node) =>
      if isExpired now c node then
        let c := set_cache (delete k (cache c)) c in
        let c := removeNode a c in
        let c := set_stats (shrink (stats c)) c in
        let c := set_stats (miss (stats c)) c in
        (None, c)
      else
        let c := set_stats (hit (stats c)) c in
        let c := moveToHead a c in
        (Some (value node), c)
  end.

Definition set (k : string) (v : T) (now : Z) (c : LRUCache) : LRUCache :=
  match lookup k c with
  | Some (a, _) =>
      (* Update existing node *)
      let c := write a (node_set_value v) c in
      let c := write a (node_set_timestamp now) c in
      moveToHead a c
  | None =>
      (* Create new node *)
      let a := fresh c in
      let c := mkCache (capacity c) (ttl c) (cache c) (head c) (tail c) (stats c)
                 (<[a := mkNode k v now None None]> (heap c)) (S a) in
      let c := set_cache (<[k := a]> (cache c)) c in
      let c := addToHead a c in
      let c := set_stats (grow (stats c)) c in
      (* Evict LRU if over capacity *)
      if bool_decide (size (stats c) > capacity c) then evictLRU c else c
  end.

Definition has (k : string) (now : Z) (c : LRUCache) : bool * LRUCache :=
  match lookup k c with
  | None => (false, c)
  | Some (a, node) =>
      if isExpired now c node then
        let c := set_cache (delete k (cache c)) c in
        let c := removeNode a c in
        let c := set_stats (shrink (stats c)) c in
        (false, c)
      else (true, c)
  end.

Definition clear (c : LRUCache) : LRUCache :=
  let c := set_cache ∅ c in
  let c := set_head None c in
  let c := set_tail None c in
  set_stats (mkStats (hits (stats c)) (misses (stats c)) 0 (evictions (stats c))) c.

Definition getStats (c : LRUCache) : CacheStats := stats c.

(** [now - node.timestamp > this.ttl] for the node at address [a] *)
Definition stale (now : Z) (c : LRUCache) (a : addr) : bool :=
  match heap c !! a with
  | Some node => bool_decide (now - timestamp node > ttl c)
  | None => false
  end.

(** The keys collected by the first loop of [cleanupStaleEntries].
    The source visits the map in insertion order and the model in the
    order of [map_to_list]: the same keys are collected, and the second
    loop leaves the same index, the same list and the same counters in
    whatever order it takes them ([sweep_refines]). *)
Definition keysToDelete (now : Z) (c : LRUCache) : list string :=
  (filter (λ ka, Is_true (stale now c ka.2)) (map_to_list (cache c))).*1.

(** The body of the second loop, for one key. *)
Definition deleteStale (k : string) (c : LRUCache) : LRUCache :=
  match lookup k c with
  | Some (a, _) =>
      let c := set_cache (delete k (cache c)) c in
      let c := removeNode a c in
      set_stats (shrink (stats c)) c
  | None => c
  end.

Definition cleanupStaleEntries (now : Z) (c : LRUCache) : LRUCache :=
  foldl (λ c k, deleteStale k c) c (keysToDelete now c).

Definition destroy (c : LRUCache) : LRUCache := clear c.

(** *** Runs of the store *)

(** The calls a store receives: its public methods and the sweep of
    its timer.  Each carries the reading of the clock it makes. *)
Inductive Call :=
| CallGet (k : string) (now : Z)
| CallSet (k : string) (v : T) (now : Z)
| CallHas (k : string) (now : Z)
| CallClear
| CallGetStats
| CallSweep (now : Z)
| CallDestroy.

Definition step (c : LRUCache) (call : Call) : LRUCache :=
  match call with
  | CallGet k now => (get k now c).2
  | CallSet k v now => set k v now c
  | CallHas k now => (has k now c).2
  | CallClear => clear c
  | CallGetStats => c
  | CallSweep now => cleanupStaleEntries now c
  | CallDestroy => destroy c
  end.

Definition run (calls : list Call) (c : LRUCache) : LRUCache :=
  foldl step c calls.

(** [set] called once for each of the entries [es], first entry
    first. *)
Definition sets (es : list (string * T * Z)) : list Call :=
  (λ e, CallSet e.1.1 e.1.2 e.2) <$> es.

(** *** The recency list *)

(** What a node stores apart from its links. *)
Definition entry : Type := string * T * Z.
Definition payload (n : CacheNode) : entry := (key n, value n, timestamp n).

Definition firstOr (l : list addr) (q : option addr) : option addr :=
  match l with [] => q | a :: _ => Some a end.
Definition lastOr (l : list addr) (p : option addr) : option addr :=
  match last l with Some a => Some a | None => p end.

(** [seg h p l q]: in the store [h] the nodes at the addresses [l] are
    linked in this order, the first with [prev = p] and the last with
    [next = q]. *)
Fixpoint seg (h : gmap addr CacheNode) (p : option addr) (l : list addr)
    (q : option addr) : Prop :=
  match l with
  | [] => True
  | a :: l' =>
      ∃ n, h !! a = Some n ∧ prev n = p ∧ next n = firstOr l' q ∧
           seg h (Some a) l' q
  end.

(** [linked c l]: following [next] from [head] visits exactly the
    nodes [l] and ends at [tail]; [prev] is the converse. *)
Record linked (c : LRUCache) (l : list addr) : Prop := mkLinked {
  linked_seg : seg (heap c) None l None;
  linked_head : head c = firstOr l None;
  linked_tail : tail c = lastOr l None;
  linked_nodup : NoDup l
}.

(** [recency c l]: the list is [l], most recently used first, the key
    index holds exactly its nodes, each under its own key, and the
    [size] counter is their number. *)
Record recency (c : LRUCache) (l : list addr) : Prop := mkRecency {
  recency_linked : linked c l;
  recency_index : ∀ k a,
    cache c !! k = Some a ↔ a ∈ l ∧ key <$> heap c !! a = Some k;
  recency_size : size (stats c) = Z.of_nat (length l);
  recency_count : base.size (cache c) = length l;
  recency_fresh : ∀ a, (fresh c <= a)%nat → heap c !! a = None
}.

(** [rep c es]: the store holds the entries [es], most recently used
    first; [holds c l es] names the nodes that carry them. *)
Definition holds (c : LRUCache) (l : list addr) (es : list entry) : Prop :=
  recency c l ∧ Forall2 (λ a e, payload <$> heap c !! a = Some e) l es.

Definition rep (c : LRUCache) (es : list entry) : Prop :=
  ∃ l, holds c l es.

(** *** The store as a list of entries

    What the methods do to the list of entries, for comparison with
    the linked structure. *)

Definition keyOf (e : entry) : string := e.1.1.
Definition valueOf (e : entry) : T := e.1.2.
Definition stampOf (e : entry) : Z := e.2.

Definition entryOf (k : string) (es : list entry) : option entry :=
  snd <$> list_find (λ e, keyOf e = k) es.
Definition without (k : string) (es : list entry) : list entry :=
  filter (λ e, keyOf e ≠ k) es.

Definition entriesAfter (capacity ttl : Z) (es : list entry) (call : Call)
  : list entry :=
  match call with
  | CallGet k now =>
      match entryOf k es with
      | Some e =>
          if bool_decide (now - stampOf e > ttl) then without k es
          else e :: without k es
      | None => es
      end
  | CallSet k v now =>
      match entryOf k es with
      | Some _ => (k, v, now) :: without k es
      | None =>
          if bool_decide (Z.of_nat (length es) + 1 > capacity)
          then removelast ((k, v, now) :: es)
          else (k, v, now) :: es
      end
  | CallHas k now =>
      match entryOf k es with
      | Some e =>
          if bool_decide (now - stampOf e > ttl) then without k es else es
      | None => es
      end
  | CallClear | CallDestroy => []
  | CallGetStats => es
  | CallSweep now => filter (λ e, ¬ now - stampOf e > ttl) es
  end.

(** What the methods do to the counters of a store holding [es]. *)
Definition statsAfter (capacity ttl : Z) (es : list entry) (call : Call)
    (s : CacheStats) : CacheStats :=
  match call with
  | CallGet k now =>
      match entryOf k es with
      | Some e =>
          if bool_decide (now - stampOf e > ttl) then miss (shrink s) else hit s
      | None => miss s
      end
  | CallSet k v now =>
      match entryOf k es with
      | Some _ => s
      | None =>
          if bool_decide (Z.of_nat (length es) + 1 > capacity)
          then evicted (shrink (grow s))
          else grow s
      end
  | CallHas k now =>
      match entryOf k es with
      | Some e => if bool_decide (now - stampOf e > ttl) then shrink s else s
      | None => s
      end
  | CallClear | CallDestroy => mkStats (hits s) (misses s) 0 (evictions s)
  | CallGetStats => s
  | CallSweep now =>
      mkStats (hits s) (misses s)
        (size s - Z.of_nat (length (filter (λ e, now - stampOf e > ttl) es)))
        (evictions s)
  end.

(** The list of entries and the counters, call after call. *)
Definition modelStep (capacity ttl : Z) (st : list entry * CacheStats)
    (call : Call) : list entry * CacheStats :=
  (entriesAfter capacity ttl st.1 call, statsAfter capacity ttl st.1 call st.2).

Definition modelRun (capacity ttl : Z) (calls : list Call)
    (st : list entry * CacheStats) : list entry * CacheStats :=
  foldl (modelStep capacity ttl) st calls.

(** [refines c c' es call]: the store [c'] is what [call] makes of the
    store [c] holding [es], as far as entries, counters and
    configuration go. *)
Definition refines (c c' : LRUCache) (es : list entry) (call : Call) : Prop :=
  (∃ l', holds c' l' (entriesAfter (capacity c) (ttl c) es call)) ∧
  stats c' = statsAfter (capacity c) (ttl c) es call (stats c) ∧
  capacity c' = capacity c ∧ ttl c' = ttl c.

(** [c'] differs from [c] in its entries and its [size] only. *)
Definition sameCounters (c c' : LRUCache) : Prop :=
  hits (stats c') = hits (stats c) ∧ misses (stats c') = misses (stats c) ∧
  evictions (stats c') = evictions (stats c) ∧
  capacity c' = capacity c ∧ ttl c' = ttl c.

(** What [get] and [has] return on a store holding [es]. *)
Definition getResult (ttl : Z) (es : list entry) (k : string) (now : Z)
  : option T :=
  match entryOf k es with
  | Some e => if bool_decide (now - stampOf e > ttl) then None else Some (valueOf e)
  | None => None
  end.

Definition hasResult (ttl : Z) (es : list entry) (k : string) (now : Z) : bool :=
  match entryOf k es with
  | Some e => negb (bool_decide (now - stampOf e > ttl))
  | None => false
  end.

(** The calls of [get] and of [set] among the calls of a run. *)
Definition isGet (call : Call) : bool :=
  match call with CallGet _ _ => true | _ => false end.
Definition isSet (call : Call) : bool :=
  match call with CallSet _ _ _ => true | _ => false end.
Definition count (which : Call → bool) (calls : list Call) : Z :=
  Z.of_nat (length (filter (λ call, Is_true (which call)) calls)).

End Generic.

Arguments CacheNode : clear implicits.
Arguments LRUCache : clear implicits.
Arguments Call : clear implicits.

End LRUCache.

(** ** AsyncQueue.ts *)

Module AsyncQueue.

(** A promise object is identified by its address in the store of the
    promises created so far. *)
Abbreviation promise := nat (only parsing).

(** What a fetch function can throw, or a promise be rejected with: an
    instance of [Error] (by identity), some other value, or the
    [new Error('Unknown error')] that the queue makes while it rejects
    the promise [p]. *)
Inductive error :=
| ErrorObject (e : nat)
| OtherValue (v : nat)
| UnknownError (p : promise).

(** [error instanceof Error] *)
Definition instanceofError (e : error) : bool :=
  match e with OtherValue _ => false | _ => true end.

(** A fetch function [() => Promise<T>], as far as the queue can tell
    when it calls it: the call throws, or it returns a promise, which
    settles later.  [name] identifies the function in the log of calls. *)
Inductive behaviour :=
| Throws (e : error)
| Returns.

Record fetchFn := mkFn { name : nat; body : behaviour }.

Section Generic.
Context {T : Type}.

(** The state of a promise. *)
Inductive settlement :=
| Pending
| Fulfilled (v : T)
| Rejected (e : error).

(** How [await task.fn()] ends for a function that returned a promise. *)
Inductive outcome :=
| Returned (v : T)
| Threw (e : error).

(** [interface QueueTask<T>]: [resolve] and [reject] are the two
    functions of one promise, the one that [enqueue] made for the
    caller; the field [resolve] is that promise. *)
Record QueueTask := mkTask {
  id : string;
  fn : fetchFn;
  resolve : promise
}.

(** [class AsyncQueue] *)
Record AsyncQueue := mkQueue {
  queue : list QueueTask;
  processing : gmap string promise;
  maxConcurrent : Z;
  currentlyProcessing : Z
}.

(** The queue in its run-time environment: the promises created so
    far, and the async blocks of [processQueue] that are suspended at
    [await task.fn()], each with the promise of the block and its task.
    [invoked] logs the calls of fetch functions, oldest first, each with
    the promise of the block that made the call, and [peak]
    is the largest number of fetch functions that were ever running at
    the same time. *)
Record Runtime := mkRuntime {
  this : AsyncQueue;
  promises : gmap promise settlement;
  nextPromise : promise;
  awaiting : list (promise * QueueTask);
  invoked : list (promise * nat);
  peak : nat
}.

(** *** Assignments *)

Definition set_this (q : AsyncQueue) (rt : Runtime) : Runtime :=
  mkRuntime q (promises rt) (nextPromise rt) (awaiting rt) (invoked rt) (peak rt).
Definition set_queue (q : list QueueTask) (rt : Runtime) : Runtime :=
  set_this (mkQueue q (processing (this rt)) (maxConcurrent (this rt))
              (currentlyProcessing (this rt))) rt.
Definition set_processing (m : gmap string promise) (rt : Runtime) : Runtime :=
  set_this (mkQueue (queue (this rt)) m (maxConcurrent (this rt))
              (currentlyProcessing (this rt))) rt.
Definition set_currentlyProcessing (n : Z) (rt : Runtime) : Runtime :=
  set_this (mkQueue (queue (this rt)) (processing (this rt))
              (maxConcurrent (this rt)) n) rt.
Definition set_promises (ps : gmap promise settlement) (rt : Runtime) : Runtime :=
  mkRuntime (this rt) ps (nextPromise rt) (awaiting rt) (invoked rt) (peak rt).
Definition set_awaiting (a : list (promise * QueueTask)) (rt : Runtime) : Runtime :=
  mkRuntime (this rt) (promises rt) (nextPromise rt) a (invoked rt) (peak rt).

(** A new pending promise. *)
Definition newPromise (rt : Runtime) : promise * Runtime :=
  (nextPromise rt,
   mkRuntime (this rt) (<[nextPromise rt := Pending]> (promises rt))
     (S (nextPromise rt)) (awaiting rt) (invoked rt) (peak rt)).

(** Resolving or rejecting a promise: nothing happens unless it is
    pending. *)
Definition settle (p : promise) (s : settlement) (rt : Runtime) : Runtime :=
  match promises rt !! p with
  | Some Pending => set_promises (<[p := s]> (promises rt)) rt
  | _ => rt
  end.

(** The call [task.fn()], made by the block of promise [p], is logged;
    one more fetch function is running. *)
Definition called (p : promise) (f : fetchFn) (rt : Runtime) : Runtime :=
  mkRuntime (this rt) (promises rt) (nextPromise rt) (awaiting rt)
    (invoked rt ++ [(p, name f)]) (Nat.max (peak rt) (S (length (awaiting rt)))).

(** [error instanceof Error ? error : new Error('Unknown error')], in
    the [catch] of the task whose promise is [p]. *)
Definition rejection (p : promise) (e : error) : error :=
  if instanceofError e then e else UnknownError p.

(** [finally { this.processing.delete(task.id); this.currentlyProcessing--; ... }] *)
Definition release (task : QueueTask) (rt : Runtime) : Runtime :=
  let rt := set_processing (delete (id task) (processing (this rt))) rt in
  set_currentlyProcessing (currentlyProcessing (this rt) - 1) rt.

(** *** The class *)

(** [constructor(maxConcurrent = 10)] *)
Definition new (maxConcurrent : Z) : Runtime :=
  {| this := {| queue := []; processing := ∅;
                maxConcurrent := maxConcurrent; currentlyProcessing := 0 |};
     promises := ∅; nextPromise := 0%nat; awaiting := [];
     invoked := []; peak := 0%nat |}.

(** [processQueue()] on a queue [q].  It runs up to the first [await]
    of the async block: the task at the front is taken and its fetch
    function called.  If the call returns a promise the block is
    suspended and its promise is put in [processing].  If the call throws,
    [catch] and [finally] run at once, [finally] calls [processQueue()]
    on the rest of the queue, the promise of the block is rejected and
    only then put in [processing]. *)
Fixpoint processQueueFrom (q : list QueueTask) (rt : Runtime) : Runtime :=
  match q with
  | [] => set_queue [] rt
  | task :: rest =>
      if bool_decide (currentlyProcessing (this rt) >= maxConcurrent (this rt))
      then set_queue q rt
      else
        let rt := set_queue rest rt in
        let rt := set_currentlyProcessing (currentlyProcessing (this rt) + 1) rt in
        let '(p, rt) := newPromise rt in
        let rt := called p (fn task) rt in
        match body (fn task) with
        | Returns =>
            let rt := set_awaiting (awaiting rt ++ [(p, task)]) rt in
            set_processing (<[id task := p]> (processing (this rt))) rt
        | Throws e =>
            let rt := settle (resolve task) (Rejected (rejection (resolve task) e)) rt in
            let rt := release task rt in
            let rt := processQueueFrom rest rt in
            let rt := settle p (Rejected e) rt in
            set_processing (<[id task := p]> (processing (this rt))) rt
        end
  end.

Definition processQueue (rt : Runtime) : Runtime :=
  processQueueFrom (queue (this rt)) rt.

(** [enqueue(id, fn)]: the promise that the caller gets, and the new
    state.  The async function [enqueue] returns a promise of its own,
    which follows the one of its [return] statement; the two are not
    told apart here. *)
Definition enqueue (i : string) (f : fetchFn) (rt : Runtime) : promise * Runtime :=
  match processing (this rt) !! i with
  | Some existingTask => (existingTask, rt)
  | None =>
      let '(p, rt) := newPromise rt in
      let task := {| id := i; fn := f; resolve := p |} in
      let rt := set_queue (queue (this rt) ++ [task]) rt in
      (p, processQueue rt)
  end.

(** The task of the async block whose promise is [p], if it is
    suspended. *)
Definition suspended (p : promise) (rt : Runtime) : option QueueTask :=
  (λ ipt, ipt.2.2) <$> list_find (λ pt, pt.1 = p) (awaiting rt).

(** The async block with promise [p] goes on after [await task.fn()]
    with the outcome [o]: [task.resolve] or [task.reject], then
    [finally], then the promise of the block settles. *)
Definition resume (p : promise) (o : outcome) (rt : Runtime) : Runtime :=
  match suspended p rt with
  | None => rt
  | Some task =>
      let rt := set_awaiting (filter (λ pt, pt.1 ≠ p) (awaiting rt)) rt in
      let rt :=
        match o with
        | Returned v => settle (resolve task) (Fulfilled v) rt
        | Threw e => settle (resolve task) (Rejected (rejection (resolve task) e)) rt
        end in
      let rt := release task rt in
      let rt := processQueue rt in
      match o with
      | Returned v => settle p (Fulfilled v) rt
      | Threw e => settle p (Rejected e) rt
      end
  end.

(** [getStats()] *)
Definition getStats (rt : Runtime) : nat * Z * nat :=
  (length (queue (this rt)), currentlyProcessing (this rt),
   base.size (processing (this rt))).

(** *** Runs of the queue *)

(** What happens to a queue: a call of [enqueue], or the promise of a
    running fetch function settling. *)
Inductive event :=
| Enqueue (i : string) (f : fetchFn)
| Settle (p : promise) (o : outcome).

Definition step (rt : Runtime) (ev : event) : Runtime :=
  match ev with
  | Enqueue i f => (enqueue i f rt).2
  | Settle p o => resume p o rt
  end.

Definition run (evs : list event) (rt : Runtime) : Runtime :=
  foldl step rt evs.

(** What the caller holding the promise [p] has received. *)
Definition received (p : promise) (rt : Runtime) : option settlement :=
  promises rt !! p.

(** What the two promises of a running task hold once its fetch
    function has settled with the outcome [o]: the promise of the block,
    which is what the callers that joined hold, and the promise of the
    task, which is what the caller that started it holds. *)
Definition blockResult (o : outcome) : settlement :=
  match o with Returned v => Fulfilled v | Threw e => Rejected e end.
Definition taskResult (task : QueueTask) (o : outcome) : settlement :=
  match o with
  | Returned v => Fulfilled v
  | Threw e => Rejected (rejection (resolve task) e)
  end.

(** *** Well-formed states *)

(** The promises that are still to be settled by the queue: those of
    the suspended blocks, of their tasks and of the queued tasks. *)
Definition owed (rt : Runtime) : list promise :=
  (fst <$> awaiting rt) ++ ((λ pt, resolve pt.2) <$> awaiting rt)
    ++ (resolve <$> queue (this rt)).

Record wf (rt : Runtime) : Prop := mkWf {
  wf_count : currentlyProcessing (this rt) = Z.of_nat (length (awaiting rt));
  wf_bound : currentlyProcessing (this rt) <= Z.max 0 (maxConcurrent (this rt));
  wf_peak : Z.of_nat (peak rt) <= Z.max 0 (maxConcurrent (this rt));
  wf_pending : ∀ p, p ∈ owed rt → promises rt !! p = Some Pending;
  wf_nodup : NoDup (owed rt);
  wf_fresh : ∀ p, (nextPromise rt <= p)%nat → promises rt !! p = None
}.



(** [tabled rt]: a promise in the [processing] map exists, and if it
    is the promise of a suspended block, it is there under the key of
    the task of this block. *)
Definition tabled (rt : Runtime) : Prop :=
  ∀ i p, processing (this rt) !! i = Some p →
    (p < nextPromise rt)%nat ∧
    ∀ task, (p, task) ∈ awaiting rt → id task = i.

(** [accounted rt]: every promise made so far is in the store, and
    one that is still pending is owed. *)
Definition accounted (rt : Runtime) : Prop :=
  ∀ x, (x < nextPromise rt)%nat →
    ∃ s, promises rt !! x = Some s ∧ (s = Pending → x ∈ owed rt).

(** The task that an event pushes on the queue: the one that [enqueue]
    makes, unless the call is joined to a task of the [processing] map. *)
Definition arrival (rt : Runtime) (ev : event) : list QueueTask :=
  match ev with
  | Enqueue i f =>
      match processing (this rt) !! i with
      | Some _ => []
      | None => [{| id := i; fn := f; resolve := nextPromise rt |}]
      end
  | Settle _ _ => []
  end.

(** The tasks pushed on the queue in the course of a run, first task
    first. *)
Fixpoint arrivalsOf (evs : list event) (rt : Runtime) : list QueueTask :=
  match evs with
  | [] => []
  | ev :: evs => arrival rt ev ++ arrivalsOf evs (step rt ev)
  end.

End Generic.

Arguments Runtime : clear implicits.
Arguments event : clear implicits.
Arguments settlement : clear implicits.
Arguments outcome : clear implicits.

End AsyncQueue.

(** ** index.ts: the handlers that run without an [await] *)

Module Api.

(** [interface User] *)
Record User := mkUser {
  id : Z;
  name : string;
  email : string
}.

(** The state of the server: the table [mockUsers], keyed by user id,
    the store [userCache] and the tracker [responseTracker]. *)
Record Server := mkServer {
  mockUsers : gmap Z User;
  userCache : LRUCache.LRUCache User;
  responseTracker : ResponseTimeTracker.ResponseTimeTracker
}.

(** The server when it starts: the three users of [mockUsers.ts],
    [new LRUCache<User>(100, 60000)] and [new ResponseTimeTracker()]. *)
Definition server : Server :=
  {| mockUsers :=
       {[ 1 := mkUser 1 "John Doe" "john@example.com";
          2 := mkUser 2 "Jane Smith" "jane@example.com";
          3 := mkUser 3 "Alice Johnson" "alice@example.com" ]};
     userCache := LRUCache.new 100 60000;
     responseTracker := ResponseTimeTracker.new 1000 |}.

(** [!field] for a field of the request body that is a string or is
    missing: the empty string is falsy as [undefined] is. *)
Definition missing (field : option string) : bool :=
  match field with
  | Some s => bool_decide (s = "")
  | None => true
  end.

(** [interface ValidationErrorField] *)
Record ValidationErrorField := mkField {
  field : string;
  message : string
}.

(** How the handler of [POST /users] ends: with the response 201 and
    the new user, or by throwing [new ValidationError(errors)]. *)
Inductive Reply :=
| Created (data : User)
| ThrowsValidationError (errors : list ValidationErrorField).

(** [Math.max(...existingIds, 0)] *)
Definition maxId (existingIds : list Z) : Z := foldr Z.max 0 existingIds.

(** [newId.toString()] *)
Definition toString (n : Z) : string := pretty n.

(** The handler of [POST /users], for the fields [name] and [email] of
    the request body, at time [now]. *)
Definition createUser (reqName reqEmail : option string) (now : Z) (st : Server)
  : Reply * Server :=
  let errors :=
    (if missing reqName then [mkField "name" "Name is required"] else [])
    ++ (if missing reqEmail then [mkField "email" "Email is required"] else []) in
  match reqName, reqEmail with
  | Some n, Some e =>
      if bool_decide (0 < length errors)%nat then (ThrowsValidationError errors, st)
      else
        (* Generate new ID *)
        let existingIds := (map_to_list (mockUsers st)).*1 in
        let newId := maxId existingIds + 1 in
        let newUser := {| id := newId; name := n; email := e |} in
        (Created newUser,
         {| mockUsers := <[newId := newUser]> (mockUsers st);
            userCache := LRUCache.set (toString newId) newUser now (userCache st);
            responseTracker := responseTracker st |})
  | _, _ => (ThrowsValidationError errors, st)
  end.

(** The handler of [DELETE /cache] *)
Definition clearCache (st : Server) : Server :=
  {| mockUsers := mockUsers st;
     userCache := LRUCache.clear (userCache st);
     responseTracker := ResponseTimeTracker.reset (responseTracker st) |}.

(** [interface CacheStatusResponse].  [hitRate] and
    [averageResponseTime] are the numbers before [toFixed(2)] rounds them
    and makes strings of them. *)
Record CacheStatusResponse := mkStatus {
  cacheSize : Z;
  hits : Z;
  misses : Z;
  hitRate : Qc;
  evictions : Z;
  averageResponseTime : Qc
}.

(** The handler of [GET /cache-status] *)
Definition cacheStatus (st : Server) : CacheStatusResponse :=
  let stats := LRUCache.getStats (userCache st) in
  let totalRequests := LRUCache.hits stats + LRUCache.misses stats in
  {| cacheSize := LRUCache.size stats;
     hits := LRUCache.hits stats;
     misses := LRUCache.misses stats;
     hitRate :=
       if bool_decide (totalRequests > 0)
       then (Qc_of_Z (LRUCache.hits stats) / Qc_of_Z totalRequests * Qc_of_Z 100)%Qc
       else 0%Qc;
     evictions := LRUCache.evictions stats;
     averageResponseTime := ResponseTimeTracker.getAverage (responseTracker st) |}.

End Api.

(** ** The seat map of the front end: useSeatSelection.ts,
    SeatComponent.tsx, prices.ts, SelectionSummary.tsx *)

Module SeatMap.

(** [type SelectedSeat]: a seat with the section and the row it is in;
    of the fields of a seat, those that the code below reads. *)
Record SelectedSeat := mkSeat {
  id : string;
  priceTier : Z;
  status : string;
  sectionId : string;
  sectionLabel : string;
  rowIndex : Z
}.

Definition MAX_SELECTIONS : nat := 8.

(** [prev.findIndex((s) => s.id === seatId)], [None] for [-1] *)
Definition findIndex (seatId : string) (prev : list SelectedSeat) : option nat :=
  fst <$> list_find (λ s, id s = seatId) prev.

(** [toggleSeat(seat)]: what the update function makes of the selection
    [prev]. *)
Definition toggleSeat (seat : SelectedSeat) (prev : list SelectedSeat)
  : list SelectedSeat :=
  match findIndex (id seat) prev with
  | Some existingIndex =>
      (* Remove seat if already selected *)
      delete existingIndex prev
  | None =>
      if bool_decide (length prev < MAX_SELECTIONS)%nat
      then prev ++ [seat]   (* Add seat if under limit *)
      else prev             (* Return unchanged if at max limit *)
  end.

(** [isSeatSelected(seatId)] *)
Definition isSeatSelected (seatId : string) (selectedSeats : list SelectedSeat)
  : bool :=
  bool_decide (Exists (λ s, id s = seatId) selectedSeats).

Definition clearSelection : list SelectedSeat := [].

Definition canSelectMore (selectedSeats : list SelectedSeat) : bool :=
  bool_decide (length selectedSeats < MAX_SELECTIONS)%nat.

(** [handleClick] of [SeatComponent]: the seat that [onSelect] is called
    with, if it is called. *)
Definition handleClick (seat : SelectedSeat) (isSelected canSelect : bool)
  : option SelectedSeat :=
  let isAvailable := bool_decide (status seat = "available") in
  let isInteractive := isAvailable || isSelected in
  if isInteractive && (canSelect || isSelected) then Some seat else None.

(** A click on a seat of the map, as [App] and [SeatingMap] wire it:
    [isSelected] and [canSelect] are taken from the selection shown, and
    [onSelect] is [toggleSeat]. *)
Definition click (selectedSeats : list SelectedSeat) (seat : SelectedSeat)
  : list SelectedSeat :=
  match handleClick seat (isSeatSelected (id seat) selectedSeats)
          (canSelectMore selectedSeats) with
  | Some seat => toggleSeat seat selectedSeats
  | None => selectedSeats
  end.

Definition clicks (seats : list SelectedSeat) (selectedSeats : list SelectedSeat)
  : list SelectedSeat :=
  foldl click selectedSeats seats.

(** [PRICE_TIERS[tier] ?? 50] *)
Definition getPriceForTier (tier : Z) : Z :=
  if bool_decide (tier = 1) then 150
  else if bool_decide (tier = 2) then 100
  else if bool_decide (tier = 3) then 75
  else 50.

(** [subtotal] of [SelectionSummary] *)
Definition subtotal (selectedSeats : list SelectedSeat) : Z :=
  foldl (λ sum seat, sum + getPriceForTier (priceTier seat)) 0 selectedSeats.

End SeatMap.

(* ===================================================================== *)
(** * Part II: the properties                                             *)
(* ===================================================================== *)

Section RateLimiterSpec.
Import RateLimiter.

Lemma ceil_div_spec (x : Z) :
  1000 * (ceil_div x 1000 - 1) < x <= 1000 * ceil_div x 1000.
Proof.
  unfold ceil_div.
  pose proof (Z.div_mod (- x) 1000 ltac:(lia)) as Hdm.
  pose proof (Z.mod_pos_bound (- x) 1000 ltac:(lia)) as Hb.
  lia.
Qed.

Lemma prune_keeps now w ts t : t ∈ prune now w ts ↔ t ∈ ts ∧ now - t < w.
Proof. unfold prune. rewrite list_elem_of_filter. tauto. Qed.

End RateLimiterSpec.

Section RateLimiterScenario.
Import RateLimiter.

Lemma prune_length now w ts : (length (prune now w ts) <= length ts)%nat.
Proof. unfold prune. apply length_filter. Qed.

Lemma prune_all now w ts :
  Forall (λ t, now - t < w) ts → prune now w ts = ts.
Proof.
  unfold prune. induction 1 as [|t ts Ht Hts IH]; [done|].
  rewrite filter_cons_True by done. by rewrite IH.
Qed.

Lemma prune_none now w ts :
  Forall (λ t, w <= now - t) ts → prune now w ts = [].
Proof.
  unfold prune. induction 1 as [|t ts Ht Hts IH]; [done|].
  rewrite filter_cons_False by lia. exact IH.
Qed.

Lemma recordOf_insert clientId r cs cfg :
  recordOf clientId {| clients := <[clientId := r]> cs; config := cfg |} = r.
Proof. unfold recordOf; simpl. by rewrite lookup_insert_eq. Qed.

(** The three outcomes of the handler, in the order the source tests
    them. *)
Lemma middleware_burst clientId now this :
  let r := recordOf clientId this in
  let bursts := prune now (burstWindowMs (config this)) (burstRequests r) in
  let reqs := prune now (windowMs (config this)) (requests r) in
  burstLimit (config this) <= Z.of_nat (length bursts) →
  middleware clientId now this =
    (TooManyRequests Burst (retryAfterOf bursts (burstWindowMs (config this)) now),
     {| clients := <[clientId := mkRecord reqs bursts]> (clients this);
        config := config this |}).
Proof.
  intros r bursts reqs H. unfold middleware.
  fold (recordOf clientId this). fold r. fold bursts. fold reqs.
  by rewrite bool_decide_eq_true_2.
Qed.

Lemma middleware_rate clientId now this :
  let r := recordOf clientId this in
  let bursts := prune now (burstWindowMs (config this)) (burstRequests r) in
  let reqs := prune now (windowMs (config this)) (requests r) in
  Z.of_nat (length bursts) < burstLimit (config this) →
  maxRequests (config this) <= Z.of_nat (length reqs) →
  middleware clientId now this =
    (TooManyRequests Rate (retryAfterOf reqs (windowMs (config this)) now),
     {| clients := <[clientId := mkRecord reqs bursts]> (clients this);
        config := config this |}).
Proof.
  intros r bursts reqs H1 H2. unfold middleware.
  fold (recordOf clientId this). fold r. fold bursts. fold reqs.
  rewrite bool_decide_eq_false_2 by lia.
  by rewrite bool_decide_eq_true_2.
Qed.

Lemma middleware_next clientId now this :
  let r := recordOf clientId this in
  let bursts := prune now (burstWindowMs (config this)) (burstRequests r) in
  let reqs := prune now (windowMs (config this)) (requests r) in
  Z.of_nat (length bursts) < burstLimit (config this) →
  Z.of_nat (length reqs) < maxRequests (config this) →
  middleware clientId now this =
    (Next,
     {| clients := <[clientId := mkRecord (reqs ++ [now]) (bursts ++ [now])]>
                     (clients this);
        config := config this |}).
Proof.
  intros r bursts reqs H1 H2. unfold middleware.
  fold (recordOf clientId this). fold r. fold bursts. fold reqs.
  rewrite bool_decide_eq_false_2 by lia.
  by rewrite bool_decide_eq_false_2 by lia.
Qed.

(** Whatever the response, the stored record is the pruned one, with
    [now] pushed on both arrays exactly when the request is let through. *)
Lemma middleware_record clientId now this :
  let r := recordOf clientId this in
  let bursts := prune now (burstWindowMs (config this)) (burstRequests r) in
  let reqs := prune now (windowMs (config this)) (requests r) in
  let '(resp, this') := middleware clientId now this in
  config this' = config this ∧
  match resp with
  | Next => recordOf clientId this' = mkRecord (reqs ++ [now]) (bursts ++ [now])
  | TooManyRequests _ _ => recordOf clientId this' = mkRecord reqs bursts
  end.
Proof.
  intros r bursts reqs.
  destruct (decide (burstLimit (config this) <= Z.of_nat (length bursts))) as [Hb|Hb].
  { rewrite middleware_burst by done. split; [done|]. apply recordOf_insert. }
  destruct (decide (maxRequests (config this) <= Z.of_nat (length reqs))) as [Hr|Hr].
  { rewrite middleware_rate by (done || unfold bursts, r in *; lia).
    split; [done|]. apply recordOf_insert. }
  rewrite middleware_next by (unfold bursts, reqs, r in *; lia).
  split; [done|]. apply recordOf_insert.
Qed.

End RateLimiterScenario.

Section RateLimiterClaims.
Import RateLimiter.

Lemma prune_ordered bound now w ts :
  ordered bound ts → ordered bound (prune now w ts).
Proof.
  unfold ordered, prune. intros [Hs Hb]. split.
  - induction Hs as [|t ts Hs IH Hall]; [constructor|].
    apply Forall_cons in Hb as [_ Hb].
    destruct (decide (now - t < w)).
    + rewrite filter_cons_True by done. constructor; [by apply IH|].
      apply Forall_forall. intros u Hu.
      apply list_elem_of_filter in Hu as [_ Hu].
      by eapply Forall_forall in Hall.
    + rewrite filter_cons_False by done. by apply IH.
  - apply Forall_forall. intros u Hu.
    apply list_elem_of_filter in Hu as [_ Hu].
    by eapply Forall_forall in Hb.
Qed.

Lemma ordered_push bound now ts :
  bound <= now → ordered bound ts → ordered now (ts ++ [now]).
Proof.
  unfold ordered. intros Hle [Hs Hb]. split.
  - apply StronglySorted_app. split_and!; [|done|repeat constructor].
    intros t1 t2 H1 H2. apply list_elem_of_singleton in H2 as ->.
    eapply Forall_forall in Hb; [|done]. simpl in Hb. lia.
  - apply Forall_app. split; [|by repeat constructor].
    eapply Forall_impl; [done|]. simpl. lia.
Qed.

Lemma ordered_weaken bound now ts :
  bound <= now → ordered bound ts → ordered now ts.
Proof.
  unfold ordered. intros Hle [Hs Hb]. split; [done|].
  eapply Forall_impl; [done|]. simpl. lia.
Qed.

(** With a monotone clock the handler keeps the record of its client
    sorted, so index 0 of a pruned array is its oldest timestamp. *)
Lemma middleware_ordered clientId bound now this :
  bound <= now →
  recordOrdered bound (recordOf clientId this) →
  recordOrdered now (recordOf clientId (middleware clientId now this).2).
Proof.
  intros Hle [Hr Hb].
  pose proof (middleware_record clientId now this) as Hrec. simpl in Hrec.
  destruct (middleware clientId now this) as [resp this']. simpl.
  destruct Hrec as [_ Hrec].
  destruct resp; rewrite Hrec; split; simpl;
    eauto using ordered_push, ordered_weaken, prune_ordered.
Qed.

Lemma ordered_head_oldest bound t0 rest :
  ordered bound (t0 :: rest) → Forall (Z.le t0) rest.
Proof. intros [Hs _]. by apply StronglySorted_cons in Hs as [? _]. Qed.

(** C3.  The burst quota is tested before the sustained quota: when the
    pruned burst array has reached the burst quota the request is denied
    as burst-limited whatever the sustained array holds (so also when both
    quotas are exceeded), with [retryAfter] the ceiling of
    (first surviving burst timestamp + burst window - now) / 1000; when the
    burst quota is not reached and the pruned sustained array has reached
    the sustained quota, the denial is computed in the same way from the
    sustained array.  The first surviving timestamp is the oldest one when
    the array is in arrival order. *)
Theorem burst_checked_before_sustained clientId now this :
  let cfg := config this in
  let r := recordOf clientId this in
  let bursts := prune now (burstWindowMs cfg) (burstRequests r) in
  let reqs := prune now (windowMs cfg) (requests r) in
  (∀ t0 rest, bursts = t0 :: rest →
     burstLimit cfg <= Z.of_nat (length bursts) →
     (middleware clientId now this).1 =
       TooManyRequests Burst
         (Some (ceil_div (t0 + burstWindowMs cfg - now) 1000)) ∧
     1000 * (ceil_div (t0 + burstWindowMs cfg - now) 1000 - 1)
       < t0 + burstWindowMs cfg - now
       <= 1000 * ceil_div (t0 + burstWindowMs cfg - now) 1000 ∧
     (∀ bound, ordered bound (burstRequests r) → Forall (Z.le t0) rest)) ∧
  (∀ t0 rest, reqs = t0 :: rest →
     Z.of_nat (length bursts) < burstLimit cfg →
     maxRequests cfg <= Z.of_nat (length reqs) →
     (middleware clientId now this).1 =
       TooManyRequests Rate
         (Some (ceil_div (t0 + windowMs cfg - now) 1000)) ∧
     1000 * (ceil_div (t0 + windowMs cfg - now) 1000 - 1)
       < t0 + windowMs cfg - now
       <= 1000 * ceil_div (t0 + windowMs cfg - now) 1000 ∧
     (∀ bound, ordered bound (requests r) → Forall (Z.le t0) rest)).
Proof.
  intros cfg r bursts reqs. split.
  - intros t0 rest Heq Hlim. split; [|split].
    + rewrite middleware_burst by done. simpl.
      fold cfg r bursts. by rewrite Heq.
    + apply ceil_div_spec.
    + intros bound Ho. eapply ordered_head_oldest.
      rewrite <- Heq. by apply prune_ordered.
  - intros t0 rest Heq Hb Hlim. split; [|split].
    + rewrite middleware_rate by done. simpl.
      fold cfg r reqs. by rewrite Heq.
    + apply ceil_div_spec.
    + intros bound Ho. eapply ordered_head_oldest.
      rewrite <- Heq. by apply prune_ordered.
Qed.

End RateLimiterClaims.

Section RateLimiterOrdering.
Import RateLimiter.

Lemma serve_cons clientId now rest this :
  serve clientId (now :: rest) this =
    ((middleware clientId now this).1
       :: (serve clientId rest (middleware clientId now this).2).1,
     (serve clientId rest (middleware clientId now this).2).2).
Proof.
  simpl. destruct (middleware clientId now this) as [r this1]. simpl.
  by destruct (serve clientId rest this1).
Qed.

(** One request let through, for a client whose burst array is [bs]
    and survives pruning whole. *)
Lemma middleware_lets_through clientId now this bs (n : nat) resp this' :
  middleware clientId now this = (resp, this') →
  burstRequests (recordOf clientId this) = bs →
  Forall (λ t, now - t < burstWindowMs (config this)) bs →
  Z.of_nat (length bs) < burstLimit (config this) →
  (length (requests (recordOf clientId this)) <= n)%nat →
  Z.of_nat n < maxRequests (config this) →
  resp = Next ∧
  config this' = config this ∧
  burstRequests (recordOf clientId this') = bs ++ [now] ∧
  (length (requests (recordOf clientId this')) <= S n)%nat.
Proof.
  intros Hm Hbs Hall Hlen Hreq Hn.
  pose proof (prune_length now (windowMs (config this))
                (requests (recordOf clientId this))) as Hpl.
  rewrite middleware_next in Hm.
  - injection Hm as <- <-. rewrite recordOf_insert. cbn [burstRequests requests config].
    rewrite Hbs, prune_all by done. split_and!; try done.
    rewrite length_app. cbn [length]. lia.
  - by rewrite Hbs, prune_all.
  - lia.
Qed.

(** C9.  With a burst quota of 5 in 10 s and a sustained quota above 5,
    six requests of one new client within 10 s are answered Allow five times
    and then Deny (burst-limited), and a seventh request at least 10 s after
    the fifth is allowed again.  In every state an allowed request pushes
    [now] on both arrays of the client and a denied one pushes on neither:
    the stored arrays are then the pruned ones. *)
Theorem admission_ordering clientId this t1 t2 t3 t4 t5 t6 t7 :
  burstLimit (config this) = 5 →
  burstWindowMs (config this) = 10000 →
  5 < maxRequests (config this) →
  clients this !! clientId = None →
  t1 <= t2 → t2 <= t3 → t3 <= t4 → t4 <= t5 → t5 <= t6 →
  t6 - t1 < 10000 →
  10000 <= t7 - t5 →
  (serve clientId [t1; t2; t3; t4; t5; t6; t7] this).1 =
    [Next; Next; Next; Next; Next;
     TooManyRequests Burst (Some (ceil_div (t1 + 10000 - t6) 1000));
     Next] ∧
  (∀ clientId' now that,
     let r := recordOf clientId' that in
     let bursts := prune now (burstWindowMs (config that)) (burstRequests r) in
     let reqs := prune now (windowMs (config that)) (requests r) in
     match (middleware clientId' now that).1 with
     | Next =>
         recordOf clientId' (middleware clientId' now that).2 =
           mkRecord (reqs ++ [now]) (bursts ++ [now])
     | TooManyRequests _ _ =>
         recordOf clientId' (middleware clientId' now that).2 =
           mkRecord reqs bursts
     end).
Proof.
  intros Hlim Hwin Hmax Hnew H12 H23 H34 H45 H56 H61 H75. split.
  - assert (Hrec0 : recordOf clientId this = mkRecord [] []).
    { unfold recordOf. by rewrite Hnew. }
    rewrite !serve_cons. cbn [serve fst snd].
    destruct (middleware clientId t1 this) as [r1 s1] eqn:E1. cbn [fst snd].
    destruct (middleware_lets_through _ _ _ [] 0 _ _ E1) as (-> & C1 & B1 & Q1);
      rewrite ?Hrec0, ?Hlim, ?Hwin;
      [done | constructor | cbn; lia | cbn; lia | lia |].
    destruct (middleware clientId t2 s1) as [r2 s2] eqn:E2. cbn [fst snd].
    destruct (middleware_lets_through _ _ _ _ 1 _ _ E2 B1) as (-> & C2 & B2 & Q2);
      rewrite ?C1, ?Hlim, ?Hwin;
      [repeat constructor; lia | cbn; lia | done | lia |].
    destruct (middleware clientId t3 s2) as [r3 s3] eqn:E3. cbn [fst snd].
    destruct (middleware_lets_through _ _ _ _ 2 _ _ E3 B2) as (-> & C3 & B3 & Q3);
      rewrite ?C2, ?C1, ?Hlim, ?Hwin;
      [repeat constructor; lia | cbn; lia | done | lia |].
    destruct (middleware clientId t4 s3) as [r4 s4] eqn:E4. cbn [fst snd].
    destruct (middleware_lets_through _ _ _ _ 3 _ _ E4 B3) as (-> & C4 & B4 & Q4);
      rewrite ?C3, ?C2, ?C1, ?Hlim, ?Hwin;
      [repeat constructor; lia | cbn; lia | done | lia |].
    destruct (middleware clientId t5 s4) as [r5 s5] eqn:E5. cbn [fst snd].
    destruct (middleware_lets_through _ _ _ _ 4 _ _ E5 B4) as (-> & C5 & B5 & Q5);
      rewrite ?C4, ?C3, ?C2, ?C1, ?Hlim, ?Hwin;
      [repeat constructor; lia | cbn; lia | done | lia |].
    assert (Hc5 : config s5 = config this) by congruence.
    cbn [app] in B5.
    (* the sixth request finds five surviving burst timestamps *)
    assert (Hp6 : prune t6 (burstWindowMs (config s5))
                    (burstRequests (recordOf clientId s5)) = [t1; t2; t3; t4; t5]).
    { rewrite B5, Hc5, Hwin. apply prune_all. repeat constructor; lia. }
    pose proof (middleware_burst clientId t6 s5) as M6. cbv zeta in M6.
    rewrite Hp6, Hc5, Hlim in M6. specialize (M6 ltac:(cbn; lia)).
    rewrite M6. cbn [fst snd retryAfterOf]. rewrite Hwin.
    set (s6 := {| clients := _; config := config this |}).
    assert (S6 : recordOf clientId s6 =
                   mkRecord (prune t6 (windowMs (config this))
                               (requests (recordOf clientId s5)))
                     [t1; t2; t3; t4; t5]) by apply recordOf_insert.
    assert (C6 : config s6 = config this) by done.
    clearbody s6.
    (* the seventh request finds the burst array empty after pruning *)
    assert (Hp7 : prune t7 (burstWindowMs (config s6))
                    (burstRequests (recordOf clientId s6)) = []).
    { rewrite S6, C6, Hwin. cbn [burstRequests].
      apply prune_none. repeat constructor; lia. }
    rewrite (middleware_next clientId t7 s6); [done | |].
    + rewrite Hp7, C6, Hlim. cbn. lia.
    + rewrite C6, S6. cbn [requests].
      pose proof (prune_length t7 (windowMs (config this))
        (prune t6 (windowMs (config this)) (requests (recordOf clientId s5)))).
      pose proof (prune_length t6 (windowMs (config this))
                    (requests (recordOf clientId s5))).
      lia.
  - intros clientId' now that.
    pose proof (middleware_record clientId' now that) as Hrec. cbv zeta in Hrec.
    cbv zeta. destruct (middleware clientId' now that) as [resp that'].
    cbn [fst snd]. by destruct Hrec as [_ Hrec].
Qed.

End RateLimiterOrdering.

Section RateLimiterWitnesses.
Import RateLimiter.

(** A client that has used up both quotas is told about the burst quota;
    once the burst window has passed it is told about the sustained one. *)
Lemma burst_checked_before_sustained_witness :
  let busy :=
    {| clients :=
         {[ "::1" := mkRecord [0; 1000; 2000; 3000; 4000; 5000; 6000; 7000; 8000; 9000]
                       [5000; 6000; 7000; 8000; 9000] ]};
       config := config rateLimiter |} in
  (middleware "::1" 9500 busy).1 = TooManyRequests Burst (Some 6) ∧
  (middleware "::1" 20500 busy).1 = TooManyRequests Rate (Some 40).
Proof.
  intros busy. split.
  - destruct (burst_checked_before_sustained "::1" 9500 busy) as [Hb _].
    destruct (Hb 5000 [6000; 7000; 8000; 9000]) as [Hr _];
      [reflexivity | vm_compute; discriminate |].
    exact Hr.
  - destruct (burst_checked_before_sustained "::1" 20500 busy) as [_ Hs].
    destruct (Hs 0 [1000; 2000; 3000; 4000; 5000; 6000; 7000; 8000; 9000]) as [Hr _];
      [reflexivity | reflexivity | vm_compute; discriminate |].
    exact Hr.
Defined.

Lemma admission_ordering_witness :
  (serve "::1" [0; 1000; 2000; 3000; 4000; 5000; 14000] rateLimiter).1 =
    [Next; Next; Next; Next; Next; TooManyRequests Burst (Some 5); Next].
Proof.
  refine (proj1 (admission_ordering "::1" rateLimiter
                   0 1000 2000 3000 4000 5000 14000 _ _ _ _ _ _ _ _ _ _ _));
    first [reflexivity | vm_compute; discriminate].
Defined.

End RateLimiterWitnesses.

Section LinkedList.
Import LRUCache.
Context {T : Type}.
Implicit Types (c : LRUCache T) (h : gmap nat (CacheNode T)) (l : list nat).
Implicit Types (p q : option nat) (n : CacheNode T).

Lemma lastOr_nil p : lastOr [] p = p.
Proof. done. Qed.

Lemma lastOr_snoc l a p : lastOr (l ++ [a]) p = Some a.
Proof. unfold lastOr. by rewrite last_snoc. Qed.

Lemma lastOr_cons a l p : lastOr (a :: l) p = lastOr l (Some a).
Proof.
  unfold lastOr. destruct l as [|b l]; [done|].
  rewrite last_cons_cons. by destruct (last (b :: l)) eqn:E;
    [|apply last_None in E].
Qed.

Lemma lastOr_app l1 l2 p : lastOr (l1 ++ l2) p = lastOr l2 (lastOr l1 p).
Proof.
  revert p. induction l1 as [|a l1 IH]; intros p; [done|].
  simpl. by rewrite !lastOr_cons, IH.
Qed.

Lemma firstOr_app l1 l2 q : firstOr (l1 ++ l2) q = firstOr l1 (firstOr l2 q).
Proof. by destruct l1. Qed.

Lemma seg_frame h h' p l q :
  (∀ a, a ∈ l → h' !! a = h !! a) → seg h p l q → seg h' p l q.
Proof.
  revert p. induction l as [|a l IH]; intros p Hsame; [done|].
  intros (n & Ha & Hp & Hn & Hrest). exists n. split_and!; try done.
  - rewrite Hsame; [done|]. apply list_elem_of_here.
  - apply IH; [|done]. intros b Hb. apply Hsame. by apply list_elem_of_further.
Qed.

Lemma seg_app h p l1 l2 q :
  seg h p (l1 ++ l2) q ↔
  seg h p l1 (firstOr l2 q) ∧ seg h (lastOr l1 p) l2 q.
Proof.
  revert p. induction l1 as [|a l1 IH]; intros p; simpl.
  - rewrite lastOr_nil. tauto.
  - rewrite lastOr_cons. setoid_rewrite IH. rewrite firstOr_app.
    split.
    + intros (n & ? & ? & ? & ? & ?). split; [|done]. by exists n.
    + intros [(n & ? & ? & ? & ?) ?]. by exists n.
Qed.

Lemma seg_elem h p l q a : seg h p l q → a ∈ l → is_Some (h !! a).
Proof.
  revert p. induction l as [|b l IH]; intros p Hseg Ha.
  - by apply elem_of_nil in Ha.
  - destruct Hseg as (n & Hb & _ & _ & Hrest).
    apply elem_of_cons in Ha as [->|Ha]; [by exists n|]. by eapply IH.
Qed.

(** Assigning [prev] of the first node, or [next] of the last one,
    moves the end of the segment. *)
Lemma seg_set_first_prev h p p' a l q :
  a ∉ l → seg h p (a :: l) q →
  seg (alter (node_set_prev p') a h) p' (a :: l) q.
Proof.
  intros Hnot (n & Ha & Hp & Hn & Hrest).
  exists (node_set_prev p' n). split_and!; try done.
  - by rewrite lookup_alter_eq, Ha.
  - eapply seg_frame; [|done]. intros b Hb.
    apply lookup_alter_ne. by intros ->.
Qed.

Lemma seg_set_last_next h p a l q q' :
  a ∉ l → seg h p (l ++ [a]) q →
  seg (alter (node_set_next q') a h) p (l ++ [a]) q'.
Proof.
  intros Hnot. rewrite !seg_app. simpl.
  intros [H1 (n & Ha & Hp & Hn & _)]. split.
  - eapply seg_frame; [|done]. intros b Hb.
    apply lookup_alter_ne. by intros ->.
  - exists (node_set_next q' n). split_and!; try done.
    by rewrite lookup_alter_eq, Ha.
Qed.

End LinkedList.

Section RemoveNode.
Import LRUCache.
Context {T : Type}.
Implicit Types (c : LRUCache T) (h : gmap nat (CacheNode T)) (l : list nat).
Implicit Types (p q : option nat) (n : CacheNode T).

Lemma payload_alter_prev h a p x :
  payload <$> alter (node_set_prev p) a h !! x = payload <$> h !! x.
Proof.
  destruct (decide (a = x)) as [->|Hne].
  - rewrite lookup_alter_eq. by destruct (h !! x).
  - by rewrite lookup_alter_ne.
Qed.

Lemma payload_alter_next h a p x :
  payload <$> alter (node_set_next p) a h !! x = payload <$> h !! x.
Proof.
  destruct (decide (a = x)) as [->|Hne].
  - rewrite lookup_alter_eq. by destruct (h !! x).
  - by rewrite lookup_alter_ne.
Qed.

(** [removeNode] touches nothing but links, [head] and [tail]. *)
Lemma removeNode_frame a c :
  let c' := removeNode a c in
  capacity c' = capacity c ∧ ttl c' = ttl c ∧ cache c' = cache c ∧
  stats c' = stats c ∧ fresh c' = fresh c ∧
  ∀ x, payload <$> heap c' !! x = payload <$> heap c !! x.
Proof.
  unfold removeNode.
  destruct (prevOf a c) as [p|]; simpl;
    (destruct (nextOf a _) as [nx|]; simpl; split_and!; try done; intros x;
     rewrite ?payload_alter_prev, ?payload_alter_next; done).
Qed.

Lemma seg_links h p a l q n :
  seg h p (a :: l) q → h !! a = Some n → prev n = p ∧ next n = firstOr l q.
Proof. intros (n' & Ha & ? & ? & _) Hn. by simplify_eq. Qed.

(** Unlinking the node [a] of the list [l1 ++ a :: l2]. *)
Lemma removeNode_linked c l1 a l2 :
  linked c (l1 ++ a :: l2) → linked (removeNode a c) (l1 ++ l2).
Proof.
  intros [Hseg Hhead Htail Hnodup].
  apply NoDup_app in Hnodup as (Hnd1 & Hdisj & Hnd2).
  apply NoDup_cons in Hnd2 as [Hal2 Hnd2].
  assert (Hal1 : a ∉ l1) by (intros ?; eapply Hdisj; [done|left]).
  apply seg_app in Hseg as [Hseg1 Hseg2]. simpl in Hseg1.
  pose proof Hseg2 as (n & Ha & Hp & Hn & Hseg3).
  assert (Hprev : prevOf a c = lastOr l1 None).
  { unfold prevOf. by rewrite Ha. }
  assert (Hnext : nextOf a c = firstOr l2 None).
  { unfold nextOf. by rewrite Ha. }
  unfold removeNode. rewrite Hprev, Hnext.
  destruct l1 as [|p0 l1' _] using rev_ind.
  - (* the node is the head *)
    rewrite lastOr_nil in *. cbn [app] in *.
    change (nextOf a (set_head (firstOr l2 None) c)) with (nextOf a c).
    change (prevOf a (set_head (firstOr l2 None) c)) with (prevOf a c).
    rewrite Hnext, Hprev.
    destruct l2 as [|nx l2']; simpl.
    + by constructor.
    + constructor; simpl; try done.
      eapply seg_set_first_prev; [|exact Hseg3].
      by apply NoDup_cons in Hnd2 as [? _].
  - rewrite lastOr_snoc in *.
    assert (Hpa : p0 ≠ a).
    { intros ->. apply Hal1. apply elem_of_app. right. left. }
    assert (Hnext' : nextOf a (write p0 (node_set_next (firstOr l2 None)) c)
                     = firstOr l2 None).
    { unfold nextOf, write. simpl. by rewrite lookup_alter_ne, Ha. }
    assert (Hprev' : prevOf a (write p0 (node_set_next (firstOr l2 None)) c)
                     = Some p0).
    { unfold prevOf, write. simpl. by rewrite lookup_alter_ne, Ha. }
    rewrite Hnext', Hprev'.
    apply NoDup_app in Hnd1 as (Hnd1 & Hp0 & _).
    assert (Hp0l : p0 ∉ l1') by (intros ?; eapply Hp0; [done|left]).
    assert (Hp0l2 : p0 ∉ l2).
    { intros ?. eapply (Hdisj p0); [apply elem_of_app; right; left|by right]. }
    pose proof (seg_set_last_next _ _ _ _ _ (firstOr l2 None) Hp0l Hseg1) as Hs1.
    destruct l2 as [|nx l2']; simpl.
    + rewrite app_nil_r. constructor; simpl.
      * done.
      * rewrite Hhead. by rewrite !firstOr_app.
      * by rewrite lastOr_snoc.
      * apply NoDup_app. split_and!; [done| |apply NoDup_singleton].
        intros x Hx Hx'. apply list_elem_of_singleton in Hx' as ->. done.
    + apply NoDup_cons in Hnd2 as [Hnx Hnd2].
      assert (Hnxl1 : nx ∉ l1' ++ [p0]).
      { intros ?. eapply (Hdisj nx); [done|right; left]. }
      constructor; simpl.
      * apply seg_app. split.
        -- eapply seg_frame; [|exact Hs1]. intros x Hx.
           apply lookup_alter_ne. by intros ->.
        -- rewrite lastOr_snoc.
           apply (seg_set_first_prev _ (Some a)); [done|].
           eapply seg_frame; [|exact Hseg3]. intros x Hx.
           apply lookup_alter_ne. by intros ->.
      * rewrite Hhead. by rewrite !firstOr_app.
      * rewrite Htail. rewrite !lastOr_app. simpl. by rewrite !lastOr_cons.
      * apply NoDup_app. split_and!.
        -- apply NoDup_app. split_and!; [done| |apply NoDup_singleton].
           intros x Hx Hx'. apply list_elem_of_singleton in Hx' as ->. done.
        -- intros x Hx Hx'. eapply (Hdisj x); [done|by right].
        -- by apply NoDup_cons.
Qed.

End RemoveNode.

Section AddToHead.
Import LRUCache.
Context {T : Type}.
Implicit Types (c : LRUCache T) (h : gmap nat (CacheNode T)) (l : list nat).
Implicit Types (p q : option nat) (n : CacheNode T).

Lemma addToHead_frame a c :
  let c' := addToHead a c in
  capacity c' = capacity c ∧ ttl c' = ttl c ∧ cache c' = cache c ∧
  stats c' = stats c ∧ fresh c' = fresh c ∧
  ∀ x, payload <$> heap c' !! x = payload <$> heap c !! x.
Proof.
  unfold addToHead. simpl.
  destruct (head c) as [b|]; simpl;
    (destruct (tail c); simpl; split_and!; try done; intros x;
     rewrite ?payload_alter_prev, ?payload_alter_next; done).
Qed.

Lemma lastOr_is_Some a l p : is_Some (lastOr (a :: l) p).
Proof.
  revert a p. induction l as [|b l IH]; intros a p; [by eexists|].
  rewrite lastOr_cons. apply IH.
Qed.

(** Linking the node [a], which is not in the list, in front of it. *)
Lemma addToHead_linked c a l :
  linked c l → a ∉ l → is_Some (heap c !! a) →
  linked (addToHead a c) (a :: l).
Proof.
  intros [Hseg Hhead Htail Hnodup] Hal [n Hn].
  unfold addToHead. simpl. rewrite Hhead.
  destruct l as [|b l'].
  - simpl. rewrite Htail. constructor; simpl; [|done|done|by apply NoDup_singleton].
    exists (node_set_prev None (node_set_next None n)).
    by rewrite !lookup_alter_eq, Hn.
  - simpl. destruct (lastOr_is_Some b l' None) as [t Ht]. rewrite Htail, Ht.
    assert (Hab : a ≠ b) by (intros ->; apply Hal; left).
    constructor; cbn [heap head tail write set_heap set_head set_tail].
    + exists (node_set_prev None (node_set_next (Some b) n)).
      split_and!; try done.
      { by rewrite lookup_alter_ne, !lookup_alter_eq, Hn by done. }
      apply (seg_set_first_prev _ None).
      { by apply NoDup_cons in Hnodup as [? _]. }
      eapply seg_frame; [|exact Hseg]. intros x Hx.
      rewrite !lookup_alter_ne; [done|by intros ->..].
    + done.
    + by rewrite Htail, !lastOr_cons.
    + by apply NoDup_cons.
Qed.

Lemma moveToHead_frame a c :
  let c' := moveToHead a c in
  capacity c' = capacity c ∧ ttl c' = ttl c ∧ cache c' = cache c ∧
  stats c' = stats c ∧ fresh c' = fresh c ∧
  ∀ x, payload <$> heap c' !! x = payload <$> heap c !! x.
Proof.
  unfold moveToHead.
  destruct (addToHead_frame a (removeNode a c)) as (-> & -> & -> & -> & -> & Hp).
  destruct (removeNode_frame a c) as (-> & -> & -> & -> & -> & Hp').
  split_and!; try done. intros x. by rewrite Hp, Hp'.
Qed.

Lemma payload_is_Some h h' x :
  payload <$> h' !! x = payload <$> h !! x → is_Some (h !! x) → is_Some (h' !! x).
Proof. intros Heq [n Hn]. rewrite Hn in Heq. by destruct (h' !! x). Qed.

(** Promotion of the node [a] of the list [l1 ++ a :: l2]. *)
Lemma moveToHead_linked c l1 a l2 :
  linked c (l1 ++ a :: l2) → linked (moveToHead a c) (a :: l1 ++ l2).
Proof.
  intros Hl. unfold moveToHead.
  pose proof (linked_nodup _ _ Hl) as Hnd.
  apply NoDup_app in Hnd as (_ & Hdisj & Hnd2).
  apply NoDup_cons in Hnd2 as [Hal2 _].
  apply addToHead_linked.
  - by apply removeNode_linked.
  - intros [?|?]%elem_of_app; [|done]. eapply Hdisj; [done|left].
  - destruct (removeNode_frame a c) as (_ & _ & _ & _ & _ & Hp).
    eapply payload_is_Some; [apply Hp|].
    eapply seg_elem; [apply (linked_seg _ _ Hl)|].
    apply elem_of_app. right. left.
Qed.

End AddToHead.

Section Entries.
Import LRUCache.
Context {T : Type}.
Implicit Types (c : LRUCache T) (h : gmap nat (CacheNode T)) (l : list nat).
Implicit Types (n : CacheNode T) (e : entry (T:=T)) (es : list (entry (T:=T))).

Lemma payload_key h a e : payload <$> h !! a = Some e → key <$> h !! a = Some (keyOf e).
Proof. destruct (h !! a) as [n|]; [|done]. simpl. by intros [= <-]. Qed.

Lemma key_of_payload h h' x :
  payload <$> h' !! x = payload <$> h !! x → key <$> h' !! x = key <$> h !! x.
Proof.
  destruct (h' !! x) as [n'|], (h !! x) as [n|]; simpl; try done.
  unfold payload. by intros [= -> _ _].
Qed.

Lemma payload_None h h' x :
  payload <$> h' !! x = payload <$> h !! x → h !! x = None → h' !! x = None.
Proof. intros Heq Hn. rewrite Hn in Heq. by destruct (h' !! x). Qed.

(** The entries of a store have pairwise distinct keys. *)
Lemma holds_keys_nodup c l es : holds c l es → NoDup (keyOf <$> es).
Proof.
  intros [Hrec Hall]. apply NoDup_alt. intros i j k Hi Hj.
  apply list_lookup_fmap_Some in Hi as (ei & -> & Hei).
  apply list_lookup_fmap_Some in Hj as (ej & Hk & Hej).
  destruct (Forall2_lookup_r _ _ _ _ _ Hall Hei) as (ai & Hai & Hpi).
  destruct (Forall2_lookup_r _ _ _ _ _ Hall Hej) as (aj & Haj & Hpj).
  apply payload_key in Hpi, Hpj. rewrite <- Hk in Hpj.
  assert (cache c !! keyOf ei = Some ai) as H1.
  { apply (recency_index _ _ Hrec). split; [|done]. by eapply list_elem_of_lookup_2. }
  assert (cache c !! keyOf ei = Some aj) as H2.
  { apply (recency_index _ _ Hrec). split; [|done]. by eapply list_elem_of_lookup_2. }
  assert (ai = aj) as -> by congruence.
  eapply NoDup_lookup; [apply (linked_nodup _ _ (recency_linked _ _ Hrec))|done..].
Qed.

Lemma entryOf_None k es :
  k ∉ keyOf <$> es → entryOf k es = None ∧ without k es = es.
Proof.
  intros Hk. split.
  - unfold entryOf. replace (list_find _ es) with (@None (nat * entry (T:=T))); [done|].
    symmetry. apply list_find_None. apply Forall_forall. intros e He <-.
    apply Hk. by apply list_elem_of_fmap_2.
  - unfold without. induction es as [|e es IH]; [done|].
    rewrite fmap_cons in Hk. apply not_elem_of_cons in Hk as [Hne Hk].
    rewrite filter_cons_True by done. by rewrite IH.
Qed.

Lemma entryOf_split k es1 e es2 :
  NoDup (keyOf <$> es1 ++ e :: es2) → keyOf e = k →
  entryOf k (es1 ++ e :: es2) = Some e ∧ without k (es1 ++ e :: es2) = es1 ++ es2.
Proof.
  rewrite fmap_app, fmap_cons. intros Hnd Hk.
  apply NoDup_app in Hnd as (_ & Hdisj & Hnd2).
  apply NoDup_cons in Hnd2 as [Hk2 _].
  assert (Hk1 : k ∉ keyOf <$> es1).
  { intros Hin. eapply Hdisj; [done|]. rewrite Hk. left. }
  rewrite Hk in Hk2.
  destruct (entryOf_None k es1 Hk1) as [Hf1 Hw1].
  destruct (entryOf_None k es2 Hk2) as [_ Hw2].
  split.
  - unfold entryOf in *.
    destruct (list_find _ es1) as [[i x]|] eqn:E1; [done|].
    rewrite list_find_app_r by done. simpl.
    by rewrite decide_True.
  - unfold without in *. rewrite filter_app, filter_cons_False, Hw1, Hw2; [done|].
    by intros ?.
Qed.

(** How the key [k] is seen in a store holding [es]: either it is in
    neither the index nor the entries, or the index leads to the node
    that carries its entry. *)
Lemma holds_view c l es k :
  holds c l es →
  (cache c !! k = None ∧ lookup k c = None ∧
   entryOf k es = None ∧ without k es = es) ∨
  (∃ l1 a l2 es1 e es2 n,
     l = l1 ++ a :: l2 ∧ es = es1 ++ e :: es2 ∧
     length l1 = length es1 ∧
     cache c !! k = Some a ∧ heap c !! a = Some n ∧ lookup k c = Some (a, n) ∧
     payload n = e ∧ keyOf e = k ∧
     entryOf k es = Some e ∧ without k es = es1 ++ es2).
Proof.
  intros Hh. pose proof (holds_keys_nodup _ _ _ Hh) as Hnd.
  destruct Hh as [Hrec Hall].
  destruct (cache c !! k) as [a|] eqn:Hc.
  - right. apply (recency_index _ _ Hrec) in Hc as Ha. destruct Ha as [Hal Hkey].
    apply list_elem_of_split in Hal as (l1 & l2 & ->).
    apply Forall2_app_inv_l in Hall as (es1 & es' & H1 & H2 & ->).
    apply Forall2_cons_inv_l in H2 as (e & es2 & Hp & H2 & ->).
    destruct (heap c !! a) as [n|] eqn:Hn; [|done].
    simpl in Hp. injection Hp as Hp.
    assert (keyOf e = k) as Hk.
    { rewrite <- Hp. simpl in Hkey. by injection Hkey. }
    destruct (entryOf_split k es1 e es2 Hnd Hk) as [Hf Hw].
    exists l1, a, l2, es1, e, es2, n. split_and!; try done.
    + by eapply Forall2_length.
    + unfold lookup. rewrite Hc. simpl. by rewrite Hn.
  - left. assert (k ∉ keyOf <$> es) as Hk.
    { intros (e & -> & He)%list_elem_of_fmap.
      apply list_elem_of_lookup in He as [i Hi].
      destruct (Forall2_lookup_r _ _ _ _ _ Hall Hi) as (a & Ha & Hp).
      apply payload_key in Hp.
      assert (cache c !! keyOf e = Some a); [|congruence].
      apply (recency_index _ _ Hrec). split; [|done].
      by eapply list_elem_of_lookup_2. }
    destruct (entryOf_None k es Hk) as [Hf Hw].
    split_and!; try done. unfold lookup. by rewrite Hc.
Qed.

End Entries.

Section Transitions.
Import LRUCache.
Context {T : Type}.
Implicit Types (c : LRUCache T) (h : gmap nat (CacheNode T)) (l : list nat).
Implicit Types (n : CacheNode T) (e : entry (T:=T)) (es : list (entry (T:=T))).

Lemma linked_ext c c' l :
  heap c' = heap c → head c' = head c → tail c' = tail c →
  linked c l → linked c' l.
Proof. intros Hh Hd Ht [? ? ? ?]. constructor; congruence. Qed.

(** Entries carried by nodes whose payload is unchanged. *)
Lemma carried_frame h h' l es :
  (∀ x, x ∈ l → payload <$> h' !! x = payload <$> h !! x) →
  Forall2 (λ a e, payload <$> h !! a = Some e) l es →
  Forall2 (λ a e, payload <$> h' !! a = Some e) l es.
Proof.
  intros Hp Hall. induction Hall as [|a e l es Ha Hall IH]; constructor.
  - rewrite Hp; [done|left].
  - apply IH. intros x Hx. apply Hp. by right.
Qed.

Lemma holds_set_stats c l es s :
  size s = size (stats c) → holds c l es → holds (set_stats s c) l es.
Proof.
  intros Hs [[Hl Hi Hsz Hc Hf] Hall]. split; [|done].
  constructor; simpl; try done; [|congruence].
  by eapply linked_ext; [..|exact Hl].
Qed.

(** Dropping the node [a] of key [k]: [cache.delete(k)],
    [removeNode(a)], [size--]. *)
Lemma holds_remove c l1 a l2 es1 e es2 k :
  holds c (l1 ++ a :: l2) (es1 ++ e :: es2) →
  length l1 = length es1 →
  cache c !! k = Some a →
  let c1 := removeNode a (set_cache (delete k (cache c)) c) in
  holds (set_stats (shrink (stats c1)) c1) (l1 ++ l2) (es1 ++ es2).
Proof.
  intros [[Hl Hi Hsz Hc Hf] Hall] Hlen Hk c1.
  destruct (removeNode_frame a (set_cache (delete k (cache c)) c))
    as (Hcap & Httl & Hcache & Hstats & Hfresh & Hpay).
  fold c1 in Hcap, Httl, Hcache, Hstats, Hfresh, Hpay. simpl in *.
  pose proof (linked_nodup _ _ Hl) as Hnd.
  assert (Hnot : a ∉ l1 ++ l2).
  { apply NoDup_app in Hnd as (_ & Hdisj & Hnd2).
    apply NoDup_cons in Hnd2 as [Hal2 _].
    intros [?|?]%elem_of_app; [|done]. eapply Hdisj; [done|left]. }
  assert (Hka : key <$> heap c !! a = Some k).
  { by apply Hi in Hk as [_ ?]. }
  split.
  - constructor; simpl.
    + eapply (linked_ext c1); [done..|]. apply removeNode_linked.
      by eapply linked_ext; [..|exact Hl].
    + intros k' a'. rewrite Hcache. rewrite (key_of_payload _ _ _ (Hpay a')).
      destruct (decide (k = k')) as [<-|Hne].
      * rewrite lookup_delete_eq. split; [done|]. intros [Hin Hkey].
        assert (cache c !! k = Some a') as Hk'.
        { apply Hi. split; [|done].
          apply elem_of_app in Hin as [?|?]; apply elem_of_app; [by left|].
          right. by right. }
        congruence.
      * rewrite lookup_delete_ne by done. rewrite Hi. split.
        -- intros [Hin Hkey]. split; [|done].
           apply elem_of_app in Hin as [?|Hin]; [apply elem_of_app; by left|].
           apply elem_of_cons in Hin as [->|?]; [congruence|].
           apply elem_of_app; by right.
        -- intros [Hin Hkey]. split; [|done].
           apply elem_of_app in Hin as [?|?]; apply elem_of_app; [by left|].
           right. by right.
    + rewrite Hstats, Hsz. rewrite !length_app. simpl. lia.
    + rewrite Hcache, map_size_delete_Some by done.
      rewrite Hc, !length_app. simpl. lia.
    + intros x Hx. rewrite Hfresh in Hx.
      eapply payload_None; [apply Hpay|]. by apply Hf.
  - simpl. apply (Forall2_app_inv _ _ _ _ _ Hlen) in Hall as [H1 H2].
    apply Forall2_cons in H2 as [_ H2].
    apply Forall2_app; apply (carried_frame (heap c)); try done;
      intros x _; apply Hpay.
Qed.

End Transitions.

Section MoreTransitions.
Import LRUCache.
Context {T : Type}.
Implicit Types (c : LRUCache T) (h : gmap nat (CacheNode T)) (l : list nat).
Implicit Types (n : CacheNode T) (e : entry (T:=T)) (es : list (entry (T:=T))).

Lemma linked_nil c : head c = None → tail c = None → linked c [].
Proof. intros Hh Ht. constructor; simpl; try done. apply NoDup_nil_2. Qed.

Lemma holds_new capacity ttl : holds (T:=T) (new capacity ttl) [] [].
Proof.
  split; [|constructor]. constructor; simpl; try done.
  - by apply linked_nil.
  - intros k a. rewrite lookup_empty. split; [done|].
    by intros [?%elem_of_nil _].
Qed.

Lemma holds_clear c l es : holds c l es → holds (clear c) [] [].
Proof.
  intros [[Hl Hi Hsz Hc Hf] Hall]. split; [|constructor].
  constructor; simpl; try done.
  - by apply linked_nil.
  - intros k a. rewrite lookup_empty. split; [done|].
    by intros [?%elem_of_nil _].
Qed.

(** A new node for the key [k], which the index does not hold, linked
    at the head: [cache.set(k, newNode)], [addToHead(newNode)], [size++]. *)
Lemma holds_insert c l es k v now :
  holds c l es →
  cache c !! k = None →
  let a := fresh c in
  let c0 := mkCache (capacity c) (ttl c) (cache c) (head c) (tail c) (stats c)
              (<[a := mkNode k v now None None]> (heap c)) (S a) in
  let c2 := addToHead a (set_cache (<[k := a]> (cache c0)) c0) in
  holds (set_stats (grow (stats c2)) c2) (a :: l) ((k, v, now) :: es).
Proof.
  intros [[Hl Hi Hsz Hc Hf] Hall] Hk a c0 c2.
  destruct (addToHead_frame a (set_cache (<[k := a]> (cache c0)) c0))
    as (Hcap & Httl & Hcache & Hstats & Hfresh & Hpay).
  fold c2 in Hcap, Httl, Hcache, Hstats, Hfresh, Hpay. simpl in *.
  assert (Hal : a ∉ l).
  { intros Hin. destruct (seg_elem _ _ _ _ _ (linked_seg _ _ Hl) Hin) as [n Hn].
    by rewrite (Hf a) in Hn. }
  assert (Hother : ∀ x, x ∈ l →
            <[a := mkNode k v now None None]> (heap c) !! x = heap c !! x).
  { intros x Hx. apply lookup_insert_ne. by intros ->. }
  assert (Hkeys : ∀ x, key <$> heap c2 !! x
                       = key <$> <[a := mkNode k v now None None]> (heap c) !! x).
  { intros x. apply key_of_payload, Hpay. }
  split.
  - constructor; simpl.
    + eapply (linked_ext c2); [done..|]. apply addToHead_linked; [|done|].
      * destruct Hl as [Hseg Hhd Htl Hnd]. constructor; simpl; try done.
        by eapply seg_frame; [|exact Hseg].
      * simpl. by rewrite lookup_insert_eq.
    + intros k' a'. rewrite Hcache, Hkeys.
      destruct (decide (k = k')) as [<-|Hne].
      * rewrite lookup_insert_eq. split.
        -- intros [= <-]. split; [left|]. by rewrite lookup_insert_eq.
        -- intros [Hin Hkey]. apply elem_of_cons in Hin as [->|Hin]; [done|].
           rewrite Hother in Hkey by done.
           assert (cache c !! k = Some a') by (by apply Hi). congruence.
      * rewrite lookup_insert_ne by done. rewrite Hi. split.
        -- intros [Hin Hkey]. split; [by right|]. by rewrite Hother.
        -- intros [Hin Hkey]. apply elem_of_cons in Hin as [->|Hin].
           ++ rewrite lookup_insert_eq in Hkey. simpl in Hkey. congruence.
           ++ split; [done|]. by rewrite <- Hother.
    + rewrite Hstats, Hsz. lia.
    + rewrite Hcache, map_size_insert_None by done. by rewrite Hc.
    + intros x Hx. rewrite Hfresh in Hx.
      eapply payload_None; [apply Hpay|].
      rewrite lookup_insert_ne by lia. apply Hf. unfold a in *. lia.
  - simpl. constructor.
    + by rewrite Hpay, lookup_insert_eq.
    + apply (carried_frame (heap c)); [|done].
      intros x Hx. by rewrite Hpay, Hother.
Qed.

(** The node [a] of the list moved to its head. *)
Lemma holds_promote c l1 a l2 es1 e es2 :
  holds c (l1 ++ a :: l2) (es1 ++ e :: es2) →
  length l1 = length es1 →
  holds (moveToHead a c) (a :: l1 ++ l2) (e :: es1 ++ es2).
Proof.
  intros [[Hl Hi Hsz Hc Hf] Hall] Hlen.
  destruct (moveToHead_frame a c) as (Hcap & Httl & Hcache & Hstats & Hfresh & Hpay).
  simpl in *.
  assert (Hmem : ∀ x, x ∈ a :: l1 ++ l2 ↔ x ∈ l1 ++ a :: l2).
  { intros x. rewrite elem_of_cons, !elem_of_app, elem_of_cons. tauto. }
  split.
  - constructor.
    + by apply moveToHead_linked.
    + intros k' a'. rewrite Hcache, (key_of_payload _ _ _ (Hpay a')), Hmem. apply Hi.
    + rewrite Hstats, Hsz. simpl. rewrite !length_app. simpl. lia.
    + rewrite Hcache, Hc. simpl. rewrite !length_app. simpl. lia.
    + intros x Hx. rewrite Hfresh in Hx.
      eapply payload_None; [apply Hpay|]. by apply Hf.
  - apply (Forall2_app_inv _ _ _ _ _ Hlen) in Hall as [H1 H2].
    apply Forall2_cons in H2 as [He H2].
    constructor; [by rewrite Hpay|].
    apply Forall2_app; apply (carried_frame (heap c)); try done;
      intros x _; apply Hpay.
Qed.

Lemma seg_alter_links h (f : CacheNode T → CacheNode T) a p l q :
  (∀ n, prev (f n) = prev n ∧ next (f n) = next n) →
  seg h p l q → seg (alter f a h) p l q.
Proof.
  intros Hf. revert p. induction l as [|b l IH]; intros p; [done|].
  intros (n & Hb & Hp & Hn & Hrest).
  destruct (decide (a = b)) as [->|Hne].
  - exists (f n). destruct (Hf n) as [-> ->].
    split_and!; try done; [|by apply IH]. by rewrite lookup_alter_eq, Hb.
  - exists n. split_and!; try done; [|by apply IH]. by rewrite lookup_alter_ne.
Qed.

(** [node.value = v; node.timestamp = now] on the node [a] of the list. *)
Lemma holds_update c l1 a l2 es1 e es2 v now :
  holds c (l1 ++ a :: l2) (es1 ++ e :: es2) →
  length l1 = length es1 →
  holds (write a (node_set_timestamp now) (write a (node_set_value v) c))
    (l1 ++ a :: l2) (es1 ++ (keyOf e, v, now) :: es2).
Proof.
  intros [[Hl Hi Hsz Hc Hf] Hall] Hlen.
  apply (Forall2_app_inv _ _ _ _ _ Hlen) in Hall as [H1 H2].
  apply Forall2_cons in H2 as [He H2].
  destruct (heap c !! a) as [n|] eqn:Hn; [|done].
  simpl in He. injection He as He.
  pose proof (linked_nodup _ _ Hl) as Hnd.
  assert (Hnot : (a ∉ l1) ∧ (a ∉ l2)).
  { apply NoDup_app in Hnd as (_ & Hdisj & Hnd2).
    apply NoDup_cons in Hnd2 as [Hal2 _]. split; [|done].
    intros ?. eapply Hdisj; [done|left]. }
  destruct Hnot as [Hnot1 Hnot2].
  set (h' := alter (node_set_timestamp now) a (alter (node_set_value v) a (heap c))).
  assert (Hkeys : ∀ x, key <$> h' !! x = key <$> heap c !! x).
  { intros x. unfold h'. destruct (decide (a = x)) as [<-|Hne].
    - rewrite !lookup_alter_eq, Hn. done.
    - by rewrite !lookup_alter_ne. }
  assert (Hout : ∀ x, x ≠ a → h' !! x = heap c !! x).
  { intros x Hx. unfold h'. by rewrite !lookup_alter_ne. }
  split.
  - constructor; simpl; try done.
    + destruct Hl as [Hseg Hhd Htl _]. constructor; simpl; try done.
      by do 2 (apply seg_alter_links; [done|]).
    + intros k' a'. fold h'. rewrite Hkeys. apply Hi.
    + intros x Hx. fold h'. destruct (decide (x = a)) as [->|Hne].
      * by rewrite (Hf a Hx) in Hn.
      * rewrite Hout by done. by apply Hf.
  - simpl. fold h'. apply Forall2_app; [|constructor].
    + apply (carried_frame (heap c)); [|done].
      intros x Hx. rewrite Hout; [done|]. by intros ->.
    + unfold h'. rewrite !lookup_alter_eq, Hn. simpl.
      unfold payload, keyOf. simpl. by rewrite <- He.
    + apply (carried_frame (heap c)); [|done].
      intros x Hx. rewrite Hout; [done|]. by intros ->.
Qed.

End MoreTransitions.

Section Methods.
Import LRUCache.
Context {T : Type}.
Implicit Types (c : LRUCache T) (h : gmap nat (CacheNode T)) (l : list nat).
Implicit Types (n : CacheNode T) (e : entry (T:=T)) (es : list (entry (T:=T))).

Lemma get_refines c l es k now :
  holds c l es →
  refines c (get k now c).2 es (CallGet k now) ∧
  (get k now c).1 = getResult (ttl c) es k now.
Proof.
  intros Hh. unfold refines, get, getResult. simpl.
  destruct (holds_view c l es k Hh)
    as [(Hc & -> & -> & Hw)
       |(l1 & a & l2 & es1 & e & es2 & n & -> & -> & Hlen & Hc & Hn & -> & He & Hk & -> & Hw)].
  - simpl. split_and!; try done. exists l. by apply holds_set_stats.
  - unfold isExpired. replace (stampOf e) with (timestamp n) by (by rewrite <- He).
    destruct (bool_decide (now - timestamp n > ttl c)).
    + rewrite Hw. simpl.
      destruct (removeNode_frame a (set_cache (delete k (cache c)) c))
        as (Hcap & Httl & _ & Hstats & _).
      pose proof (holds_remove _ _ _ _ _ _ _ _ Hh Hlen Hc) as Hr.
      simpl in *. rewrite Hstats in Hr. rewrite Hstats, Hcap, Httl.
      split_and!; try done.
      exists (l1 ++ l2). by apply holds_set_stats.
    + rewrite Hw. simpl.
      destruct (moveToHead_frame a (set_stats (hit (stats c)) c))
        as (Hcap & Httl & _ & Hstats & _).
      simpl in *. rewrite Hstats, Hcap, Httl. split_and!; try done.
      * exists (a :: l1 ++ l2). apply holds_promote; [|done].
        by apply holds_set_stats.
      * by rewrite <- He.
Qed.

Lemma has_refines c l es k now :
  holds c l es →
  refines c (has k now c).2 es (CallHas k now) ∧
  (has k now c).1 = hasResult (ttl c) es k now.
Proof.
  intros Hh. unfold refines, has, hasResult. simpl.
  destruct (holds_view c l es k Hh)
    as [(Hc & -> & -> & Hw)
       |(l1 & a & l2 & es1 & e & es2 & n & -> & -> & Hlen & Hc & Hn & -> & He & Hk & -> & Hw)].
  - simpl. split_and!; try done. by exists l.
  - unfold isExpired. replace (stampOf e) with (timestamp n) by (by rewrite <- He).
    destruct (bool_decide (now - timestamp n > ttl c)).
    + rewrite Hw. simpl.
      destruct (removeNode_frame a (set_cache (delete k (cache c)) c))
        as (Hcap & Httl & _ & Hstats & _).
      pose proof (holds_remove _ _ _ _ _ _ _ _ Hh Hlen Hc) as Hr.
      simpl in *. rewrite Hstats in Hr. rewrite Hstats, Hcap, Httl.
      split_and!; try done.
      by exists (l1 ++ l2).
    + simpl. split_and!; try done. by eexists.
Qed.

(** [evictLRU] on a list that is not empty drops its last node. *)
Lemma evictLRU_holds c l t es e :
  holds c (l ++ [t]) (es ++ [e]) →
  holds (evictLRU c) l es ∧
  stats (evictLRU c) = evicted (shrink (stats c)) ∧
  capacity (evictLRU c) = capacity c ∧ ttl (evictLRU c) = ttl c.
Proof.
  intros Hh. pose proof Hh as [[Hl Hi Hsz Hc Hf] Hall].
  assert (Hlen : length l = length es).
  { apply Forall2_length in Hall. rewrite !length_app in Hall. simpl in Hall. lia. }
  unfold evictLRU. rewrite (linked_tail _ _ Hl), lastOr_snoc.
  destruct (seg_elem _ _ _ _ t (linked_seg _ _ Hl)) as [n Hn].
  { apply elem_of_app. right. left. }
  rewrite Hn.
  assert (Hk : cache c !! key n = Some t).
  { apply Hi. split; [apply elem_of_app; right; left|]. by rewrite Hn. }
  destruct (removeNode_frame t (set_cache (delete (key n) (cache c)) c))
    as (Hcap & Httl & _ & Hstats & _).
  pose proof (holds_remove c l t [] es e [] (key n) Hh Hlen Hk) as Hr.
  simpl in *. rewrite !app_nil_r in Hr. rewrite Hstats in Hr.
  rewrite Hstats, Hcap, Httl. split_and!; try done.
  by apply holds_set_stats.
Qed.

Lemma set_refines c l es k v now :
  holds c l es → refines c (set k v now c) es (CallSet k v now).
Proof.
  intros Hh. unfold refines, set. cbn [entriesAfter statsAfter].
  destruct (holds_view c l es k Hh)
    as [(Hc & -> & -> & Hw)
       |(l1 & a & l2 & es1 & e & es2 & n & -> & -> & Hlen & Hc & Hn & -> & He & Hk & -> & Hw)].
  - pose proof (holds_insert c l es k v now Hh Hc) as Hins. cbv zeta in *.
    set (c0 := mkCache _ _ _ _ _ _ _ _) in *.
    destruct (addToHead_frame (fresh c) (set_cache (<[k:=fresh c]> (cache c0)) c0))
      as (Hcap & Httl & _ & Hstats & _).
    set (c2 := addToHead _ _) in *.
    change (capacity (set_cache _ c0)) with (capacity c) in Hcap.
    change (ttl (set_cache _ c0)) with (ttl c) in Httl.
    change (stats (set_cache _ c0)) with (stats c) in Hstats.
    set (c4 := set_stats (grow (stats c2)) c2) in *.
    assert (Hst4 : stats c4 = grow (stats c)) by (unfold c4; simpl; by rewrite Hstats).
    assert (Hcap4 : capacity c4 = capacity c) by done.
    assert (Httl4 : ttl c4 = ttl c) by done.
    pose proof Hh as [[_ _ Hsz _ _] Hall].
    assert (Hcond : bool_decide (size (stats c4) > capacity c4)
                    = bool_decide (Z.of_nat (length es) + 1 > capacity c)).
    { apply bool_decide_ext. rewrite Hst4, Hcap4. simpl.
      by rewrite Hsz, (Forall2_length _ _ _ Hall). }
    rewrite Hcond. clearbody c4.
    destruct (bool_decide (Z.of_nat (length es) + 1 > capacity c)).
    + destruct (exists_last (l:=(k, v, now) :: es)) as (es' & lst & Hes); [done|].
      destruct (exists_last (l:=fresh c :: l)) as (l' & t & Hl'); [done|].
      rewrite Hes, Hl' in Hins.
      destruct (evictLRU_holds _ _ _ _ _ Hins) as (Hev & Hst & Hcp & Htt).
      rewrite Hes, removelast_last. split_and!; [by exists l'|congruence..].
    + split_and!; try done. by eexists.
  - destruct (moveToHead_frame a
                (write a (node_set_timestamp now) (write a (node_set_value v) c)))
      as (Hcap & Httl & _ & Hstats & _).
    split_and!; try done.
    exists (a :: l1 ++ l2). rewrite Hw.
    replace k with (keyOf e). apply holds_promote; [|done].
    by apply holds_update.
Qed.

End Methods.

Section Sweep.
Import LRUCache.
Context {T : Type}.
Implicit Types (c : LRUCache T) (h : gmap nat (CacheNode T)) (l : list nat).
Implicit Types (n : CacheNode T) (e : entry (T:=T)) (es : list (entry (T:=T))).

Lemma deleteStale_holds c l es k :
  holds c l es →
  (∃ l', holds (deleteStale k c) l' (without k es)) ∧
  sameCounters c (deleteStale k c).
Proof.
  intros Hh. unfold deleteStale, sameCounters.
  destruct (holds_view c l es k Hh)
    as [(Hc & -> & _ & ->)
       |(l1 & a & l2 & es1 & e & es2 & n & -> & -> & Hlen & Hc & Hn & -> & He & Hk & _ & ->)].
  - split; [by exists l|done].
  - destruct (removeNode_frame a (set_cache (delete k (cache c)) c))
      as (Hcap & Httl & _ & Hstats & _).
    pose proof (holds_remove _ _ _ _ _ _ _ _ Hh Hlen Hc) as Hr.
    split; [by eexists|]. simpl in *. by rewrite Hstats.
Qed.

Lemma foldl_deleteStale_holds ks c l es :
  holds c l es →
  (∃ l', holds (foldl (λ c k, deleteStale k c) c ks) l'
           (foldl (λ es k, without k es) es ks)) ∧
  sameCounters c (foldl (λ c k, deleteStale k c) c ks).
Proof.
  revert c l es. induction ks as [|k ks IH]; intros c l es Hh; simpl.
  - split; [by exists l|done].
  - destruct (deleteStale_holds c l es k Hh) as [[l1 Hl1] (? & ? & ? & ? & ?)].
    destruct (IH _ _ _ Hl1) as [Hl2 (? & ? & ? & ? & ?)].
    split; [done|]. unfold sameCounters. split_and!; congruence.
Qed.

Lemma foldl_without ks es :
  foldl (λ es k, without k es) es ks = filter (λ e, keyOf e ∉ ks) es.
Proof.
  revert es. induction ks as [|k ks IH]; intros es; simpl.
  - induction es as [|e es IHes]; [done|].
    rewrite filter_cons_True by apply not_elem_of_nil. by rewrite <- IHes.
  - rewrite IH. unfold without. rewrite list_filter_filter.
    apply list_filter_iff. intros e. rewrite not_elem_of_cons. tauto.
Qed.

Lemma filter_ext_in {A} (P Q : A → Prop) `{!∀ x, Decision (P x)}
    `{!∀ x, Decision (Q x)} (xs : list A) :
  (∀ x, x ∈ xs → P x ↔ Q x) → filter P xs = filter Q xs.
Proof.
  induction xs as [|x xs IH]; intros Hpq; [done|].
  assert (filter P xs = filter Q xs) as Hrest.
  { apply IH. intros y Hy. apply Hpq. by right. }
  destruct (decide (P x)) as [Hp|Hp].
  - rewrite !filter_cons_True; [by rewrite Hrest| |done]. apply Hpq; [left|done].
  - rewrite !filter_cons_False; [done| |done]. intros Hq. apply Hp, Hpq; [left|done].
Qed.

Lemma keys_inj es e e' :
  NoDup (keyOf <$> es) → e ∈ es → e' ∈ es → keyOf e = keyOf e' → e = e'.
Proof.
  intros Hnd [i Hi]%list_elem_of_lookup [j Hj]%list_elem_of_lookup Hk.
  assert (i = j) as ->; [|congruence].
  eapply NoDup_lookup; [exact Hnd| |].
  - by rewrite list_lookup_fmap, Hi.
  - by rewrite list_lookup_fmap, Hj, Hk.
Qed.

(** The keys collected by the sweep are those of the entries older
    than [ttl]. *)
Lemma keysToDelete_spec c l es now k :
  holds c l es →
  k ∈ keysToDelete now c ↔ ∃ e, e ∈ es ∧ keyOf e = k ∧ now - stampOf e > ttl c.
Proof.
  intros Hh. unfold keysToDelete. rewrite list_elem_of_fmap.
  pose proof (holds_keys_nodup _ _ _ Hh) as Hnd.
  destruct (holds_view c l es k Hh)
    as [(Hc & _ & Hf & _)
       |(l1 & a & l2 & es1 & e & es2 & n & -> & -> & Hlen & Hc & Hn & _ & He & Hk & _ & _)].
  - split.
    + intros ([k' a] & -> & [_ Hin]%list_elem_of_filter).
      apply elem_of_map_to_list in Hin. simpl in *. congruence.
    + intros (e & He & Hk & _). exfalso.
      unfold entryOf in Hf. destruct (list_find _ es) eqn:E; [done|].
      apply list_find_None in E. by eapply Forall_forall in E.
  - assert (He_in : e ∈ es1 ++ e :: es2).
    { apply elem_of_app. right. left. }
    split.
    + intros ([k' a'] & -> & [Hst Hin]%list_elem_of_filter).
      apply elem_of_map_to_list in Hin. simpl in *.
      assert (a' = a) as -> by congruence.
      exists e. split_and!; try done.
      unfold stale in Hst. rewrite Hn in Hst. apply bool_decide_unpack in Hst.
      by rewrite <- He.
    + intros (e' & He' & Hk' & Hst).
      assert (e' = e) as -> by (eapply keys_inj; [done..|congruence]).
      exists (k, a). split; [done|]. apply list_elem_of_filter. split.
      * simpl. unfold stale. rewrite Hn. apply bool_decide_pack.
        by rewrite <- He in Hst.
      * by apply elem_of_map_to_list.
Qed.

Lemma length_filter_complement {A} (P : A → Prop) `{!∀ x, Decision (P x)}
    (xs : list A) :
  (length (filter P xs) + length (filter (λ x, ¬ P x) xs))%nat = length xs.
Proof.
  rewrite <- length_app. apply Permutation_length, filter_app_complement.
Qed.

Lemma sweep_refines c l es now :
  holds c l es → refines c (cleanupStaleEntries now c) es (CallSweep now).
Proof.
  intros Hh. unfold refines, cleanupStaleEntries. cbn [entriesAfter statsAfter].
  destruct (foldl_deleteStale_holds (keysToDelete now c) c l es Hh)
    as [[l' Hl'] (Hhits & Hmiss & Hev & Hcap & Httl)].
  rewrite foldl_without in Hl'.
  assert (Hfilter : filter (λ e, keyOf e ∉ keysToDelete now c) es
                    = filter (λ e, ¬ now - stampOf e > ttl c) es).
  { pose proof (holds_keys_nodup _ _ _ Hh) as Hnd.
    apply filter_ext_in. intros e He.
    rewrite (keysToDelete_spec c l es now (keyOf e) Hh). split.
    - intros Hno Hst. apply Hno. by exists e.
    - intros Hno (e' & He' & Hk & Hst).
      assert (e' = e) as -> by (by eapply keys_inj). done. }
  rewrite Hfilter in Hl'.
  split_and!; try done; [by exists l'|].
  pose proof Hh as [[_ _ Hsz _ _] Hall].
  pose proof Hl' as [[_ _ Hsz' _ _] Hall'].
  apply Forall2_length in Hall, Hall'.
  pose proof (length_filter_complement (λ e, now - stampOf e > ttl c) es) as Hlen.
  set (c' := foldl _ c _) in *.
  destruct (stats c') as [h' m' s' e'] eqn:Es. simpl in *.
  f_equal; try done. lia.
Qed.

(** Every call keeps the linked structure a faithful image of the
    list of entries. *)
Theorem step_refines c l es call :
  holds c l es → refines c (step c call) es call.
Proof.
  intros Hh. destruct call as [k now|k v now|k now| | |now|]; simpl.
  - by apply (get_refines c l).
  - by apply (set_refines c l).
  - by apply (has_refines c l).
  - unfold refines. split_and!; try done. exists []. by eapply holds_clear.
  - unfold refines. split_and!; try done. by exists l.
  - by apply (sweep_refines c l).
  - unfold refines. split_and!; try done. exists []. by eapply holds_clear.
Qed.

End Sweep.

Section Runs.
Import LRUCache.
Context {T : Type}.
Implicit Types (c : LRUCache T) (h : gmap nat (CacheNode T)) (l : list nat).
Implicit Types (n : CacheNode T) (e : entry (T:=T)) (es : list (entry (T:=T))).

Lemma store_run_snoc (calls : list (Call T)) call c :
  run (calls ++ [call]) c = step (run calls c) call.
Proof. unfold run. by rewrite foldl_app. Qed.

Lemma modelRun_snoc cap life (calls : list (Call T)) call st :
  modelRun cap life (calls ++ [call]) st
  = modelStep cap life (modelRun cap life calls st) call.
Proof. unfold modelRun. by rewrite foldl_app. Qed.

(** A run of the store from a state holding [es] is a run of the list
    of entries. *)
Theorem run_refines (calls : list (Call T)) c l es :
  holds c l es →
  let c' := run calls c in
  let st := modelRun (capacity c) (ttl c) calls (es, stats c) in
  (∃ l', holds c' l' st.1) ∧ stats c' = st.2 ∧
  capacity c' = capacity c ∧ ttl c' = ttl c.
Proof.
  intros Hh. cbv zeta. induction calls as [|call calls IH] using rev_ind.
  - split_and!; try done. by exists l.
  - destruct IH as ([l' Hl'] & Hst & Hcap & Httl).
    rewrite store_run_snoc, modelRun_snoc.
    pose proof (step_refines _ _ _ call Hl') as (Hl'' & Hst' & Hcap' & Httl').
    unfold refines in *. rewrite Hcap, Httl, Hst in *.
    unfold modelStep. cbn [fst snd]. split_and!; try done; congruence.
Qed.

Lemma reachable_holds cap life (calls : list (Call T)) :
  let c := run calls (new cap life) in
  let st := modelRun cap life calls ([], stats (new (T:=T) cap life)) in
  (∃ l, holds c l st.1) ∧ stats c = st.2 ∧ capacity c = cap ∧ ttl c = life.
Proof. exact (run_refines calls (new cap life) [] [] (holds_new cap life)). Qed.

(** *** The list of entries never outgrows the capacity *)

Lemma entryOf_Some_elem k es e : entryOf k es = Some e → e ∈ es ∧ keyOf e = k.
Proof.
  unfold entryOf. destruct (list_find _ es) as [[i x]|] eqn:E; [|done].
  intros [= <-]. apply list_find_Some in E as (Hi & Hk & _).
  split; [by eapply list_elem_of_lookup_2|done].
Qed.

Lemma without_shorter k es e :
  entryOf k es = Some e → (length (without k es) < length es)%nat.
Proof.
  intros [Hin Hk]%entryOf_Some_elem. unfold without.
  induction es as [|x es IH]; [by apply elem_of_nil in Hin|].
  destruct (decide (keyOf x = k)) as [Hx|Hx].
  - rewrite filter_cons_False by (by intros ?). simpl.
    pose proof (length_filter (λ e, keyOf e ≠ k) es). lia.
  - rewrite filter_cons_True by done. simpl.
    apply elem_of_cons in Hin as [->|Hin]; [done|]. specialize (IH Hin). lia.
Qed.

Lemma without_length k es : (length (without k es) <= length es)%nat.
Proof. apply length_filter. Qed.

Lemma length_removelast {A} (xs : list A) x :
  length (removelast (x :: xs)) = length xs.
Proof.
  destruct (exists_last (l:=x :: xs)) as (xs' & y & Hxs); [done|].
  rewrite Hxs, removelast_last.
  apply (f_equal length) in Hxs. rewrite length_app in Hxs. simpl in Hxs. lia.
Qed.

Lemma entriesAfter_bounded cap life es (call : Call T) :
  0 <= cap →
  Z.of_nat (length es) <= cap →
  Z.of_nat (length (entriesAfter cap life es call)) <= cap.
Proof.
  intros Hcap Hlen.
  destruct call as [k now|k v now|k now| | |now|]; cbn [entriesAfter];
    try done; try (simpl; lia).
  - destruct (entryOf k es) as [e|] eqn:E; [|done].
    pose proof (without_shorter _ _ _ E).
    destruct (bool_decide _); simpl; lia.
  - destruct (entryOf k es) as [e|] eqn:E.
    + pose proof (without_shorter _ _ _ E). simpl. lia.
    + case_bool_decide.
      * rewrite length_removelast. lia.
      * simpl. lia.
  - destruct (entryOf k es) as [e|] eqn:E; [|done].
    pose proof (without_shorter _ _ _ E).
    destruct (bool_decide _); simpl; lia.
  - pose proof (length_filter (λ e, ¬ now - stampOf e > life) es). lia.
Qed.

Lemma modelRun_bounded cap life (calls : list (Call T)) es s :
  0 <= cap →
  Z.of_nat (length es) <= cap →
  Z.of_nat (length (modelRun cap life calls (es, s)).1) <= cap.
Proof.
  intros Hcap Hlen. induction calls as [|call calls IH] using rev_ind; [done|].
  rewrite modelRun_snoc. unfold modelStep. simpl.
  by apply entriesAfter_bounded.
Qed.

(** In a store holding [es] the index has the keys of [es]. *)
Lemma holds_cache_None c l es k :
  holds c l es → cache c !! k = None ↔ k ∉ keyOf <$> es.
Proof.
  intros Hh. pose proof (holds_keys_nodup _ _ _ Hh) as Hnd.
  destruct (holds_view c l es k Hh)
    as [(Hc & _ & Hf & _)
       |(l1 & a & l2 & es1 & e & es2 & n & -> & -> & Hlen & Hc & Hn & _ & He & Hk & _ & _)].
  - split; [|done]. intros _ (e & -> & He)%list_elem_of_fmap.
    unfold entryOf in Hf. destruct (list_find _ es) eqn:E; [done|].
    apply list_find_None in E. by eapply Forall_forall in E.
  - split; [by rewrite Hc|]. intros Hnot. exfalso. apply Hnot.
    rewrite <- Hk. apply list_elem_of_fmap_2, elem_of_app. right. left.
Qed.

End Runs.

Section StoreClaims.
Import LRUCache.
Context {T : Type}.
Implicit Types (c : LRUCache T) (h : gmap nat (CacheNode T)) (l : list nat).
Implicit Types (n : CacheNode T) (e : entry (T:=T)) (es : list (entry (T:=T))).

Lemma entryOf_cons_eq k e es : keyOf e = k → entryOf k (e :: es) = Some e.
Proof. intros Hk. unfold entryOf. simpl. by rewrite decide_True. Qed.

Lemma entryOf_cons_ne k e es : keyOf e ≠ k → entryOf k (e :: es) = entryOf k es.
Proof.
  intros Hk. unfold entryOf. simpl. rewrite decide_False by done.
  by destruct (list_find _ es) as [[i x]|].
Qed.

Lemma without_cons_eq k e es : keyOf e = k → without k (e :: es) = without k es.
Proof. intros Hk. unfold without. by rewrite filter_cons_False by (by intros ?). Qed.

Lemma without_cons_ne k e es :
  keyOf e ≠ k → without k (e :: es) = e :: without k es.
Proof. intros Hk. unfold without. by rewrite filter_cons_True. Qed.

(** [set] on distinct keys fills an empty store in reverse order of
    insertion while there is room. *)
Lemma modelRun_fill cap life es s :
  NoDup (keyOf <$> es) →
  Z.of_nat (length es) <= cap →
  modelRun cap life (sets es) ([], s)
  = (reverse es, mkStats (hits s) (misses s) (size s + Z.of_nat (length es)) (evictions s)).
Proof.
  induction es as [|e es IH] using rev_ind; intros Hnd Hlen.
  - simpl. destruct s. simpl. do 2 f_equal. lia.
  - rewrite fmap_app in Hnd. apply NoDup_app in Hnd as (Hnd & Hdisj & _).
    rewrite length_app in Hlen. simpl in Hlen.
    unfold sets in *. rewrite fmap_app. simpl.
    rewrite modelRun_snoc, IH by (done || lia).
    unfold modelStep. cbn [fst snd entriesAfter statsAfter].
    assert (e.1.1 ∉ keyOf <$> reverse es) as Hk.
    { rewrite fmap_reverse, elem_of_reverse. intros Hin.
      eapply Hdisj; [done|]. simpl. left. }
    destruct (entryOf_None _ _ Hk) as [-> _].
    rewrite length_reverse, bool_decide_eq_false_2 by lia.
    rewrite reverse_snoc. destruct e as [[k v] t]. simpl.
    rewrite length_app. simpl. f_equal. unfold grow. simpl. f_equal. lia.
Qed.

(** One more [set] on a new key then drops the entry inserted first. *)
Lemma modelRun_overflow (N : nat) life (first : entry (T:=T)) others s :
  length others = N →
  NoDup (keyOf <$> first :: others) →
  modelRun (Z.of_nat N) life (sets (first :: others)) ([], s)
  = (reverse others,
     mkStats (hits s) (misses s) (size s + Z.of_nat N) (evictions s + 1)).
Proof.
  intros Hlen Hnd.
  destruct (exists_last (l:=first :: others)) as (es & e & Hes); [done|].
  rewrite Hes in Hnd |- *. rewrite fmap_app in Hnd.
  apply NoDup_app in Hnd as (Hnd & Hdisj & _).
  assert (length es = N) as Hlen'.
  { apply (f_equal length) in Hes. rewrite length_app in Hes. simpl in Hes. lia. }
  unfold sets in *. rewrite fmap_app. simpl.
  rewrite modelRun_snoc. fold (sets es). rewrite modelRun_fill by (done || lia).
  unfold modelStep. cbn [fst snd entriesAfter statsAfter].
  assert (e.1.1 ∉ keyOf <$> reverse es) as Hk.
  { rewrite fmap_reverse, elem_of_reverse. intros Hin.
    eapply Hdisj; [done|]. simpl. left. }
  destruct (entryOf_None _ _ Hk) as [-> _].
  rewrite length_reverse, bool_decide_eq_true_2 by lia.
  f_equal.
  - replace ((e.1.1, e.1.2, e.2) :: reverse es) with (reverse (first :: others));
      [|by rewrite Hes, reverse_snoc; destruct e as [[? ?] ?]].
    rewrite reverse_cons. by rewrite removelast_last.
  - unfold evicted, shrink, grow. simpl. f_equal. lia.
Qed.


(** C2.  After any sequence of calls on a store built with a capacity
    that is not negative, the index holds at most [capacity] entries and
    [stats.size] is their number.  On a new store of capacity [N], [set] on
    [N + 1] distinct keys evicts the key set first and only that one:
    it is gone from the index, the [N] others are there, and the eviction
    counter is 1. *)
Theorem store_capacity :
  (∀ cap life (calls : list (Call T)),
     0 <= cap →
     let c := run calls (new cap life) in
     size (getStats c) <= cap ∧
     Z.of_nat (base.size (cache c)) = size (getStats c)) ∧
  (∀ (N : nat) life (first : entry (T:=T)) (others : list (entry (T:=T))),
     length others = N →
     NoDup (keyOf <$> first :: others) →
     let c := run (sets (first :: others)) (new (Z.of_nat N) life) in
     cache c !! keyOf first = None ∧
     (∀ e, e ∈ others → is_Some (cache c !! keyOf e)) ∧
     rep c (reverse others) ∧
     size (getStats c) = Z.of_nat N ∧
     evictions (getStats c) = 1).
Proof.
  split.
  - intros cap life calls Hcap c. unfold getStats.
    destruct (reachable_holds cap life calls) as ([l Hl] & Hst & _ & _).
    fold c in Hl, Hst.
    pose proof (modelRun_bounded cap life calls [] (stats (new (T:=T) cap life)) Hcap) as Hb.
    specialize (Hb ltac:(simpl; lia)).
    destruct Hl as [[_ _ Hsz Hcount _] Hall]. apply Forall2_length in Hall.
    rewrite Hcount, Hsz, Hall. split; [done|lia].
  - intros N life first others Hlen Hnd c. unfold getStats.
    destruct (reachable_holds (Z.of_nat N) life (sets (first :: others)))
      as ([l Hl] & Hst & _ & _).
    fold c in Hl, Hst.
    rewrite (modelRun_overflow N life first others _ Hlen Hnd) in Hl, Hst.
    simpl in Hl, Hst. apply NoDup_cons in Hnd as [Hfirst Hnd].
    split_and!.
    + apply (holds_cache_None c l _ _ Hl).
      by rewrite fmap_reverse, elem_of_reverse.
    + intros e He. apply not_eq_None_Some.
      rewrite (holds_cache_None c l _ _ Hl).
      intros Hno. apply Hno. rewrite fmap_reverse, elem_of_reverse.
      by apply list_elem_of_fmap_2.
    + by exists l.
    + rewrite Hst. simpl. lia.
    + by rewrite Hst.
Qed.

(** C7.  On a store of capacity 2, [set(a)], [set(b)], [get(a)], [set(c)]
    with three distinct keys and [a] not yet expired at the time of the
    [get]: the [get] returns the value of [a], and the last [set] evicts [b]
    and not [a]; the store then holds [c] and [a], in this order of
    recency. *)
Theorem recency_correctness life ka kb kc (va vb vc : T) ta tb tg tc :
  ka ≠ kb → ka ≠ kc → kb ≠ kc →
  ¬ tg - ta > life →
  let c2 := run [CallSet ka va ta; CallSet kb vb tb] (new 2 life) in
  let c := run [CallGet ka tg; CallSet kc vc tc] c2 in
  (get ka tg c2).1 = Some va ∧
  cache c !! kb = None ∧
  is_Some (cache c !! ka) ∧
  is_Some (cache c !! kc) ∧
  rep c [(kc, vc, tc); (ka, va, ta)] ∧
  evictions (getStats c) = 1 ∧
  size (getStats c) = 2.
Proof.
  intros Hab Hac Hbc Hfresh c2 c. unfold getStats.
  assert (Hm2 : modelRun 2 life [CallSet ka va ta; CallSet kb vb tb]
                  ([], stats (new (T:=T) 2 life))
                = ([(kb, vb, tb); (ka, va, ta)], mkStats 0 0 2 0)).
  { unfold modelRun, modelStep. simpl.
    rewrite entryOf_cons_ne by done. by simpl. }
  destruct (reachable_holds 2 life [CallSet ka va ta; CallSet kb vb tb])
    as ([l2 Hl2] & Hst2 & Hcap2 & Httl2).
  fold c2 in Hl2, Hst2, Hcap2, Httl2. rewrite Hm2 in Hl2, Hst2. simpl in Hl2, Hst2.
  destruct (run_refines [CallGet ka tg; CallSet kc vc tc] c2 l2 _ Hl2)
    as ([l Hl] & Hst & _ & _).
  fold c in Hl, Hst. rewrite Hcap2, Httl2, Hst2 in Hl, Hst.
  assert (Hm : modelRun 2 life [CallGet ka tg; CallSet kc vc tc]
                 ([(kb, vb, tb); (ka, va, ta)], mkStats 0 0 2 0)
               = ([(kc, vc, tc); (ka, va, ta)], mkStats 1 0 2 1)).
  { unfold modelRun, modelStep. simpl.
    rewrite (entryOf_cons_ne ka), (entryOf_cons_eq ka) by done.
    unfold stampOf at 1 2. simpl. rewrite bool_decide_eq_false_2 by done.
    rewrite (without_cons_ne ka), (without_cons_eq ka) by done.
    rewrite (entryOf_cons_ne kc), (entryOf_cons_ne kc) by done. by simpl. }
  unfold entry in *. rewrite Hm in Hl, Hst. simpl in Hl, Hst.
  split_and!.
  - destruct (get_refines c2 l2 _ ka tg Hl2) as [_ ->].
    unfold getResult. rewrite Httl2.
    rewrite (entryOf_cons_ne ka), (entryOf_cons_eq ka) by done.
    unfold stampOf. simpl. by rewrite bool_decide_eq_false_2.
  - apply (holds_cache_None c l _ _ Hl). simpl.
    rewrite !elem_of_cons, elem_of_nil. unfold keyOf. simpl.
    intros [?|[?|[]]]; congruence.
  - apply not_eq_None_Some. rewrite (holds_cache_None c l _ _ Hl). simpl.
    rewrite !elem_of_cons. unfold keyOf. simpl. intros Hno. apply Hno. auto.
  - apply not_eq_None_Some. rewrite (holds_cache_None c l _ _ Hl). simpl.
    rewrite !elem_of_cons. unfold keyOf. simpl. intros Hno. apply Hno. auto.
  - by exists l.
  - by rewrite Hst.
  - by rewrite Hst.
Qed.

End StoreClaims.

Section ExpiryClaims.
Import LRUCache.
Context {T : Type}.
Implicit Types (c : LRUCache T) (h : gmap nat (CacheNode T)) (l : list nat).
Implicit Types (n : CacheNode T) (e : entry (T:=T)) (es : list (entry (T:=T))).

Lemma reachable_rep cap life (calls : list (Call T)) :
  ∃ es, rep (run calls (new cap life)) es.
Proof.
  destruct (reachable_holds cap life calls) as ([l Hl] & _).
  eexists. by exists l.
Qed.

(** [get] on an entry older than [ttl]. *)
Lemma get_expired c k now a n :
  lookup k c = Some (a, n) → now - timestamp n > ttl c →
  (get k now c).1 = None ∧
  stats (get k now c).2 = miss (shrink (stats c)) ∧
  cache (get k now c).2 = delete k (cache c).
Proof.
  intros Hlook Hexp. unfold get. rewrite Hlook. unfold isExpired.
  rewrite bool_decide_eq_true_2 by done.
  destruct (removeNode_frame a (set_cache (delete k (cache c)) c))
    as (_ & _ & Hcache & Hstats & _).
  simpl in *. by rewrite Hstats, Hcache.
Qed.

(** [has] on an entry older than [ttl]. *)
Lemma has_expired c k now a n :
  lookup k c = Some (a, n) → now - timestamp n > ttl c →
  (has k now c).1 = false ∧
  stats (has k now c).2 = shrink (stats c) ∧
  cache (has k now c).2 = delete k (cache c).
Proof.
  intros Hlook Hexp. unfold has. rewrite Hlook. unfold isExpired.
  rewrite bool_decide_eq_true_2 by done.
  destruct (removeNode_frame a (set_cache (delete k (cache c)) c))
    as (_ & _ & Hcache & Hstats & _).
  simpl in *. by rewrite Hstats, Hcache.
Qed.

Lemma lookup_Some_cache c k a n : lookup k c = Some (a, n) → cache c !! k = Some a.
Proof.
  unfold lookup. destruct (cache c !! k) as [a'|]; [|done]. simpl.
  destruct (heap c !! a'); [|done]. simpl. congruence.
Qed.

Lemma lookup_None_cache c l es k :
  holds c l es → lookup k c = None ↔ cache c !! k = None.
Proof.
  intros Hh.
  destruct (holds_view c l es k Hh)
    as [(Hc & Hl & _)
       |(l1 & a & l2 & es1 & e & es2 & n & _ & _ & _ & Hc & _ & Hl & _)];
    rewrite Hc, Hl; done.
Qed.

(** The entry that the index gives for [k] is the entry of the list. *)
Lemma holds_lookup c l es k a n :
  holds c l es → lookup k c = Some (a, n) →
  entryOf k es = Some (payload n).
Proof.
  intros Hh Hlook.
  destruct (holds_view c l es k Hh)
    as [(_ & Hl & _)
       |(l1 & a' & l2 & es1 & e & es2 & n' & _ & _ & _ & _ & _ & Hl & He & _ & Hf & _)].
  - congruence.
  - rewrite Hl in Hlook. injection Hlook as -> ->. by rewrite He.
Qed.

(** C8.  In every state the store can reach: a [get] for a key whose
    entry is older than [ttl] returns [null], counts a miss and no hit,
    deletes the key from the index, unlinks its node (the store then holds
    the other entries, in the same order) and lowers [size] by one; a [get]
    for a key that the index does not hold returns [null] and counts a
    miss, and changes nothing else. *)
Theorem expiration_on_get cap life (calls : list (Call T)) k now :
  let c := run calls (new cap life) in
  let c' := (get k now c).2 in
  (∀ a n, lookup k c = Some (a, n) → now - timestamp n > ttl c →
     (get k now c).1 = None ∧
     misses (getStats c') = misses (getStats c) + 1 ∧
     hits (getStats c') = hits (getStats c) ∧
     size (getStats c') = size (getStats c) - 1 ∧
     cache c' = delete k (cache c) ∧
     base.size (cache c') = pred (base.size (cache c)) ∧
     ∃ es, rep c es ∧ rep c' (without k es) ∧
           (length (without k es) < length es)%nat) ∧
  (cache c !! k = None →
     get k now c = (None, set_stats (miss (stats c)) c) ∧
     misses (getStats c') = misses (getStats c) + 1 ∧
     hits (getStats c') = hits (getStats c) ∧
     size (getStats c') = size (getStats c) ∧
     cache c' = cache c ∧ heap c' = heap c ∧
     head c' = head c ∧ tail c' = tail c).
Proof.
  intros c c'. unfold getStats.
  destruct (reachable_holds cap life calls) as ([l Hl] & _). fold c in Hl.
  split.
  - intros a n Hlook Hexp.
    destruct (get_expired c k now a n Hlook Hexp) as (Hres & Hst & Hcache).
    fold c' in Hst, Hcache. rewrite Hst, Hcache. simpl.
    split_and!; try done.
    + apply map_size_delete_Some. eexists. by eapply lookup_Some_cache.
    + pose proof (holds_lookup c l _ k a n Hl Hlook) as Hentry.
      destruct (get_refines c l _ k now Hl) as [([l' Hl'] & _) _].
      fold c' in Hl'. cbn [entriesAfter] in Hl'. rewrite Hentry in Hl'.
      unfold stampOf, payload in Hl'. cbn [snd] in Hl'.
      rewrite bool_decide_eq_true_2 in Hl' by done.
      eexists. split_and!; [by exists l|by exists l'|].
      by eapply without_shorter.
  - intros Hnone.
    assert (lookup k c = None) as Hlook by (by apply (lookup_None_cache c l _ k Hl)).
    unfold c', get. by rewrite Hlook.
Qed.

(** C10.  In every state the store can reach, a call changes the
    eviction counter only if it is a [set] of a key that the index does not
    hold, made when the store is full: the counter then goes up by one.
    Removing an entry older than [ttl], in [get], in [has] or in the sweep,
    lowers [size] by the number of entries removed and leaves the
    eviction counter as it is. *)
Theorem evictions_only_on_capacity cap life (calls : list (Call T)) :
  let c := run calls (new cap life) in
  (∀ call,
     evictions (getStats (step c call)) = evictions (getStats c) ∨
     (∃ k v now, call = CallSet k v now ∧ cache c !! k = None ∧
        size (getStats c) + 1 > capacity c ∧
        evictions (getStats (step c call)) = evictions (getStats c) + 1)) ∧
  (∀ k now a n, lookup k c = Some (a, n) → now - timestamp n > ttl c →
     size (getStats (get k now c).2) = size (getStats c) - 1 ∧
     evictions (getStats (get k now c).2) = evictions (getStats c) ∧
     size (getStats (has k now c).2) = size (getStats c) - 1 ∧
     evictions (getStats (has k now c).2) = evictions (getStats c)) ∧
  (∀ now,
     let c' := cleanupStaleEntries now c in
     evictions (getStats c') = evictions (getStats c) ∧
     ∃ es, rep c es ∧
       size (getStats c') =
         size (getStats c)
         - Z.of_nat (length (filter (λ e, now - stampOf e > ttl c) es))).
Proof.
  intros c. unfold getStats.
  destruct (reachable_holds cap life calls) as ([l Hl] & _). fold c in Hl.
  split; [|split].
  - intros call.
    destruct (step_refines c l _ call Hl) as (_ & -> & _).
    destruct call as [k now|k v now|k now| | |now|]; cbn [statsAfter];
      try (by left).
    + left. destruct (entryOf k _); [|done]. by destruct (bool_decide _).
    + destruct (holds_view c l _ k Hl)
        as [(Hc & _ & -> & _)
           |(l1 & a & l2 & es1 & e & es2 & n & _ & _ & _ & _ & _ & _ & _ & _ & -> & _)];
        [|by left].
      case_bool_decide as Hfull; [|by left].
      right. exists k, v, now. split_and!; try done.
      destruct Hl as [[_ _ Hsz _ _] Hall]. apply Forall2_length in Hall.
      rewrite Hsz, Hall. done.
    + left. destruct (entryOf k _); [|done]. by destruct (bool_decide _).
  - intros k now a n Hlook Hexp.
    destruct (get_expired c k now a n Hlook Hexp) as (_ & -> & _).
    destruct (has_expired c k now a n Hlook Hexp) as (_ & -> & _).
    done.
  - intros now.
    destruct (sweep_refines c l _ now Hl) as (_ & Hst & _).
    rewrite Hst. simpl. split; [done|].
    eexists. split; [by exists l|done].
Qed.

End ExpiryClaims.

Section StoreWitnesses.
Import LRUCache.

(** Three keys on a store of capacity 2: the first one is evicted. *)
Lemma store_capacity_witness :
  let c := run (sets [("u1", 1%nat, 0); ("u2", 2%nat, 5); ("u3", 3%nat, 9)])
             (new 2 60000) in
  (size (getStats c) <= 2 ∧ Z.of_nat (base.size (cache c)) = size (getStats c)) ∧
  cache c !! "u1" = None ∧ evictions (getStats c) = 1.
Proof.
  intros c. split.
  - apply (proj1 store_capacity 2 60000
             (sets [("u1", 1%nat, 0); ("u2", 2%nat, 5); ("u3", 3%nat, 9)])).
    lia.
  - destruct (proj2 (store_capacity (T:=nat)) 2%nat 60000 ("u1", 1%nat, 0)
                [("u2", 2%nat, 5); ("u3", 3%nat, 9)])
      as (Hgone & _ & _ & _ & Hev).
    + reflexivity.
    + refine (bool_decide_unpack _ _). vm_compute. exact I.
    + split; [exact Hgone|exact Hev].
Defined.

Lemma recency_correctness_witness :
  let c2 := run [CallSet "a" 1%nat 0; CallSet "b" 2%nat 10] (new 2 60000) in
  let c := run [CallGet "a" 20; CallSet "c" 3%nat 30] c2 in
  cache c !! "b" = None ∧ is_Some (cache c !! "a") ∧ evictions (getStats c) = 1.
Proof.
  intros c2 c.
  destruct (recency_correctness 60000 "a" "b" "c" 1%nat 2%nat 3%nat 0 10 20 30)
    as (_ & Hb & Ha & _ & _ & Hev & _).
  - discriminate.
  - discriminate.
  - discriminate.
  - lia.
  - split; [exact Hb|split; [exact Ha|exact Hev]].
Defined.

(** A [get] one millisecond after the entry has expired, and a [get]
    for a key never set. *)
Lemma expiration_on_get_witness :
  let c := run [CallSet "u1" 1%nat 0] (new 100 60000) in
  ((get "u1" 60001 c).1 = None ∧
   size (getStats (get "u1" 60001 c).2) = size (getStats c) - 1) ∧
  (get "u9" 60001 c).1 = None.
Proof.
  intros c. split.
  - destruct (proj1 (expiration_on_get 100 60000 [CallSet "u1" 1%nat 0] "u1" 60001)
                0%nat (mkNode "u1" 1%nat 0 None None))
      as (Hres & _ & _ & Hsize & _).
    + reflexivity.
    + vm_compute. reflexivity.
    + split; [exact Hres|exact Hsize].
  - destruct (proj2 (expiration_on_get 100 60000 [CallSet "u1" 1%nat 0] "u9" 60001))
      as (Hget & _).
    + reflexivity.
    + fold c in Hget. by rewrite Hget.
Defined.

Lemma evictions_only_on_capacity_witness :
  let c := run [CallSet "u1" 1%nat 0] (new 100 60000) in
  size (getStats (has "u1" 60001 c).2) = size (getStats c) - 1 ∧
  evictions (getStats (has "u1" 60001 c).2) = evictions (getStats c).
Proof.
  intros c.
  destruct (evictions_only_on_capacity 100 60000 [CallSet "u1" 1%nat 0])
    as (_ & Hexp & _).
  destruct (Hexp "u1" 60001 0%nat (mkNode "u1" 1%nat 0 None None))
    as (_ & _ & Hsize & Hev).
  - reflexivity.
  - vm_compute. reflexivity.
  - split; [exact Hsize|exact Hev].
Defined.

End StoreWitnesses.

Section QueueBasics.
Import AsyncQueue.
Context {T : Type}.
Implicit Types (rt : Runtime T) (q : list QueueTask) (task : QueueTask).
Implicit Types (s : settlement T) (o : outcome T).

Lemma settle_this p s rt : this (settle p s rt) = this rt.
Proof. unfold settle. by repeat case_match. Qed.

Lemma settle_awaiting p s rt : awaiting (settle p s rt) = awaiting rt.
Proof. unfold settle. by repeat case_match. Qed.

Lemma settle_nextPromise p s rt : nextPromise (settle p s rt) = nextPromise rt.
Proof. unfold settle. by repeat case_match. Qed.

Lemma settle_invoked p s rt : invoked (settle p s rt) = invoked rt.
Proof. unfold settle. by repeat case_match. Qed.

Lemma settle_peak p s rt : peak (settle p s rt) = peak rt.
Proof. unfold settle. by repeat case_match. Qed.

Lemma settle_owed p s rt : owed (settle p s rt) = owed rt.
Proof. unfold owed. by rewrite settle_this, settle_awaiting. Qed.

Lemma settle_other p s rt x :
  x ≠ p → promises (settle p s rt) !! x = promises rt !! x.
Proof.
  intros Hne. unfold settle. repeat case_match; try done.
  simpl. by rewrite lookup_insert_ne.
Qed.

Lemma settle_pending p s rt :
  promises rt !! p = Some Pending → promises (settle p s rt) !! p = Some s.
Proof. intros Hp. unfold settle. rewrite Hp. simpl. by rewrite lookup_insert_eq. Qed.

(** A promise that is settled stays as it is. *)
Lemma settle_settled p s rt x sx :
  promises rt !! x = Some sx → sx ≠ Pending →
  promises (settle p s rt) !! x = Some sx.
Proof.
  intros Hx Hsx. destruct (decide (x = p)) as [->|Hne].
  - unfold settle. rewrite Hx. by destruct sx.
  - by rewrite settle_other.
Qed.

Lemma settle_None p s rt x :
  promises rt !! x = None → promises (settle p s rt) !! x = None.
Proof.
  intros Hx. destruct (decide (x = p)) as [->|Hne].
  - unfold settle. by rewrite Hx.
  - by rewrite settle_other.
Qed.

(** [processQueue] allocates promises but never frees one. *)
Lemma processQueueFrom_nextPromise q rt :
  (nextPromise rt <= nextPromise (processQueueFrom q rt))%nat.
Proof.
  revert rt. induction q as [|task rest IH]; intros rt; simpl; [done|].
  case_bool_decide; [done|].
  destruct (body (fn task)) as [e|]; simpl; [|lia].
  rewrite settle_nextPromise.
  etrans; [|apply IH]. simpl. rewrite settle_nextPromise. simpl. lia.
Qed.

(** [processQueue] leaves alone the promises that exist already and
    are not those of queued tasks. *)
Lemma processQueueFrom_promises q rt x :
  (x < nextPromise rt)%nat → x ∉ resolve <$> q →
  promises (processQueueFrom q rt) !! x = promises rt !! x.
Proof.
  revert rt. induction q as [|task rest IH]; intros rt Hx Hq; simpl; [done|].
  rewrite fmap_cons in Hq. apply not_elem_of_cons in Hq as [Hne Hq].
  case_bool_decide; [done|].
  destruct (body (fn task)) as [e|]; simpl.
  - rewrite settle_other by lia.
    rewrite IH; [| |done].
    + simpl. rewrite settle_other by done. simpl.
      by rewrite lookup_insert_ne by lia.
    + simpl. rewrite settle_nextPromise. simpl. lia.
  - by rewrite lookup_insert_ne by lia.
Qed.

End QueueBasics.

Section QueueInvariant.
Import AsyncQueue.
Context {T : Type}.
Implicit Types (rt : Runtime T) (q : list QueueTask) (task : QueueTask).
Implicit Types (s : settlement T) (o : outcome T).

Lemma owed_lt rt x : wf rt → x ∈ owed rt → (x < nextPromise rt)%nat.
Proof.
  intros Hwf Hx. destruct (decide (x < nextPromise rt)%nat) as [|Hge]; [done|].
  pose proof (wf_pending _ Hwf x Hx) as Hp.
  rewrite (wf_fresh _ Hwf x) in Hp; [done|lia].
Qed.

Lemma wf_settle_unowed rt p s : wf rt → p ∉ owed rt → wf (settle p s rt).
Proof.
  intros [Hc Hb Hpk Hpend Hnd Hfr] Hp.
  constructor; rewrite ?settle_this, ?settle_awaiting, ?settle_peak,
    ?settle_owed, ?settle_nextPromise; try done.
  - intros x Hx. rewrite settle_other; [by apply Hpend|]. by intros ->.
  - intros x Hx. apply settle_None. by apply Hfr.
Qed.

Lemma wf_set_processing rt m : wf rt → wf (set_processing m rt).
Proof. intros [Hc Hb Hpk Hpend Hnd Hfr]. by constructor. Qed.

Lemma owed_middle (A B C : list nat) r :
  A ++ B ++ r :: C ≡ₚ r :: A ++ B ++ C.
Proof. by rewrite (app_assoc A B (r :: C)), <- Permutation_middle, <- app_assoc. Qed.

Lemma owed_started (A B C : list nat) p r :
  (A ++ [p]) ++ (B ++ [r]) ++ C ≡ₚ p :: A ++ B ++ r :: C.
Proof.
  rewrite <- (Permutation_cons_append A p). simpl.
  by rewrite <- (app_assoc B [r] C).
Qed.

(** [processQueue] keeps the state well formed; the promises it owes
    afterwards were owed before or are new. *)
Lemma processQueueFrom_wf q rt :
  wf (set_queue q rt) →
  wf (processQueueFrom q rt) ∧
  (∀ x, x ∈ owed (processQueueFrom q rt) →
        x ∈ owed (set_queue q rt) ∨ (nextPromise rt <= x)%nat).
Proof.
  revert rt. induction q as [|task rest IH]; intros rt Hwf.
  { split; [done|]. intros x Hx. by left. }
  cbn [processQueueFrom]. case_bool_decide as Hfull.
  { split; [done|]. intros x Hx. by left. }
  pose proof (λ x, owed_lt _ x Hwf) as Hlt.
  destruct Hwf as [Hc Hb Hpk Hpend Hnd Hfr].
  unfold owed in Hpend, Hnd, Hlt. cbn in Hc, Hb, Hpk, Hpend, Hnd, Hfr, Hlt.
  set (A := fst <$> awaiting rt) in *.
  set (B := (λ pt : nat * QueueTask, resolve pt.2) <$> awaiting rt) in *.
  set (p := nextPromise rt) in *.
  rewrite owed_middle in Hnd. apply NoDup_cons in Hnd as [Hr Hnd].
  assert (Hp : p ∉ A ++ B ++ resolve task :: (resolve <$> rest)).
  { intros Hin. apply Hlt in Hin. lia. }
  destruct (body (fn task)) as [e|] eqn:Hbody; cbn.
  - (* the call throws *)
    set (rt5 := release task (settle (resolve task) _ _)).
    assert (Hwf5 : wf (set_queue rest rt5)).
    { constructor; unfold rt5, owed; cbn;
        rewrite ?settle_this, ?settle_awaiting, ?settle_peak, ?settle_nextPromise;
        cbn; fold A B.
      - lia.
      - lia.
      - lia.
      - intros x Hx. rewrite settle_other by (by intros ->). cbn.
        rewrite lookup_insert_ne.
        + apply Hpend. rewrite !elem_of_app in *. rewrite elem_of_cons. tauto.
        + intros <-. apply Hp. rewrite !elem_of_app in *. rewrite elem_of_cons. tauto.
      - done.
      - intros x Hx. apply settle_None. cbn.
        rewrite lookup_insert_ne by lia. apply Hfr. lia. }
    destruct (IH rt5 Hwf5) as [Hwf6 Hincl].
    assert (Hnext5 : nextPromise rt5 = S p).
    { unfold rt5. cbn. by rewrite settle_nextPromise. }
    assert (Hp6 : p ∉ owed (processQueueFrom rest rt5)).
    { intros Hin. apply Hincl in Hin as [Hin|Hin]; [|lia].
      unfold owed, rt5 in Hin. cbn in Hin.
      rewrite settle_awaiting in Hin. cbn in Hin. fold A B in Hin.
      apply Hp. rewrite !elem_of_app in *. rewrite elem_of_cons. tauto. }
    split.
    + by apply wf_set_processing, wf_settle_unowed.
    + intros x Hx. unfold owed in Hx. cbn in Hx.
      rewrite settle_this, settle_awaiting in Hx.
      apply Hincl in Hx as [Hx|Hx]; [|right; lia].
      left. unfold owed, rt5 in Hx |- *. cbn in Hx |- *.
      rewrite settle_awaiting in Hx. cbn in Hx. fold A B in Hx |- *.
      rewrite !elem_of_app in *. rewrite elem_of_cons. tauto.
  - (* the call returns a promise: the block is suspended *)
    split.
    + constructor; unfold owed; cbn; rewrite ?fmap_app; cbn; fold A B.
      * rewrite length_app. cbn. lia.
      * lia.
      * lia.
      * intros x Hx. rewrite owed_started in Hx.
        apply elem_of_cons in Hx as [->|Hx]; [by rewrite lookup_insert_eq|].
        rewrite lookup_insert_ne; [by apply Hpend|]. by intros <-.
      * rewrite owed_started. apply NoDup_cons. split; [done|].
        rewrite owed_middle. by apply NoDup_cons.
      * intros x Hx. rewrite lookup_insert_ne by lia. apply Hfr. lia.
    + intros x Hx. unfold owed in Hx |- *. cbn in Hx |- *.
      rewrite !fmap_app in Hx. cbn in Hx. fold A B in Hx |- *.
      rewrite owed_started in Hx.
      apply elem_of_cons in Hx as [->|Hx]; [right; lia|by left].
Qed.

End QueueInvariant.

Section QueueSteps.
Import AsyncQueue.
Context {T : Type}.
Implicit Types (rt : Runtime T) (q : list QueueTask) (task : QueueTask).
Implicit Types (s : settlement T) (o : outcome T).

Lemma set_queue_id rt : set_queue (queue (this rt)) rt = rt.
Proof. by destruct rt as [[] ? ? ? ? ?]. Qed.

Lemma wf_new (M : Z) : wf (new (T:=T) M).
Proof.
  constructor; cbn; try done; try lia.
  - intros p Hp. by apply elem_of_nil in Hp.
  - apply NoDup_nil_2.
Qed.

Lemma processQueue_wf rt :
  wf rt →
  wf (processQueue rt) ∧
  (∀ x, x ∈ owed (processQueue rt) → x ∈ owed rt ∨ (nextPromise rt <= x)%nat).
Proof.
  intros Hwf. unfold processQueue.
  pose proof (processQueueFrom_wf (queue (this rt)) rt) as H.
  rewrite set_queue_id in H. by apply H.
Qed.

Lemma enqueue_wf i f rt : wf rt → wf (enqueue i f rt).2.
Proof.
  intros Hwf. unfold enqueue.
  destruct (processing (this rt) !! i) as [p|]; [done|]. cbn.
  apply processQueueFrom_wf.
  pose proof (λ x, owed_lt _ x Hwf) as Hlt.
  destruct Hwf as [Hc Hb Hpk Hpend Hnd Hfr].
  unfold owed in *. cbn in *.
  set (A := fst <$> awaiting rt) in *.
  set (B := (λ pt : nat * QueueTask, resolve pt.2) <$> awaiting rt) in *.
  set (C := resolve <$> queue (this rt)) in *.
  assert (Hperm : A ++ B ++ (resolve <$> queue (this rt)
                               ++ [mkTask i f (nextPromise rt)])
                  ≡ₚ nextPromise rt :: A ++ B ++ C).
  { rewrite fmap_app. cbn. fold C.
    by rewrite !app_assoc, <- Permutation_cons_append. }
  assert (Hp : nextPromise rt ∉ A ++ B ++ C).
  { intros Hin. apply Hlt in Hin. lia. }
  constructor; unfold owed; cbn; fold A B; try done.
  - intros x Hx. rewrite Hperm in Hx.
    apply elem_of_cons in Hx as [->|Hx]; [by rewrite lookup_insert_eq|].
    rewrite lookup_insert_ne; [by apply Hpend|]. by intros <-.
  - rewrite Hperm. by apply NoDup_cons.
  - intros x Hx. rewrite lookup_insert_ne by lia. apply Hfr. lia.
Qed.

Lemma filter_all {A} (P : A → Prop) `{!∀ x, Decision (P x)} (xs : list A) :
  Forall P xs → filter P xs = xs.
Proof.
  induction 1 as [|x xs Hx Hxs IH]; [done|].
  rewrite filter_cons_True by done. by rewrite IH.
Qed.

(** The suspended block of promise [p] in the list of suspended
    blocks. *)
Lemma suspended_split p rt task :
  NoDup (fst <$> awaiting rt) →
  suspended p rt = Some task →
  ∃ l1 l2, awaiting rt = l1 ++ (p, task) :: l2 ∧
           filter (λ pt, pt.1 ≠ p) (awaiting rt) = l1 ++ l2.
Proof.
  unfold suspended. intros Hnd Hs.
  destruct (list_find _ (awaiting rt)) as [[i [p' task']]|] eqn:E; [|done].
  cbn in Hs. injection Hs as ->.
  apply list_find_Some in E as (Hi & Hp & Hbefore). cbn in Hp. subst p'.
  exists (take i (awaiting rt)), (drop (S i) (awaiting rt)).
  pose proof (take_drop_middle _ _ _ Hi) as Heq. split; [done|].
  rewrite <- Heq at 1. rewrite <- Heq in Hnd.
  rewrite fmap_app, fmap_cons in Hnd. cbn in Hnd.
  apply NoDup_app in Hnd as (_ & _ & Hnd2). apply NoDup_cons in Hnd2 as [Hnot _].
  rewrite filter_app, filter_cons_False by (cbn; by intros ?).
  f_equal.
  - apply filter_all. apply Forall_forall. intros [p' t'] Hin. cbn.
    apply list_elem_of_lookup in Hin as [j Hj].
    pose proof (lookup_lt_Some _ _ _ Hj) as Hjl. rewrite length_take in Hjl.
    rewrite lookup_take_lt in Hj by lia.
    by apply (Hbefore j (p', t')); [|lia].
  - apply filter_all. apply Forall_forall. intros [p' t'] Hin. cbn.
    intros ->. apply Hnot. by apply (list_elem_of_fmap_2 fst) in Hin.
Qed.

End QueueSteps.

Section QueueResume.
Import AsyncQueue.
Context {T : Type}.
Implicit Types (rt : Runtime T) (q : list QueueTask) (task : QueueTask).
Implicit Types (s : settlement T) (o : outcome T).

Lemma wf_nodup_blocks rt : wf rt → NoDup (fst <$> awaiting rt).
Proof.
  intros Hwf. pose proof (wf_nodup _ Hwf) as Hnd.
  by apply NoDup_app in Hnd as [? _].
Qed.

(** The state in which [resume] calls [processQueue]: the block is no
    longer suspended, the promise of its task is settled, its slot is
    free. *)
Lemma resume_released rt p task l1 l2 s :
  wf rt →
  awaiting rt = l1 ++ (p, task) :: l2 →
  let rt3 := release task (settle (resolve task) s (set_awaiting (l1 ++ l2) rt)) in
  wf rt3 ∧ (p ∉ owed rt3) ∧ (resolve task ∉ owed rt3) ∧
  (∀ x, x ∈ owed rt3 → x ∈ owed rt) ∧
  nextPromise rt3 = nextPromise rt ∧
  promises rt3 !! resolve task = Some s ∧
  promises rt3 !! p = Some Pending.
Proof.
  intros Hwf Haw rt3.
  pose proof (λ x, owed_lt _ x Hwf) as Hlt.
  destruct Hwf as [Hc Hb Hpk Hpend Hnd Hfr].
  unfold owed in *. rewrite Haw in *. rewrite !fmap_app, !fmap_cons in *. cbn in *.
  set (A1 := fst <$> l1) in *. set (A2 := fst <$> l2) in *.
  set (B1 := (λ pt : nat * QueueTask, resolve pt.2) <$> l1) in *.
  set (B2 := (λ pt : nat * QueueTask, resolve pt.2) <$> l2) in *.
  set (C := resolve <$> queue (this rt)) in *.
  assert (Hperm : (A1 ++ p :: A2) ++ (B1 ++ resolve task :: B2) ++ C
                  ≡ₚ p :: resolve task :: (A1 ++ A2) ++ (B1 ++ B2) ++ C).
  { rewrite <- !Permutation_middle. cbn. rewrite <- !Permutation_middle.
    by rewrite <- !app_assoc. }
  rewrite Hperm in Hnd.
  apply NoDup_cons in Hnd as [Hp Hnd]. apply NoDup_cons in Hnd as [Hr Hnd].
  apply not_elem_of_cons in Hp as [Hpr Hp].
  assert (Hsub : ∀ x, x ∈ (A1 ++ A2) ++ (B1 ++ B2) ++ C →
                      x ∈ (A1 ++ p :: A2) ++ (B1 ++ resolve task :: B2) ++ C).
  { intros x Hx. rewrite Hperm. by do 2 right. }
  assert (Hres : promises rt !! resolve task = Some Pending).
  { apply Hpend. rewrite Hperm. right. left. }
  assert (Hpp : promises rt !! p = Some Pending).
  { apply Hpend. rewrite Hperm. left. }
  unfold rt3. split_and!.
  - constructor; unfold owed; cbn;
      rewrite ?settle_this, ?settle_awaiting, ?settle_peak, ?settle_nextPromise;
      cbn; rewrite ?fmap_app; fold A1 A2 B1 B2 C; try done.
    + rewrite !length_app in *. cbn in *. lia.
    + lia.
    + intros x Hx. rewrite settle_other by (by intros ->). cbn.
      by apply Hpend, Hsub.
    + intros x Hx. apply settle_None. cbn. by apply Hfr.
  - unfold owed. cbn. rewrite settle_this, settle_awaiting. cbn.
    rewrite !fmap_app. by fold A1 A2 B1 B2 C.
  - unfold owed. cbn. rewrite settle_this, settle_awaiting. cbn.
    rewrite !fmap_app. by fold A1 A2 B1 B2 C.
  - intros x. unfold owed. cbn. rewrite settle_this, settle_awaiting. cbn.
    rewrite ?Haw, !fmap_app, ?fmap_cons. cbn. fold A1 A2 B1 B2 C. apply Hsub.
  - cbn. by rewrite settle_nextPromise.
  - cbn. by apply settle_pending.
  - cbn. by rewrite settle_other.
Qed.

Lemma resume_unfold rt p task o l1 l2 :
  wf rt → suspended p rt = Some task →
  awaiting rt = l1 ++ (p, task) :: l2 →
  filter (λ pt, pt.1 ≠ p) (awaiting rt) = l1 ++ l2 →
  resume p o rt =
    settle p (blockResult o)
      (processQueue
         (release task (settle (resolve task) (taskResult task o)
                          (set_awaiting (l1 ++ l2) rt)))).
Proof.
  intros Hwf Hs Haw Hf. unfold resume. rewrite Hs, Hf. by destruct o.
Qed.

Lemma resume_wf p o rt : wf rt → wf (resume p o rt).
Proof.
  intros Hwf. destruct (suspended p rt) as [task|] eqn:Hs;
    [|unfold resume; by rewrite Hs].
  destruct (suspended_split p rt task (wf_nodup_blocks _ Hwf) Hs)
    as (l1 & l2 & Haw & Hf).
  rewrite (resume_unfold rt p task o l1 l2) by done.
  destruct (resume_released rt p task l1 l2 (taskResult task o) Hwf Haw)
    as (Hwf3 & Hp3 & _ & _ & Hnext & _ & Hpp).
  destruct (processQueue_wf _ Hwf3) as [Hwf4 Hincl].
  apply wf_settle_unowed; [done|].
  intros Hin. apply Hincl in Hin as [Hin|Hin]; [done|].
  rewrite Hnext in Hin.
  assert (p ∈ owed rt) as Hpo.
  { unfold owed. rewrite Haw, fmap_app, fmap_cons. cbn.
    rewrite !elem_of_app, elem_of_cons. tauto. }
  apply (owed_lt _ _ Hwf) in Hpo. lia.
Qed.

(** When the fetch function of a running task settles, the promise of
    the block and the promise of the task are settled with its outcome. *)
Lemma resume_settles p o rt task :
  wf rt → suspended p rt = Some task →
  promises (resume p o rt) !! p = Some (blockResult o) ∧
  promises (resume p o rt) !! resolve task = Some (taskResult task o).
Proof.
  intros Hwf Hs.
  destruct (suspended_split p rt task (wf_nodup_blocks _ Hwf) Hs)
    as (l1 & l2 & Haw & Hf).
  rewrite (resume_unfold rt p task o l1 l2) by done.
  destruct (resume_released rt p task l1 l2 (taskResult task o) Hwf Haw)
    as (Hwf3 & Hp3 & Hr3 & Hsub & Hnext & Hres & Hpp).
  set (rt3 := release task _) in *.
  assert (Hlt : ∀ x, x ∈ owed rt → (x < nextPromise rt3)%nat).
  { intros x Hx. rewrite Hnext. by apply owed_lt. }
  assert (Hpo : p ∈ owed rt).
  { unfold owed. rewrite Haw, fmap_app, fmap_cons. cbn.
    rewrite !elem_of_app, elem_of_cons. tauto. }
  assert (Hro : resolve task ∈ owed rt).
  { unfold owed. rewrite Haw, !fmap_app, !fmap_cons. cbn.
    rewrite !elem_of_app, !elem_of_cons. tauto. }
  assert (Hq : ∀ x, x ∉ owed rt3 → x ∉ resolve <$> queue (this rt3)).
  { intros x Hx Hin. apply Hx. unfold owed. rewrite !elem_of_app. tauto. }
  assert (Hne : resolve task ≠ p).
  { intros Heq. pose proof (wf_nodup _ Hwf) as Hnd. unfold owed in Hnd.
    rewrite Haw, !fmap_app, !fmap_cons in Hnd. cbn in Hnd.
    apply NoDup_app in Hnd as (_ & Hdisj & _).
    apply (Hdisj p); rewrite !elem_of_app, elem_of_cons; [tauto|].
    rewrite Heq. tauto. }
  unfold processQueue. split.
  - apply settle_pending.
    rewrite processQueueFrom_promises; [done|by apply Hlt|by apply Hq].
  - rewrite settle_other by done.
    rewrite processQueueFrom_promises; [done|by apply Hlt|by apply Hq].
Qed.

Lemma step_wf rt ev : wf rt → wf (step rt ev).
Proof. destruct ev; [apply enqueue_wf|apply resume_wf]. Qed.

Lemma queue_run_snoc evs ev rt : run (evs ++ [ev]) rt = step (run evs rt) ev.
Proof. unfold run. by rewrite foldl_app. Qed.

(** Every state that a queue reaches is well formed. *)
Lemma run_wf evs rt : wf rt → wf (run evs rt).
Proof.
  intros Hwf. induction evs as [|ev evs IH] using rev_ind; [done|].
  rewrite queue_run_snoc. by apply step_wf.
Qed.

(** *** A settled promise stays as it is *)

Lemma processQueueFrom_settled q rt x sx :
  (x < nextPromise rt)%nat →
  promises rt !! x = Some sx → sx ≠ Pending →
  promises (processQueueFrom q rt) !! x = Some sx.
Proof.
  revert rt. induction q as [|task rest IH]; intros rt Hlt Hx Hsx; cbn; [done|].
  case_bool_decide; [done|].
  destruct (body (fn task)) as [e|]; cbn.
  - apply settle_settled; [|done]. apply IH; [| |done].
    + cbn. rewrite settle_nextPromise. cbn. lia.
    + cbn. apply settle_settled; [|done]. cbn. by rewrite lookup_insert_ne by lia.
  - by rewrite lookup_insert_ne by lia.
Qed.

Lemma step_settled rt ev x sx :
  wf rt → promises rt !! x = Some sx → sx ≠ Pending →
  promises (step rt ev) !! x = Some sx.
Proof.
  intros Hwf Hx Hsx.
  assert (Hlt : (x < nextPromise rt)%nat).
  { destruct (decide (x < nextPromise rt)%nat) as [|Hge]; [done|].
    rewrite (wf_fresh _ Hwf x) in Hx; [done|lia]. }
  destruct ev as [i f|p o]; cbn.
  - unfold enqueue. destruct (processing (this rt) !! i); [done|]. cbn.
    apply processQueueFrom_settled; [cbn; lia| |done].
    cbn. by rewrite lookup_insert_ne by lia.
  - unfold resume. destruct (suspended p rt) as [task|]; [|done].
    destruct o as [v|e]; (apply settle_settled; [|done]);
      unfold processQueue; (apply processQueueFrom_settled; [| |done]); cbn;
      rewrite ?settle_nextPromise; try done; by apply settle_settled.
Qed.

Lemma run_settled evs rt x sx :
  wf rt → promises rt !! x = Some sx → sx ≠ Pending →
  promises (run evs rt) !! x = Some sx.
Proof.
  intros Hwf Hx Hsx. induction evs as [|ev evs IH] using rev_ind; [done|].
  rewrite queue_run_snoc. apply step_settled; [by apply run_wf|done..].
Qed.

End QueueResume.

Section QueueLog.
Import AsyncQueue.
Context {T : Type}.
Implicit Types (rt : Runtime T) (q : list QueueTask) (task : QueueTask).
Implicit Types (s : settlement T) (o : outcome T).

Lemma suspended_elem p rt task : suspended p rt = Some task → (p, task) ∈ awaiting rt.
Proof.
  unfold suspended. destruct (list_find _ (awaiting rt)) as [[i [p' t']]|] eqn:E; [|done].
  cbn. intros [= <-]. apply list_find_Some in E as (Hi & Hp & _). cbn in Hp. subst.
  by eapply list_elem_of_lookup_2.
Qed.








End QueueLog.

Section QueueServed.
Import AsyncQueue.
Context {T : Type}.
Implicit Types (rt : Runtime T) (q : list QueueTask) (task : QueueTask).
Implicit Types (s : settlement T) (o : outcome T).



End QueueServed.

Section QueueClaims.
Import AsyncQueue.
Context {T : Type}.
Implicit Types (rt : Runtime T) (q : list QueueTask) (task : QueueTask).
Implicit Types (s : settlement T) (o : outcome T).

Lemma reachable_wf (M : Z) (evs : list (event T)) : wf (run evs (new M)).
Proof. apply run_wf, wf_new. Qed.

Lemma processQueueFrom_maxConcurrent q rt :
  maxConcurrent (this (processQueueFrom q rt)) = maxConcurrent (this rt).
Proof.
  revert rt. induction q as [|task rest IH]; intros rt; cbn; [done|].
  case_bool_decide; [done|].
  destruct (body (fn task)); cbn; [|done].
  by rewrite settle_this, IH; cbn; rewrite settle_this.
Qed.

Lemma step_maxConcurrent rt ev :
  maxConcurrent (this (step rt ev)) = maxConcurrent (this rt).
Proof.
  destruct ev as [i f|p o]; cbn.
  - unfold enqueue. destruct (processing (this rt) !! i); [done|]. cbn.
    by rewrite processQueueFrom_maxConcurrent.
  - unfold resume. destruct (suspended p rt); [|done].
    destruct o; rewrite settle_this; unfold processQueue;
      rewrite processQueueFrom_maxConcurrent; cbn; by rewrite settle_this.
Qed.

Lemma run_maxConcurrent evs rt :
  maxConcurrent (this (run evs rt)) = maxConcurrent (this rt).
Proof.
  induction evs as [|ev evs IH] using rev_ind; [done|].
  by rewrite queue_run_snoc, step_maxConcurrent.
Qed.

(** C4.  With [maxConcurrent = M], whatever calls of [enqueue] are
    made and whenever the fetch functions settle: the number of fetch
    functions running at the same time has never been above [M] ([peak]
    is its maximum over the whole run), and the blocks suspended on a
    fetch function, which [currentlyProcessing] counts, are at most [M]. *)
Theorem concurrency_bound (M : Z) (evs : list (event T)) :
  0 <= M →
  let rt := run evs (new M) in
  Z.of_nat (peak rt) <= M ∧
  Z.of_nat (length (awaiting rt)) <= M ∧
  currentlyProcessing (this rt) = Z.of_nat (length (awaiting rt)) ∧
  maxConcurrent (this rt) = M.
Proof.
  intros HM rt.
  assert (HMax : maxConcurrent (this rt) = M) by apply run_maxConcurrent.
  destruct (reachable_wf M evs) as [Hc Hb Hpk _ _ _]. fold rt in Hc, Hb, Hpk.
  rewrite HMax in *. split_and!; try done; lia.
Qed.


(** C6, as the code has it.  When the fetch function of a running task
    fails with [e], the promise that the callers which joined hold is
    rejected with [e], and the promise of the caller that started the task
    is rejected with [e] if [e] is an instance of [Error] and with a new
    [Error('Unknown error')] if it is not; both stay so.  So all waiters
    get the same failure exactly when [e] is an instance of [Error]. *)
Theorem failure_propagation (M : Z) (evs : list (event T)) p task e :
  let rt := run evs (new M) in
  suspended p rt = Some task →
  (∀ evs',
     let rt' := run evs' (resume p (Threw e) rt) in
     received p rt' = Some (Rejected e) ∧
     received (resolve task) rt' =
       Some (Rejected (if instanceofError e then e
                       else UnknownError (resolve task))) ∧
     (instanceofError e = true →
        received (resolve task) rt' = received p rt') ∧
     (instanceofError e = false →
        received (resolve task) rt' ≠ received p rt')) ∧
  (∀ i f, processing (this rt) !! i = Some p → (enqueue i f rt).1 = p).
Proof.
  intros rt Hs. split.
  - intros evs'. cbv zeta. unfold received.
    pose proof (reachable_wf M evs) as Hwf. fold rt in Hwf.
    destruct (resume_settles p (Threw e) rt task Hwf Hs) as [Hb Ht].
    pose proof (resume_wf p (Threw e) rt Hwf) as Hwf'.
    cbn in Hb, Ht. unfold rejection in Ht.
    rewrite (run_settled evs' _ _ _ Hwf' Hb) by done.
    rewrite (run_settled evs' _ _ _ Hwf' Ht) by done.
    split_and!; try done; [by intros ->|].
    intros Hno. rewrite Hno. intros [= <-]. done.
  - intros i f Hp. unfold enqueue. by rewrite Hp.
Qed.

End QueueClaims.

Section QueueCounterexamples.
Import AsyncQueue.


(** A fetch function that rejects with a value that is not an [Error]:
    the caller that started the task and the caller that joined it get
    different failures. *)
Lemma failure_propagation_counterexample :
  let rt0 := new (T:=nat) 10 in
  let '(p1, rt1) := enqueue "k" (mkFn 0 Returns) rt0 in
  let '(p2, rt2) := enqueue "k" (mkFn 1 Returns) rt1 in
  let rt3 := resume p2 (Threw (OtherValue 7)) rt2 in
  invoked rt3 = [(1, 0)]%nat ∧
  received p1 rt3 = Some (Rejected (UnknownError 0)) ∧
  received p2 rt3 = Some (Rejected (OtherValue 7)) ∧
  received p1 rt3 ≠ received p2 rt3.
Proof. vm_compute. repeat split. discriminate. Qed.

(** C5 fails for a fetch function that throws when it is called:
    [finally] deletes the key before [processQueue] puts the promise of the
    block in [processing], so the rejected promise stays there.  The first
    caller has got its failure and no task is running, yet a later call
    for the key is joined to the finished task: its fetch function is never
    called and it gets the old failure. *)
Lemma stale_entry_after_synchronous_throw :
  let rt0 := new (T:=nat) 10 in
  let '(p1, rt1) := enqueue "k" (mkFn 0 (Throws (ErrorObject 7))) rt0 in
  let '(p2, rt2) := enqueue "k" (mkFn 1 Returns) rt1 in
  received p1 rt1 = Some (Rejected (ErrorObject 7)) ∧
  awaiting rt1 = [] ∧ queue (this rt1) = [] ∧
  currentlyProcessing (this rt1) = 0 ∧
  processing (this rt1) !! "k" = Some p2 ∧
  rt2 = rt1 ∧
  invoked rt2 = [(1, 0)]%nat ∧
  received p2 rt2 = Some (Rejected (ErrorObject 7)).
Proof. vm_compute. repeat split. Qed.

End QueueCounterexamples.

Section QueueTable.
Import AsyncQueue.
Context {T : Type}.
Implicit Types (rt : Runtime T) (q : list QueueTask) (task : QueueTask).
Implicit Types (s : settlement T) (o : outcome T).

(** [processQueue] puts only new promises in the [processing] map. *)
Lemma processQueueFrom_table q rt i x :
  processing (this (processQueueFrom q rt)) !! i = Some x →
  processing (this rt) !! i = Some x ∨ (nextPromise rt <= x)%nat.
Proof.
  revert rt. induction q as [|task rest IH]; intros rt; cbn; [by left|].
  case_bool_decide; [by left|].
  destruct (body (fn task)) as [e|]; cbn.
  - rewrite settle_this. destruct (decide (id task = i)) as [<-|Hne].
    + rewrite lookup_insert_eq. intros [= <-]. by right.
    + rewrite lookup_insert_ne by done. intros Hx.
      apply IH in Hx as [Hx|Hx]; cbn in Hx;
        rewrite ?settle_this, ?settle_nextPromise in Hx; cbn in Hx.
      * rewrite lookup_delete_ne in Hx by done. by left.
      * right. lia.
  - destruct (decide (id task = i)) as [<-|Hne].
    + rewrite lookup_insert_eq. intros [= <-]. by right.
    + rewrite lookup_insert_ne by done. by left.
Qed.

Lemma processQueueFrom_awaiting q rt pt :
  pt ∈ awaiting (processQueueFrom q rt) →
  pt ∈ awaiting rt ∨ (nextPromise rt <= pt.1)%nat.
Proof.
  revert rt. induction q as [|task rest IH]; intros rt; cbn; [by left|].
  case_bool_decide; [by left|].
  destruct (body (fn task)) as [e|]; cbn.
  - rewrite settle_awaiting. intros Hx.
    apply IH in Hx as [Hx|Hx]; cbn in Hx;
      rewrite ?settle_awaiting, ?settle_nextPromise in Hx; cbn in Hx.
    + by left.
    + right. lia.
  - intros [Hx|Hx]%elem_of_app; [by left|].
    apply list_elem_of_singleton in Hx as ->. by right.
Qed.

Lemma processQueueFrom_tabled q rt :
  (∀ pt, pt ∈ awaiting rt → (pt.1 < nextPromise rt)%nat) →
  tabled rt → tabled (processQueueFrom q rt).
Proof.
  revert rt. induction q as [|task rest IH]; intros rt Hlt Htab; [done|].
  cbn [processQueueFrom]. case_bool_decide; [done|].
  destruct (body (fn task)) as [e|]; cbn.
  - set (rt5 := release task (settle (resolve task) _ _)).
    assert (Hlt5 : ∀ pt, pt ∈ awaiting rt5 → (pt.1 < nextPromise rt5)%nat).
    { intros pt. unfold rt5. cbn. rewrite settle_awaiting, settle_nextPromise. cbn.
      intros Hin. apply Hlt in Hin. lia. }
    assert (Htab5 : tabled rt5).
    { intros i x. unfold rt5. cbn. rewrite settle_this, settle_awaiting,
        settle_nextPromise. cbn.
      intros Hx. apply lookup_delete_Some in Hx as [_ Hx].
      destruct (Htab i x Hx) as [? ?]. split; [lia|done]. }
    specialize (IH rt5 Hlt5 Htab5).
    assert (Hnext5 : nextPromise rt5 = S (nextPromise rt)).
    { unfold rt5. cbn. by rewrite settle_nextPromise. }
    pose proof (processQueueFrom_nextPromise rest rt5) as Hmono.
    assert (Haw5 : awaiting rt5 = awaiting rt).
    { unfold rt5. cbn. by rewrite settle_awaiting. }
    clearbody rt5.
    intros i x. cbn. rewrite settle_this, settle_awaiting, settle_nextPromise.
    destruct (decide (id task = i)) as [<-|Hne].
    + rewrite lookup_insert_eq. intros [= <-]. split; [lia|].
      intros t Hin. exfalso.
      apply processQueueFrom_awaiting in Hin as [Hin|Hin]; cbn in Hin; [|lia].
      rewrite Haw5 in Hin. apply Hlt in Hin. cbn in Hin. lia.
    + rewrite lookup_insert_ne by done. apply IH.
  - intros i x. cbn. destruct (decide (id task = i)) as [<-|Hne].
    + rewrite lookup_insert_eq. intros [= <-]. split; [lia|].
      intros t [Hin|Hin]%elem_of_app.
      * apply Hlt in Hin. cbn in Hin. lia.
      * by apply list_elem_of_singleton in Hin as [= <-].
    + rewrite lookup_insert_ne by done. intros Hx.
      destruct (Htab i x Hx) as [Hxl Hx']. split; [lia|].
      intros t [Hin|Hin]%elem_of_app; [by apply Hx'|].
      apply list_elem_of_singleton in Hin as [= -> ->]. lia.
Qed.

End QueueTable.

Section QueueFreshFetch.
Import AsyncQueue.
Context {T : Type}.
Implicit Types (rt : Runtime T) (q : list QueueTask) (task : QueueTask).
Implicit Types (s : settlement T) (o : outcome T).

Lemma awaiting_lt rt pt : wf rt → pt ∈ awaiting rt → (pt.1 < nextPromise rt)%nat.
Proof.
  intros Hwf Hin. apply owed_lt; [done|]. unfold owed.
  apply elem_of_app. left. by apply list_elem_of_fmap_2.
Qed.

Lemma step_nextPromise rt ev : (nextPromise rt <= nextPromise (step rt ev))%nat.
Proof.
  destruct ev as [i f|p o]; cbn.
  - unfold enqueue. destruct (processing (this rt) !! i); [done|]. cbn.
    etrans; [|apply processQueueFrom_nextPromise]. cbn. lia.
  - unfold resume. destruct (suspended p rt); [|done].
    destruct o; rewrite settle_nextPromise; unfold processQueue;
      (etrans; [|apply processQueueFrom_nextPromise]); cbn;
      by rewrite settle_nextPromise.
Qed.

Lemma run_nextPromise evs rt : (nextPromise rt <= nextPromise (run evs rt))%nat.
Proof.
  induction evs as [|ev evs IH] using rev_ind; [done|].
  rewrite queue_run_snoc. etrans; [apply IH|apply step_nextPromise].
Qed.

(** A step puts only new promises in the [processing] map. *)
Lemma step_table rt ev i x :
  processing (this (step rt ev)) !! i = Some x →
  processing (this rt) !! i = Some x ∨ (nextPromise rt <= x)%nat.
Proof.
  destruct ev as [j f|p o]; cbn.
  - unfold enqueue. destruct (processing (this rt) !! j) eqn:E; [by left|]. cbn.
    intros [Hx|Hx]%processQueueFrom_table; cbn in Hx; [by left|right; lia].
  - unfold resume. destruct (suspended p rt) as [task|]; [|by left].
    assert (∀ s s', processing (this (settle p s (processQueue (release task
              (settle (resolve task) s' (set_awaiting
                 (filter (λ pt, pt.1 ≠ p) (awaiting rt)) rt)))))) !! i = Some x →
            processing (this rt) !! i = Some x ∨ (nextPromise rt <= x)%nat) as H.
    { intros s s'. rewrite settle_this. unfold processQueue.
      intros [Hx|Hx]%processQueueFrom_table; cbn in Hx;
        rewrite ?settle_this, ?settle_nextPromise in Hx; cbn in Hx.
      - apply lookup_delete_Some in Hx as [_ Hx]. by left.
      - by right. }
    destruct o; apply H.
Qed.

Lemma step_tabled rt ev : wf rt → tabled rt → tabled (step rt ev).
Proof.
  intros Hwf Htab. pose proof (λ pt, awaiting_lt rt pt Hwf) as Hlt.
  destruct ev as [j f|p o]; cbn.
  - unfold enqueue. destruct (processing (this rt) !! j) eqn:E; [done|]. cbn.
    apply processQueueFrom_tabled; cbn.
    + intros pt Hin. apply Hlt in Hin. lia.
    + intros i x Hx. destruct (Htab i x Hx) as [? ?]. split; [cbn; lia|done].
  - unfold resume. destruct (suspended p rt) as [task|]; [|done].
    assert (∀ s s', tabled (settle p s (processQueue (release task
              (settle (resolve task) s' (set_awaiting
                 (filter (λ pt, pt.1 ≠ p) (awaiting rt)) rt)))))) as H.
    { intros s s'.
      assert (tabled (processQueue (release task
              (settle (resolve task) s' (set_awaiting
                 (filter (λ pt, pt.1 ≠ p) (awaiting rt)) rt))))) as Hpq.
      { apply processQueueFrom_tabled; cbn;
          rewrite ?settle_this, ?settle_awaiting, ?settle_nextPromise; cbn.
        - intros pt [_ Hin]%list_elem_of_filter. by apply Hlt.
        - intros i x. cbn. rewrite settle_this, settle_awaiting, settle_nextPromise.
          cbn. intros Hx. apply lookup_delete_Some in Hx as [_ Hx].
          destruct (Htab i x Hx) as [? Hid]. split; [done|].
          intros t [_ Hin]%list_elem_of_filter. by apply Hid. }
      intros i x. rewrite settle_this, settle_awaiting, settle_nextPromise.
      apply Hpq. }
    destruct o; apply H.
Qed.

Lemma reachable_tabled (M : Z) (evs : list (event T)) : tabled (run evs (new M)).
Proof.
  induction evs as [|ev evs IH] using rev_ind.
  - intros i p. cbn. by rewrite lookup_empty.
  - rewrite queue_run_snoc. apply step_tabled; [apply reachable_wf|done].
Qed.

(** For a fetch function that returns a promise: once that promise
    has settled, however it did, the promise of the block is under
    no key of the [processing] map, at once and for ever, so that no later
    call can be joined to the finished task. *)
Theorem settled_task_leaves_table (M : Z) (evs evs' : list (event T)) p task o i :
  let rt := run evs (new M) in
  suspended p rt = Some task →
  processing (this (run evs' (resume p o rt))) !! i ≠ Some p.
Proof.
  intros rt Hs.
  pose proof (reachable_wf M evs) as Hwf. fold rt in Hwf.
  pose proof (reachable_tabled M evs) as Htab. fold rt in Htab.
  pose proof (suspended_elem p rt task Hs) as Hin.
  pose proof (awaiting_lt rt _ Hwf Hin) as Hlt. cbn in Hlt.
  assert (Hnow : (∀ j, processing (this (resume p o rt)) !! j ≠ Some p) ∧
                 (p < nextPromise (resume p o rt))%nat).
  { split.
    - intros j Hj. change (resume p o rt) with (step rt (Settle p o)) in Hj.
      unfold step, resume in Hj. rewrite Hs in Hj.
      assert (processing (this (processQueue (release task
                (settle (resolve task) (taskResult task o) (set_awaiting
                   (filter (λ pt, pt.1 ≠ p) (awaiting rt)) rt))))) !! j = Some p)
        as Hj'.
      { destruct o; by rewrite settle_this in Hj. }
      unfold processQueue in Hj'.
      apply processQueueFrom_table in Hj' as [Hj'|Hj']; cbn in Hj';
        rewrite ?settle_this, ?settle_nextPromise in Hj'; cbn in Hj'; [|lia].
      apply lookup_delete_Some in Hj' as [Hne Hj'].
      destruct (Htab j p Hj') as [_ Hid]. by apply Hne, Hid.
    - pose proof (step_nextPromise rt (Settle p o)). cbn in *. lia. }
  clear Hs Hin. revert i.
  induction evs' as [|ev evs' IH] using rev_ind; [apply Hnow|].
  intros i Hi. rewrite queue_run_snoc in Hi.
  apply step_table in Hi as [Hi|Hi]; [by apply (IH i)|].
  pose proof (run_nextPromise evs' (resume p o rt)). destruct Hnow as [_ ?]. lia.
Qed.

End QueueFreshFetch.

Section QueueWitnesses.
Import AsyncQueue.

(** Three keys asked for at once on a queue of two slots. *)
Lemma concurrency_bound_witness :
  let rt := run [Enqueue "1" (mkFn 1 Returns); Enqueue "2" (mkFn 2 Returns);
                 Enqueue "3" (mkFn 3 Returns); Settle 1 (Returned 10%nat)]
              (new 2) in
  Z.of_nat (peak rt) <= 2 ∧
  Z.of_nat (length (awaiting rt)) <= 2 ∧
  currentlyProcessing (this rt) = Z.of_nat (length (awaiting rt)) ∧
  maxConcurrent (this rt) = 2.
Proof.
  apply (concurrency_bound 2
           [Enqueue "1" (mkFn 1 Returns); Enqueue "2" (mkFn 2 Returns);
            Enqueue "3" (mkFn 3 Returns); Settle 1 (Returned 10%nat)]).
  lia.
Defined.


(** A fetch function that fails with an instance of [Error]. *)
Lemma failure_propagation_witness :
  let rt := run [Enqueue "k" (mkFn 0 Returns)] (new (T:=nat) 10) in
  let rt' := run [] (resume 1 (Threw (ErrorObject 7)) rt) in
  received 1%nat rt' = Some (Rejected (ErrorObject 7)) ∧
  received 0%nat rt' = received 1%nat rt'.
Proof.
  intros rt rt'.
  destruct (failure_propagation (T:=nat) 10 [Enqueue "k" (mkFn 0 Returns)]
              1%nat (mkTask "k" (mkFn 0 Returns) 0) (ErrorObject 7))
    as (Hfail & _).
  - reflexivity.
  - destruct (Hfail []) as (Hblock & _ & Hsame & _).
    split; [exact Hblock|exact (Hsame eq_refl)].
Defined.

End QueueWitnesses.

(* ===================================================================== *)
(** * Part III: further properties                                        *)
(* ===================================================================== *)

(** ** rateLimiter.ts: clients, cleanup, quotas and [retryAfter] *)

Section RateLimiterClients.
Import RateLimiter.

Lemma prune_prune now now' w ts :
  now <= now' → prune now' w (prune now w ts) = prune now' w ts.
Proof.
  intros Hle. unfold prune. rewrite list_filter_filter.
  apply list_filter_iff. intros t. lia.
Qed.

Lemma prune_app now w l1 l2 :
  prune now w (l1 ++ l2) = prune now w l1 ++ prune now w l2.
Proof. apply filter_app. Qed.

Lemma middleware_config clientId now this :
  config (middleware clientId now this).2 = config this.
Proof.
  pose proof (middleware_record clientId now this) as H. cbv zeta in H.
  destruct (middleware clientId now this) as [resp this']. by destruct H.
Qed.

Lemma middleware_clients clientId now this :
  clients (middleware clientId now this).2 =
    <[clientId := recordOf clientId (middleware clientId now this).2]> (clients this).
Proof.
  unfold middleware. fold (recordOf clientId this).
  repeat case_bool_decide; cbn [snd clients]; rewrite recordOf_insert; done.
Qed.

(** The handler leaves the records of the other clients alone. *)
Lemma middleware_other clientId clientId' now this :
  clientId ≠ clientId' →
  recordOf clientId' (middleware clientId now this).2 = recordOf clientId' this.
Proof.
  intros Hne. unfold recordOf at 1. rewrite middleware_clients.
  by rewrite lookup_insert_ne.
Qed.

(** The response and the new record depend on the configuration and on
    what survives of the record of the client. *)
Lemma middleware_agree clientId now s s' :
  config s = config s' →
  prune now (windowMs (config s)) (requests (recordOf clientId s)) =
    prune now (windowMs (config s)) (requests (recordOf clientId s')) →
  prune now (burstWindowMs (config s)) (burstRequests (recordOf clientId s)) =
    prune now (burstWindowMs (config s)) (burstRequests (recordOf clientId s')) →
  (middleware clientId now s).1 = (middleware clientId now s').1 ∧
  recordOf clientId (middleware clientId now s).2 =
    recordOf clientId (middleware clientId now s').2.
Proof.
  intros Hc Hr Hb. unfold middleware.
  fold (recordOf clientId s). fold (recordOf clientId s').
  rewrite <- Hc, <- Hr, <- Hb.
  repeat case_bool_decide; cbn [fst snd]; rewrite !recordOf_insert; done.
Qed.

Lemma serve_agree clientId times s s' :
  config s = config s' →
  recordOf clientId s = recordOf clientId s' →
  (serve clientId times s).1 = (serve clientId times s').1.
Proof.
  revert s s'. induction times as [|now rest IH]; intros s s' Hc Hr; [done|].
  rewrite !serve_cons. cbn [fst].
  destruct (middleware_agree clientId now s s' Hc) as [-> Hrec];
    [by rewrite Hr..|].
  f_equal. apply IH; [by rewrite !middleware_config|done].
Qed.

Lemma serveAll_cons clientId now rest this :
  serveAll ((clientId, now) :: rest) this =
    ((middleware clientId now this).1
       :: (serveAll rest (middleware clientId now this).2).1,
     (serveAll rest (middleware clientId now this).2).2).
Proof.
  simpl. destruct (middleware clientId now this) as [r this1]. simpl.
  by destruct (serveAll rest this1).
Qed.

Lemma serveAll_length reqs this : length (serveAll reqs this).1 = length reqs.
Proof.
  revert this. induction reqs as [|[c now] rest IH]; intros this; [done|].
  rewrite serveAll_cons. cbn [fst length]. by rewrite IH.
Qed.

Lemma serveAll_config reqs this : config (serveAll reqs this).2 = config this.
Proof.
  revert this. induction reqs as [|[c now] rest IH]; intros this; [done|].
  rewrite serveAll_cons. cbn [snd]. by rewrite IH, middleware_config.
Qed.

Lemma arrivals_cons_eq clientId now rest :
  arrivals clientId ((clientId, now) :: rest) = now :: arrivals clientId rest.
Proof. unfold arrivals. by rewrite filter_cons_True. Qed.

Lemma arrivals_cons_ne clientId clientId' now rest :
  clientId' ≠ clientId →
  arrivals clientId ((clientId', now) :: rest) = arrivals clientId rest.
Proof. intros. unfold arrivals. by rewrite filter_cons_False. Qed.

Lemma arrivals_app clientId l1 l2 :
  arrivals clientId (l1 ++ l2) = arrivals clientId l1 ++ arrivals clientId l2.
Proof. unfold arrivals. by rewrite filter_app, fmap_app. Qed.

Lemma serveAll_other clientId reqs this :
  clientId ∉ reqs.*1 →
  recordOf clientId (serveAll reqs this).2 = recordOf clientId this.
Proof.
  revert this. induction reqs as [|[c now] rest IH]; intros this Hc; [done|].
  rewrite serveAll_cons. cbn [snd]. rewrite fmap_cons in Hc.
  apply not_elem_of_cons in Hc as [Hne Hc]. cbn [fst] in Hne.
  rewrite IH by done. by apply middleware_other.
Qed.

(** X3.  Clients do not affect one another: in the traffic of several
    clients, the responses to the requests of one client are those it
    would get if its requests were the only ones, and the record of a
    client that sends no request stays as it is. *)
Theorem clients_isolated clientId reqs this :
  (filter (λ qr, qr.1.1 = clientId) (zip reqs (serveAll reqs this).1)).*2 =
    (serve clientId (arrivals clientId reqs) this).1 ∧
  (∀ clientId', clientId' ∉ reqs.*1 →
     recordOf clientId' (serveAll reqs this).2 = recordOf clientId' this).
Proof.
  split; [|intros c' Hc'; by apply serveAll_other].
  revert this. induction reqs as [|[c now] rest IH]; intros this; [done|].
  rewrite serveAll_cons. cbn [fst zip zip_with].
  destruct (decide (c = clientId)) as [->|Hne].
  - rewrite filter_cons_True by done. rewrite arrivals_cons_eq, serve_cons.
    cbn [fst fmap list_fmap snd]. f_equal. apply IH.
  - rewrite filter_cons_False by done. rewrite arrivals_cons_ne by done.
    rewrite IH. apply serve_agree; [apply middleware_config|].
    by apply middleware_other.
Qed.

End RateLimiterClients.

Section RateLimiterCleanup.
Import RateLimiter.

Lemma cleanup_record now this clientId :
  let cfg := config this in
  let r := recordOf clientId this in
  let reqs := prune now (windowMs cfg) (requests r) in
  let bursts := prune now (burstWindowMs cfg) (burstRequests r) in
  recordOf clientId (cleanup now this) = mkRecord reqs bursts ∧
  (clients (cleanup now this) !! clientId = None ↔ reqs = [] ∧ bursts = []).
Proof.
  intros cfg r reqs bursts. unfold recordOf, cleanup. cbn [clients].
  rewrite map_lookup_filter, lookup_fmap.
  subst reqs bursts r. unfold recordOf. fold cfg.
  destruct (clients this !! clientId) as [r|] eqn:E; cbn.
  - case_guard as Hg; cbn in *.
    + split; [done|]. split; [done|]. intros [? ?]. by destruct Hg.
    + destruct Hg as [-> ->]. done.
  - done.
Qed.

(** Two states that no request arriving at [now] or later can tell
    apart. *)
Lemma cleanup_step now now' clientId s s' :
  now <= now' →
  config s = config s' →
  (∀ c, prune now (windowMs (config s)) (requests (recordOf c s)) =
        prune now (windowMs (config s)) (requests (recordOf c s')) ∧
        prune now (burstWindowMs (config s)) (burstRequests (recordOf c s)) =
        prune now (burstWindowMs (config s)) (burstRequests (recordOf c s'))) →
  (middleware clientId now' s).1 = (middleware clientId now' s').1 ∧
  (∀ c, prune now (windowMs (config s))
          (requests (recordOf c (middleware clientId now' s).2)) =
        prune now (windowMs (config s))
          (requests (recordOf c (middleware clientId now' s').2)) ∧
        prune now (burstWindowMs (config s))
          (burstRequests (recordOf c (middleware clientId now' s).2)) =
        prune now (burstWindowMs (config s))
          (burstRequests (recordOf c (middleware clientId now' s').2))).
Proof.
  intros Hle Hc Hsame.
  destruct (middleware_agree clientId now' s s' Hc) as [Hresp Hrec].
  { destruct (Hsame clientId) as [Hr _].
    rewrite <- (prune_prune now now') by done. rewrite Hr.
    by rewrite prune_prune. }
  { destruct (Hsame clientId) as [_ Hb].
    rewrite <- (prune_prune now now') by done. rewrite Hb.
    by rewrite prune_prune. }
  split; [done|]. intros c. destruct (decide (clientId = c)) as [<-|Hne].
  - by rewrite Hrec.
  - rewrite !middleware_other by done. apply Hsame.
Qed.

Lemma cleanup_run now reqs s s' :
  Forall (λ q, now <= q.2) reqs →
  config s = config s' →
  (∀ c, prune now (windowMs (config s)) (requests (recordOf c s)) =
        prune now (windowMs (config s)) (requests (recordOf c s')) ∧
        prune now (burstWindowMs (config s)) (burstRequests (recordOf c s)) =
        prune now (burstWindowMs (config s)) (burstRequests (recordOf c s'))) →
  (serveAll reqs s).1 = (serveAll reqs s').1.
Proof.
  intros Hall. revert s s'.
  induction Hall as [|[c now'] rest Hle Hall IH]; intros s s' Hc Hsame; [done|].
  rewrite !serveAll_cons. cbn [fst]. cbn [snd] in Hle.
  destruct (cleanup_step now now' c s s' Hle Hc Hsame) as [-> Hsame'].
  f_equal. apply IH.
  - by rewrite !middleware_config.
  - by rewrite middleware_config.
Qed.

(** X1.  The periodic cleanup prunes the record of every client to the
    timestamps inside its two windows and forgets a client exactly when
    none is left in either window; the configuration stays as it is. *)
Theorem cleanup_drops_idle_clients now this clientId :
  let cfg := config this in
  let r := recordOf clientId this in
  let reqs := prune now (windowMs cfg) (requests r) in
  let bursts := prune now (burstWindowMs cfg) (burstRequests r) in
  config (cleanup now this) = cfg ∧
  recordOf clientId (cleanup now this) = mkRecord reqs bursts ∧
  (clients (cleanup now this) !! clientId = None ↔ reqs = [] ∧ bursts = []).
Proof.
  intros cfg r reqs bursts. split; [done|]. apply cleanup_record.
Qed.

(** X2.  The periodic cleanup cannot be observed: whatever requests
    arrive at the time of the cleanup or later, of whatever clients, they
    get the same responses as they would have got without it. *)
Theorem cleanup_unobservable now this reqs :
  Forall (λ q, now <= q.2) reqs →
  (serveAll reqs (cleanup now this)).1 = (serveAll reqs this).1.
Proof.
  intros Hall. apply (cleanup_run now); [done|done|].
  intros c. destruct (cleanup_record now this c) as [-> _].
  cbn [requests burstRequests config cleanup].
  by rewrite !prune_prune.
Qed.

Lemma cleanup_unobservable_witness :
  let busy :=
    {| clients :=
         {[ "::1" := mkRecord [0; 1000; 2000; 3000; 4000] [0; 1000; 2000; 3000; 4000];
            "::2" := mkRecord [500] [500] ]};
       config := config rateLimiter |} in
  (serveAll [("::1", 61000); ("::2", 61500); ("::1", 62000)] (cleanup 60500 busy)).1 =
  (serveAll [("::1", 61000); ("::2", 61500); ("::1", 62000)] busy).1.
Proof.
  intros busy. apply (cleanup_unobservable 60500 busy).
  repeat constructor; cbn; lia.
Defined.

End RateLimiterCleanup.

Section RateLimiterQuota.
Import RateLimiter.

Lemma length_filter_impl {A} (P Q : A → Prop)
    `{!∀ x, Decision (P x)} `{!∀ x, Decision (Q x)} (l : list A) :
  (∀ x, P x → Q x) → (length (filter P l) <= length (filter Q l))%nat.
Proof.
  intros HPQ. induction l as [|x l IH]; [done|].
  destruct (decide (P x)) as [HP|HP].
  - rewrite (filter_cons_True P) by done.
    rewrite (filter_cons_True Q) by auto. simpl. lia.
  - rewrite (filter_cons_False P) by done.
    destruct (decide (Q x)).
    + rewrite (filter_cons_True Q) by done. simpl. lia.
    + by rewrite (filter_cons_False Q) by done.
Qed.

Lemma inWindow_app w t l1 l2 :
  inWindow w t (l1 ++ l2) = (inWindow w t l1 + inWindow w t l2)%nat.
Proof. unfold inWindow. by rewrite filter_app, length_app. Qed.

(** A request let through at [now]: the stored array and the list of
    the arrivals let through so far stay the same within every window
    that ends at [now] or later, and no window holds more than the
    quota. *)
Lemma window_push w (quota : Z) now stored acc :
  (∀ now', now <= now' → prune now' w stored = prune now' w acc) →
  (∀ t, Z.of_nat (inWindow w t acc) <= quota) →
  Z.of_nat (length (prune now w stored)) < quota →
  (∀ now', now <= now' →
     prune now' w (prune now w stored ++ [now]) = prune now' w (acc ++ [now])) ∧
  (∀ t, Z.of_nat (inWindow w t (acc ++ [now])) <= quota).
Proof.
  intros Hsame Hacc Hlen. split.
  - intros now' Hle. rewrite !prune_app, prune_prune by done. by rewrite Hsame.
  - intros t. destruct (decide (t < now)) as [Hlt|Hge].
    + rewrite inWindow_app. unfold inWindow at 2.
      rewrite filter_cons_False by lia. rewrite filter_nil. simpl.
      specialize (Hacc t). lia.
    + unfold inWindow.
      pose proof (length_filter_impl (λ u, t - w < u ∧ u <= t) (λ u, now - u < w)
                    (acc ++ [now]) ltac:(intros u; simpl; lia)) as Hle.
      change (filter (λ u, now - u < w) (acc ++ [now]))
        with (prune now w (acc ++ [now])) in Hle.
      rewrite prune_app, <- Hsame, length_app in Hle by lia.
      pose proof (prune_length now w [now]) as H1. simpl in H1. lia.
Qed.

Lemma window_stay w now stored acc :
  (∀ now', now <= now' → prune now' w stored = prune now' w acc) →
  (∀ now', now <= now' → prune now' w (prune now w stored) = prune now' w acc).
Proof. intros Hsame now' Hle. rewrite prune_prune by done. by apply Hsame. Qed.

(** The handler calls [next()] only below both quotas. *)
Lemma middleware_allowed clientId now this :
  let r := recordOf clientId this in
  let bursts := prune now (burstWindowMs (config this)) (burstRequests r) in
  let reqs := prune now (windowMs (config this)) (requests r) in
  Is_true (allowed (middleware clientId now this).1) ↔
  Z.of_nat (length bursts) < burstLimit (config this) ∧
  Z.of_nat (length reqs) < maxRequests (config this).
Proof.
  intros r bursts reqs. unfold middleware.
  fold (recordOf clientId this). fold r. fold bursts. fold reqs.
  repeat case_bool_decide; cbn; (split; [intros ?|intros [? ?]]); try done; lia.
Qed.

Lemma letThrough_cons q r reqs rs :
  letThrough (q :: reqs) (r :: rs) =
    (if allowed r then [q] else []) ++ letThrough reqs rs.
Proof.
  unfold letThrough. cbn [zip zip_with].
  destruct (allowed r) eqn:E.
  - rewrite filter_cons_True by (cbn [snd]; by rewrite E). done.
  - rewrite filter_cons_False by (cbn [snd]; rewrite E; exact id). done.
Qed.

Lemma arrivals_other clientId clientId' now :
  clientId' ≠ clientId → arrivals clientId [(clientId', now)] = [].
Proof. intros. by rewrite arrivals_cons_ne. Qed.

Lemma quota_run cfg reqs : ∀ s acc last,
  config s = cfg →
  StronglySorted Z.le reqs.*2 →
  Forall (λ q, last <= q.2) reqs →
  (∀ c now', last <= now' →
     prune now' (windowMs cfg) (requests (recordOf c s)) =
       prune now' (windowMs cfg) (arrivals c acc) ∧
     prune now' (burstWindowMs cfg) (burstRequests (recordOf c s)) =
       prune now' (burstWindowMs cfg) (arrivals c acc)) →
  (∀ c t,
     Z.of_nat (inWindow (windowMs cfg) t (arrivals c acc)) <= Z.max 0 (maxRequests cfg) ∧
     Z.of_nat (inWindow (burstWindowMs cfg) t (arrivals c acc)) <= Z.max 0 (burstLimit cfg)) →
  ∀ c t,
    let through := arrivals c (acc ++ letThrough reqs (serveAll reqs s).1) in
    Z.of_nat (inWindow (windowMs cfg) t through) <= Z.max 0 (maxRequests cfg) ∧
    Z.of_nat (inWindow (burstWindowMs cfg) t through) <= Z.max 0 (burstLimit cfg).
Proof.
  induction reqs as [|[c0 now] rest IH]; intros s acc last Hcfg Hsort Hlast Hsame Hacc c t.
  { cbn. rewrite app_nil_r. apply Hacc. }
  rewrite serveAll_cons. cbn [fst]. rewrite letThrough_cons, app_assoc.
  rewrite fmap_cons in Hsort. apply StronglySorted_cons in Hsort as [Hfirst Hsort].
  apply Forall_cons in Hlast as [Hle Hlast]. cbn [snd] in Hle, Hfirst.
  pose proof (middleware_record c0 now s) as Hrec. cbv zeta in Hrec.
  pose proof (middleware_allowed c0 now s) as Hall. cbv zeta in Hall.
  pose proof (middleware_other c0) as Hother. specialize (λ c', Hother c' now s).
  destruct (middleware c0 now s) as [resp s1]. cbn [fst snd] in *.
  destruct Hrec as [Hcfg1 Hrec]. rewrite Hcfg in *.
  apply (IH s1 _ now); clear IH; [congruence|done| | |].
  - apply Forall_forall. intros q Hq.
    eapply Forall_forall in Hfirst; [exact Hfirst|].
    by apply list_elem_of_fmap_2.
  - intros c' now' Hnow'. rewrite arrivals_app.
    destruct (decide (c0 = c')) as [<-|Hne].
    + destruct resp; cbn [allowed] in *.
      * destruct Hall as [[Hb Hr] _]; [done|].
        rewrite Hrec. cbn [requests burstRequests]. rewrite arrivals_cons_eq.
        change (arrivals c0 []) with (@nil Z).
        split.
        -- eapply (window_push _ (Z.max 0 (maxRequests cfg)));
             [intros; apply Hsame; lia|intros; apply Hacc|lia|done].
        -- eapply (window_push _ (Z.max 0 (burstLimit cfg)));
             [intros; apply Hsame; lia|intros; apply Hacc|lia|done].
      * rewrite Hrec. cbn [requests burstRequests].
        change (arrivals c0 []) with (@nil Z). rewrite app_nil_r.
        split; apply window_stay; try done; intros; apply Hsame; lia.
    + rewrite Hother by done.
      replace (arrivals c' (if allowed resp then [(c0, now)] else [])) with (@nil Z).
      * rewrite app_nil_r. apply Hsame. lia.
      * destruct (allowed resp); [|done]. by rewrite arrivals_other.
  - intros c' t'. rewrite arrivals_app.
    destruct (decide (c0 = c')) as [<-|Hne].
    + destruct resp; cbn [allowed] in *.
      * destruct Hall as [[Hb Hr] _]; [done|].
        rewrite arrivals_cons_eq. change (arrivals c0 []) with (@nil Z).
        split.
        -- eapply (window_push _ (Z.max 0 (maxRequests cfg)));
             [intros; apply Hsame; lia|intros; apply Hacc|lia].
        -- eapply (window_push _ (Z.max 0 (burstLimit cfg)));
             [intros; apply Hsame; lia|intros; apply Hacc|lia].
      * change (arrivals c0 []) with (@nil Z). rewrite app_nil_r. apply Hacc.
    + replace (arrivals c' (if allowed resp then [(c0, now)] else [])) with (@nil Z).
      * rewrite app_nil_r. apply Hacc.
      * destruct (allowed resp); [|done]. by rewrite arrivals_other.
Qed.

(** X4.  The quotas hold in every window: when the clock never runs
    backwards, among the requests of one client that a new limiter has
    let through there are, in any time interval of the length of the
    sustained window, at most [maxRequests], and in any interval of the
    length of the burst window at most [burstRequests], whatever the
    other clients send in between. *)
Theorem quota_in_every_window cfg reqs clientId t :
  StronglySorted Z.le reqs.*2 →
  let through := arrivals clientId (letThrough reqs (serveAll reqs (new cfg)).1) in
  Z.of_nat (inWindow (windowMs cfg) t through) <= Z.max 0 (maxRequests cfg) ∧
  Z.of_nat (inWindow (burstWindowMs cfg) t through) <= Z.max 0 (burstLimit cfg).
Proof.
  intros Hsort.
  destruct reqs as [|[c0 t0] rest] eqn:E; [cbn; lia|]. rewrite <- E in *.
  apply (quota_run cfg reqs (new cfg) [] t0); [done|done| | |].
  - subst reqs. rewrite fmap_cons in Hsort.
    apply StronglySorted_cons in Hsort as [Hfirst _]. constructor; [simpl; lia|].
    apply Forall_forall. intros q Hq.
    eapply Forall_forall in Hfirst; [exact Hfirst|]. by apply list_elem_of_fmap_2.
  - intros c now' _. done.
  - intros c t'. cbn. lia.
Qed.

Lemma quota_in_every_window_witness :
  let reqs := [("::1", 0); ("::1", 100); ("::2", 150); ("::1", 200); ("::1", 300);
               ("::1", 400); ("::1", 500); ("::1", 10050)] in
  let through :=
    arrivals "::1" (letThrough reqs (serveAll reqs (new (config rateLimiter))).1) in
  Z.of_nat (inWindow (windowMs (config rateLimiter)) 10050 through)
    <= Z.max 0 (maxRequests (config rateLimiter)) ∧
  Z.of_nat (inWindow (burstWindowMs (config rateLimiter)) 10050 through)
    <= Z.max 0 (burstLimit (config rateLimiter)).
Proof.
  intros reqs.
  apply (quota_in_every_window (config rateLimiter) reqs "::1" 10050).
  unfold reqs. cbn [fmap list_fmap snd]. repeat constructor; lia.
Defined.

End RateLimiterQuota.

Section RateLimiterRetry.
Import RateLimiter.

Lemma ceil_div_mono x y : x <= y → ceil_div x 1000 <= ceil_div y 1000.
Proof.
  intros Hle. pose proof (ceil_div_spec x). pose proof (ceil_div_spec y). lia.
Qed.

Lemma ceil_div_pos x : 1 <= x → 1 <= ceil_div x 1000.
Proof. intros Hle. pose proof (ceil_div_spec x). lia. Qed.

(** What a 429 response tells about the pruned arrays. *)
Lemma middleware_denied clientId now this limit ra :
  let cfg := config this in
  let r := recordOf clientId this in
  let bursts := prune now (burstWindowMs cfg) (burstRequests r) in
  let reqs := prune now (windowMs cfg) (requests r) in
  (middleware clientId now this).1 = TooManyRequests limit ra →
  recordOf clientId (middleware clientId now this).2 = mkRecord reqs bursts ∧
  match limit with
  | Burst =>
      burstLimit cfg <= Z.of_nat (length bursts) ∧
      ra = retryAfterOf bursts (burstWindowMs cfg) now
  | Rate =>
      Z.of_nat (length bursts) < burstLimit cfg ∧
      maxRequests cfg <= Z.of_nat (length reqs) ∧
      ra = retryAfterOf reqs (windowMs cfg) now
  end.
Proof.
  intros cfg r bursts reqs. unfold middleware.
  fold (recordOf clientId this). fold cfg. fold r. fold bursts. fold reqs.
  repeat case_bool_decide; cbn [fst snd]; intros [= <- <-] || intros [=];
    rewrite recordOf_insert; split; try done.
  split; [lia|done].
Qed.

Lemma retryAfterOf_Some ts w now r :
  retryAfterOf ts w now = Some r →
  ∃ t0 rest, ts = t0 :: rest ∧ r = ceil_div (t0 + w - now) 1000.
Proof. destruct ts as [|t0 rest]; [done|]. intros [= <-]. by exists t0, rest. Qed.

(** X5.  With positive quotas a 429 response always carries a number
    as [retryAfter] (never [NaN]), of at least one second; when the
    timestamps of the client are not in the future it is at most the
    length of the window that was exceeded, in seconds, rounded up. *)
Theorem retryAfter_bounds clientId now this limit ra :
  let cfg := config this in
  let window := match limit with Burst => burstWindowMs cfg | Rate => windowMs cfg end in
  0 < burstLimit cfg → 0 < maxRequests cfg →
  (middleware clientId now this).1 = TooManyRequests limit ra →
  ∃ r, ra = Some r ∧ 1 <= r ∧
       (recordOrdered now (recordOf clientId this) → r <= ceil_div window 1000).
Proof.
  intros cfg window Hb Hm Hresp.
  destruct (middleware_denied clientId now this limit ra Hresp) as [_ Hd].
  fold cfg in Hd.
  assert (Hmain : ∀ w ts (quota : Z), 0 < quota →
            quota <= Z.of_nat (length (prune now w ts)) →
            ∃ r, retryAfterOf (prune now w ts) w now = Some r ∧ 1 <= r ∧
                 (ordered now ts → r <= ceil_div w 1000)).
  { intros w ts quota Hq Hlen.
    destruct (prune now w ts) as [|t0 rest] eqn:E; [simpl in Hlen; lia|].
    assert (Ht0 : t0 ∈ prune now w ts) by (rewrite E; left).
    apply prune_keeps in Ht0 as [Hin Hw].
    eexists. split; [done|]. split.
    - apply ceil_div_pos. lia.
    - intros [_ Hbound]. apply ceil_div_mono.
      eapply Forall_forall in Hbound; [|done]. simpl in Hbound. lia. }
  destruct limit.
  - destruct Hd as [Hlen ->].
    destruct (Hmain _ _ _ Hb Hlen) as (r & Hr & H1 & Hup).
    exists r. split_and!; [done|done|]. intros [_ Ho]. by apply Hup.
  - destruct Hd as (_ & Hlen & ->).
    destruct (Hmain _ _ _ Hm Hlen) as (r & Hr & H1 & Hup).
    exists r. split_and!; [done|done|]. intros [Ho _]. by apply Hup.
Qed.

Lemma middleware_withinQuota clientId now this :
  withinQuota (config this) (recordOf clientId this) →
  withinQuota (config this) (recordOf clientId (middleware clientId now this).2).
Proof.
  intros [Hr Hb].
  pose proof (middleware_record clientId now this) as Hrec. cbv zeta in Hrec.
  pose proof (middleware_allowed clientId now this) as Hall. cbv zeta in Hall.
  pose proof (prune_length now (windowMs (config this))
                (requests (recordOf clientId this))).
  pose proof (prune_length now (burstWindowMs (config this))
                (burstRequests (recordOf clientId this))).
  destruct (middleware clientId now this) as [resp s1]. cbn [fst snd] in *.
  destruct Hrec as [_ Hrec]. unfold withinQuota.
  destruct resp; rewrite Hrec; cbn [requests burstRequests allowed] in *.
  - destruct Hall as [[? ?] _]; [done|]. rewrite !length_app. cbn [length]. lia.
  - lia.
Qed.

(** In every state reached from a new limiter no array is longer than
    its quota. *)
Lemma serveAll_withinQuota reqs this :
  (∀ c, withinQuota (config this) (recordOf c this)) →
  ∀ c, withinQuota (config this) (recordOf c (serveAll reqs this).2).
Proof.
  revert this. induction reqs as [|[c0 now] rest IH]; intros this Hq c; [done|].
  rewrite serveAll_cons. cbn [snd].
  rewrite <- (middleware_config c0 now this). apply IH. intros c'.
  rewrite middleware_config. destruct (decide (c0 = c')) as [<-|Hne].
  - by apply middleware_withinQuota.
  - by rewrite middleware_other.
Qed.

Lemma withinQuota_new cfg c : withinQuota cfg (recordOf c (new cfg)).
Proof.
  unfold withinQuota, recordOf. cbn [new clients]. rewrite lookup_empty.
  cbn [requests burstRequests length]. lia.
Qed.

(** An array that was full and has lost its first timestamp is below
    the quota. *)
Lemma prune_drops_first now now' w t0 rest (quota : Z) r :
  r = ceil_div (t0 + w - now) 1000 →
  now + 1000 * r <= now' →
  Z.of_nat (length (t0 :: rest)) <= quota →
  Z.of_nat (length (prune now' w (t0 :: rest))) < quota.
Proof.
  intros -> Hnow' Hlen. pose proof (ceil_div_spec (t0 + w - now)).
  unfold prune. rewrite filter_cons_False by lia.
  pose proof (length_filter (λ t, now' - t < w) rest). cbn [length] in Hlen. lia.
Qed.

(** X6.  [retryAfter] can be relied on: if a client of a limiter
    that started empty is refused with [retryAfter = r] and sends its next
    request [r] seconds later or more, whatever other clients send in
    between, then that request is not refused for the same quota again: after
    a refusal for the sustained quota it is let through, and after a refusal
    for the burst quota it is let through or refused for the sustained
    quota. *)
Theorem retry_after_honoured cfg reqs others clientId now limit r now' :
  let s := (serveAll reqs (new cfg)).2 in
  let s1 := (middleware clientId now s).2 in
  (middleware clientId now s).1 = TooManyRequests limit (Some r) →
  clientId ∉ others.*1 →
  now + 1000 * r <= now' →
  match (middleware clientId now' (serveAll others s1).2).1 with
  | Next => True
  | TooManyRequests limit' _ => limit = Burst ∧ limit' = Rate
  end.
Proof.
  intros s s1 Hresp Hothers Hnow'.
  assert (Hq : withinQuota cfg (recordOf clientId s1)).
  { pose proof (serveAll_withinQuota reqs (new cfg) (withinQuota_new cfg) clientId) as Hq.
    cbn [config new] in Hq. fold s in Hq.
    replace cfg with (config s) in Hq |- * by apply serveAll_config.
    by apply middleware_withinQuota. }
  assert (Hcfg : config (serveAll others s1).2 = cfg).
  { unfold s1, s. by rewrite serveAll_config, middleware_config, serveAll_config. }
  assert (Hcfg0 : config s = cfg) by apply serveAll_config.
  destruct (middleware_denied clientId now s limit (Some r) Hresp) as [Hrec Hd].
  fold s1 in Hrec. rewrite Hcfg0 in Hrec, Hd.
  set (bursts := prune now (burstWindowMs cfg) (burstRequests (recordOf clientId s))) in *.
  set (reqs0 := prune now (windowMs cfg) (requests (recordOf clientId s))) in *.
  destruct Hq as [Hqr Hqb]. rewrite Hrec in Hqr, Hqb. cbn [requests burstRequests] in *.
  pose proof (middleware_denied clientId now' (serveAll others s1).2) as Hd'.
  cbv zeta in Hd'. rewrite Hcfg, (serveAll_other clientId others s1 Hothers), Hrec in Hd'.
  cbn [requests burstRequests] in Hd'.
  destruct (middleware clientId now' (serveAll others s1).2) as [[|limit' ra'] s2];
    cbn [fst]; [done|].
  destruct (Hd' limit' ra' eq_refl) as [_ Hd2]. clear Hd'.
  destruct limit.
  - destruct Hd as [Hlen Hra]. symmetry in Hra.
    apply retryAfterOf_Some in Hra as (t0 & rest & Hb & Hr).
    split; [done|]. destruct limit'; [|done]. exfalso.
    destruct Hd2 as [Hlen2 _]. rewrite Hb in *.
    pose proof (prune_drops_first now now' (burstWindowMs cfg) t0 rest
                  (Z.max 0 (burstLimit cfg)) r Hr Hnow' Hqb).
    cbn [length] in *. lia.
  - destruct Hd as (Hlenb & Hlen & Hra). symmetry in Hra.
    apply retryAfterOf_Some in Hra as (t0 & rest & Hb & Hr).
    exfalso. rewrite Hb in *.
    pose proof (prune_drops_first now now' (windowMs cfg) t0 rest
                  (Z.max 0 (maxRequests cfg)) r Hr Hnow' Hqr).
    pose proof (prune_length now' (burstWindowMs cfg) bursts).
    cbn [length] in *.
    destruct limit'; [destruct Hd2 as [Hlen2 _]|destruct Hd2 as (_ & Hlen2 & _)]; lia.
Qed.

Lemma retryAfter_bounds_witness :
  let busy :=
    {| clients :=
         {[ "::1" := mkRecord [0; 1000; 2000; 3000; 4000; 5000; 6000; 7000; 8000; 9000]
                       [5000; 6000; 7000; 8000; 9000] ]};
       config := config rateLimiter |} in
  ∃ r, Some 6 = Some r ∧ 1 <= r ∧
       (recordOrdered 9500 (recordOf "::1" busy) →
        r <= ceil_div (burstWindowMs (config busy)) 1000).
Proof.
  intros busy.
  apply (retryAfter_bounds "::1" 9500 busy Burst (Some 6));
    [reflexivity | reflexivity | vm_compute; reflexivity].
Defined.

Lemma retry_after_honoured_witness :
  let reqs := [("::1", 0); ("::1", 1000); ("::1", 2000); ("::1", 3000); ("::1", 4000)] in
  let s := (serveAll reqs (new (config rateLimiter))).2 in
  let s1 := (middleware "::1" 5000 s).2 in
  match (middleware "::1" 10000 (serveAll [("::2", 7000)] s1).2).1 with
  | Next => True
  | TooManyRequests limit' _ => Burst = Burst ∧ limit' = Rate
  end.
Proof.
  intros reqs.
  apply (retry_after_honoured (config rateLimiter) reqs [("::2", 7000)]
           "::1" 5000 Burst 5 10000);
    [vm_compute; reflexivity | | lia].
  apply (bool_decide_unpack _). vm_compute. exact I.
Defined.

(** X7.  The identity of a client is never the empty string: it is
    [req.ip] if that is a non-empty string, else the remote address of
    the socket if that is one, and all requests that have neither are
    counted as the one client 'unknown'. *)
Theorem anonymous_clients_share_identity req :
  getClientId req ≠ "" ∧
  (∀ a, ip req = Some a → a ≠ "" → getClientId req = a) ∧
  (∀ a, (ip req = None ∨ ip req = Some "") → remoteAddress req = Some a → a ≠ "" →
        getClientId req = a) ∧
  ((ip req = None ∨ ip req = Some "") →
   (remoteAddress req = None ∨ remoteAddress req = Some "") →
   getClientId req = "unknown").
Proof.
  destruct req as [i a]. unfold getClientId, orElse. cbn [ip remoteAddress].
  split_and!.
  - destruct i as [i|]; destruct a as [a|]; repeat case_bool_decide; done.
  - intros s -> Hs. repeat case_bool_decide; done.
  - intros s Hi -> Hs. destruct Hi as [->| ->]; cbn [bool_decide];
      repeat case_bool_decide; done.
  - intros [->| ->] [->| ->]; repeat case_bool_decide; done.
Qed.

End RateLimiterRetry.

(** ** responseTracker.ts *)

Section TrackerWindow.
Import ResponseTimeTracker.

(** The last [n] elements of a list. *)
Lemma drop_last_app {A} (n : nat) (l l2 : list A) :
  drop (length (drop (length l - n) l ++ l2) - n) (drop (length l - n) l ++ l2) =
  drop (length (l ++ l2) - n) (l ++ l2).
Proof.
  destruct (decide (length l <= n)%nat) as [Hle|Hgt].
  - replace (length l - n)%nat with 0%nat by lia. done.
  - rewrite !length_app, length_drop.
    replace (length l - (length l - n) + length l2 - n)%nat with (length l2) by lia.
    replace (length l + length l2 - n)%nat with ((length l - n) + length l2)%nat by lia.
    rewrite <- drop_drop. rewrite (drop_app_le l) by lia. done.
Qed.

Lemma track_maxSamples x this : maxSamples (track x this) = maxSamples this.
Proof. unfold track. by case_bool_decide. Qed.

Lemma track_window x this :
  (length (responseTimes this) <= Z.to_nat (maxSamples this))%nat →
  responseTimes (track x this) =
    drop (length (responseTimes this ++ [x]) - Z.to_nat (maxSamples this))
      (responseTimes this ++ [x]) ∧
  (length (responseTimes (track x this)) <= Z.to_nat (maxSamples this))%nat.
Proof.
  intros Hlen. unfold track. rewrite length_app. cbn [length].
  case_bool_decide as Hd; cbn [responseTimes].
  - assert (length (responseTimes this) = Z.to_nat (maxSamples this)) as Heq by lia.
    rewrite length_drop, length_app. cbn [length].
    replace (length (responseTimes this) + 1 - Z.to_nat (maxSamples this))%nat
      with 1%nat by lia.
    split; [done|lia].
  - replace (length (responseTimes this) + 1 - Z.to_nat (maxSamples this))%nat
      with 0%nat by lia.
    rewrite length_app. cbn [length]. split; [done|lia].
Qed.

Lemma trackAll_window samples : ∀ this,
  (length (responseTimes this) <= Z.to_nat (maxSamples this))%nat →
  responseTimes (trackAll samples this) =
    drop (length (responseTimes this ++ samples) - Z.to_nat (maxSamples this))
      (responseTimes this ++ samples) ∧
  maxSamples (trackAll samples this) = maxSamples this.
Proof.
  induction samples as [|x rest IH]; intros this Hlen.
  - cbn [trackAll foldl]. rewrite app_nil_r.
    replace (length (responseTimes this) - Z.to_nat (maxSamples this))%nat
      with 0%nat by lia. done.
  - change (trackAll (x :: rest) this) with (trackAll rest (track x this)).
    destruct (track_window x this Hlen) as [Hw Hlen'].
    rewrite <- (track_maxSamples x this) in Hlen'.
    destruct (IH _ Hlen') as [-> ->]. rewrite !track_maxSamples. split; [|done].
    rewrite Hw.
    rewrite (drop_last_app (Z.to_nat (maxSamples this)) (responseTimes this ++ [x]) rest).
    by rewrite <- !app_assoc.
Qed.

(** X8.  The tracker keeps a sliding window: after any number of calls
    of [track] on a new tracker, [responseTimes] holds the last
    [maxSamples] samples, oldest first, or all of them if there are
    fewer; so it never holds more than [maxSamples] samples, and none at
    all when [maxSamples] is zero or negative. *)
Theorem track_keeps_last_samples m samples :
  let this := trackAll samples (new m) in
  responseTimes this = drop (length samples - Z.to_nat m) samples ∧
  (length (responseTimes this) <= Z.to_nat m)%nat ∧
  maxSamples this = m.
Proof.
  intros this.
  destruct (trackAll_window samples (new m)) as [Hw Hm]; [cbn; lia|].
  fold this in Hw, Hm. cbn [new responseTimes maxSamples app] in Hw, Hm.
  split_and!; [done| |done]. rewrite Hw, length_drop. lia.
Qed.

End TrackerWindow.

Section TrackerAverage.
Import ResponseTimeTracker.

Lemma foldl_add_acc (a : Z) (l : list Z) : foldl Z.add a l = a + foldl Z.add 0 l.
Proof.
  revert a. induction l as [|x l IH]; intros a; cbn [foldl]; [lia|].
  rewrite (IH (a + x)), (IH (0 + x)). lia.
Qed.

Lemma sum_cons x l : sum (x :: l) = x + sum l.
Proof. unfold sum. cbn [foldl]. rewrite foldl_add_acc. lia. Qed.

Lemma sum_bounds lo hi l :
  Forall (λ x, lo <= x <= hi) l →
  lo * Z.of_nat (length l) <= sum l <= hi * Z.of_nat (length l).
Proof.
  induction 1 as [|x l Hx Hl IH]; [cbn; lia|].
  rewrite sum_cons. cbn [length]. lia.
Qed.

Lemma getAverage_bounds this lo hi :
  responseTimes this ≠ [] →
  Forall (λ x, lo <= x <= hi) (responseTimes this) →
  (Qc_of_Z lo <= getAverage this)%Qc ∧ (getAverage this <= Qc_of_Z hi)%Qc.
Proof.
  intros Hne Hall. unfold getAverage.
  destruct (responseTimes this) as [|x l] eqn:E; [done|].
  rewrite bool_decide_eq_false_2 by done.
  pose proof (sum_bounds lo hi _ Hall) as [Hlo Hhi].
  set (n := Z.of_nat (length (x :: l))) in *.
  assert (Hn : 0 < n) by (subst n; cbn [length]; lia).
  assert (Hpos : (0 < Qc_of_Z n)%Qc).
  { rewrite <- Z2Qc_inj_0. by apply Z2Qc_inj_lt. }
  assert (Hnz : Qc_of_Z n ≠ 0%Qc).
  { rewrite <- Z2Qc_inj_0. intros Heq%Z2Qc_inj. lia. }
  assert (Hmul : (Qc_of_Z (sum (x :: l)) / Qc_of_Z n * Qc_of_Z n)%Qc
                 = Qc_of_Z (sum (x :: l))).
  { rewrite Qcmult_comm. by apply Qcmult_div_r. }
  split; apply (Qcmult_lt_0_le_reg_r _ _ (Qc_of_Z n) Hpos); rewrite Hmul;
    rewrite <- Z2Qc_inj_mul; apply (proj1 (Z2Qc_inj_le _ _)); done.
Qed.

(** X9.  The average reported lies between the smallest and the
    largest sample: if every tracked sample is between [lo] and [hi], so
    is [getAverage()] of a tracker with room for at least one sample. *)
Theorem average_within_samples m samples lo hi :
  1 <= m → samples ≠ [] →
  Forall (λ x, lo <= x <= hi) samples →
  let this := trackAll samples (new m) in
  (Qc_of_Z lo <= getAverage this)%Qc ∧ (getAverage this <= Qc_of_Z hi)%Qc.
Proof.
  intros Hm Hne Hall this.
  destruct (trackAll_window samples (new m)) as [Hw _]; [cbn; lia|].
  fold this in Hw. cbn [new responseTimes maxSamples app] in Hw.
  apply getAverage_bounds.
  - rewrite Hw. intros Hnil. apply (f_equal length) in Hnil.
    rewrite length_drop in Hnil. cbn [length] in Hnil.
    destruct samples; [done|]. cbn [length] in Hnil. lia.
  - rewrite Hw. by apply Forall_drop.
Qed.

Lemma average_within_samples_witness :
  let this := trackAll [3; 205; 4; 211] (new 3) in
  (Qc_of_Z 3 <= getAverage this)%Qc ∧ (getAverage this <= Qc_of_Z 211)%Qc.
Proof.
  apply (average_within_samples 3 [3; 205; 4; 211] 3 211);
    [lia | done | repeat constructor; lia].
Defined.

(** X10.  With no sample to average [getAverage()] is 0, not the
    [NaN] of 0 / 0: on a new tracker, after [reset()], which drops the
    samples and keeps [maxSamples], and after any calls of [track] when
    [maxSamples] is zero or negative. *)
Theorem average_of_nothing m samples this :
  getAverage (new m) = 0%Qc ∧
  getAverage (reset this) = 0%Qc ∧
  responseTimes (reset this) = [] ∧
  maxSamples (reset this) = maxSamples this ∧
  (m <= 0 → getAverage (trackAll samples (new m)) = 0%Qc).
Proof.
  split_and!; try done.
  intros Hm. destruct (trackAll_window samples (new m)) as [Hw _]; [cbn; lia|].
  unfold getAverage. rewrite Hw. cbn [new responseTimes maxSamples app].
  rewrite bool_decide_eq_true_2; [done|].
  rewrite length_drop. replace (Z.to_nat m) with 0%nat by lia. lia.
Qed.

End TrackerAverage.

(** ** LRUCache.ts: round trips, [has], [clear], the sweep, the counters *)

Section StoreRoundTrip.
Import LRUCache.
Context {T : Type}.
Implicit Types (c : LRUCache T) (h : gmap nat (CacheNode T)) (l : list nat).
Implicit Types (n : CacheNode T) (e : entry (T:=T)) (es : list (entry (T:=T))).

Lemma removelast_cons_cons {A} (x y : A) (xs : list A) :
  removelast (x :: y :: xs) = x :: removelast (y :: xs).
Proof. done. Qed.

(** After [set(k, v)] on a store with room for one entry the list
    starts with the entry set. *)
Lemma entriesAfter_set_first cap life es k v now :
  1 <= cap →
  ∃ rest, entriesAfter cap life es (CallSet k v now) = (k, v, now) :: rest.
Proof.
  intros Hcap. cbn [entriesAfter].
  destruct (entryOf k es); [by eexists|].
  case_bool_decide as Hfull; [|by eexists].
  destruct es as [|e0 es]; [cbn [length] in Hfull; lia|].
  rewrite removelast_cons_cons. by eexists.
Qed.

(** [get] and [has] after [set], on a store that holds [es]. *)
Lemma set_get_holds c l es k v now now' :
  holds c l es → 1 <= capacity c →
  (get k now' (set k v now c)).1 =
    (if bool_decide (now' - now > ttl c) then None else Some v) ∧
  (has k now' (set k v now c)).1 = negb (bool_decide (now' - now > ttl c)).
Proof.
  intros Hl Hcap.
  destruct (set_refines _ _ _ k v now Hl) as ([l' Hl'] & _ & _ & Ht').
  destruct (entriesAfter_set_first (capacity c) (ttl c) es k v now Hcap)
    as [rest Hrest].
  rewrite Hrest in Hl'.
  destruct (get_refines _ l' _ k now' Hl') as [_ ->].
  destruct (has_refines _ l' _ k now' Hl') as [_ ->].
  assert (He : entryOf k ((k, v, now) :: rest) = Some (k, v, now))
    by (by apply entryOf_cons_eq).
  unfold getResult, hasResult. rewrite He. by rewrite Ht'.
Qed.

(** X11.  What [set] stores [get] returns: in every state the store can
    reach, if the capacity is at least 1, a [get] for a key just set
    returns the value set as long as no more than [ttl] milliseconds have
    passed since the [set], and [null] after that; [has] answers
    accordingly. *)
Theorem set_then_get cap life (calls : list (Call T)) k v now now' :
  1 <= cap →
  let c := set k v now (run calls (new cap life)) in
  (get k now' c).1 = (if bool_decide (now' - now > life) then None else Some v) ∧
  (has k now' c).1 = negb (bool_decide (now' - now > life)).
Proof.
  intros Hcap c.
  destruct (reachable_holds cap life calls) as ([l Hl] & _ & Hc & Ht).
  rewrite <- Hc in Hcap.
  destruct (set_get_holds _ l _ k v now now' Hl Hcap) as [Hget Hhas].
  rewrite Ht in Hget, Hhas. by split.
Qed.

Lemma modelRun_no_capacity cap life (calls : list (Call T)) s :
  cap <= 0 →
  (modelRun cap life calls ([], s)).1 = [] ∧
  evictions (modelRun cap life calls ([], s)).2 = evictions s + count isSet calls.
Proof.
  intros Hcap. induction calls as [|call calls IH] using rev_ind.
  - cbn. split; [done|]. unfold count. cbn. lia.
  - rewrite modelRun_snoc. destruct IH as [IH1 IH2].
    unfold modelStep. cbn [fst snd]. rewrite IH1.
    unfold count in *. rewrite filter_app, length_app.
    destruct call; cbn [entriesAfter statsAfter entryOf list_find fmap option_fmap
                        option_map isSet];
      rewrite ?filter_cons_True, ?filter_cons_False, ?filter_nil by (cbn; tauto);
      cbn [length evictions miss hit]; try (split; [done|lia]).
    rewrite bool_decide_eq_true_2 by lia.
    cbn [removelast evictions evicted shrink grow]. split; [done|lia].
Qed.

(** X12.  A store of capacity zero (or less) never holds anything:
    every [set] evicts the entry it has just added and counts an
    eviction, so every [get] and [has] misses and the index stays
    empty. *)
Theorem store_without_capacity cap life (calls : list (Call T)) k now :
  cap <= 0 →
  let c := run calls (new cap life) in
  (get k now c).1 = None ∧ (has k now c).1 = false ∧
  cache c = ∅ ∧ size (getStats c) = 0 ∧
  evictions (getStats c) = count isSet calls.
Proof.
  intros Hcap c. unfold getStats.
  destruct (reachable_holds cap life calls) as ([l Hl] & Hst & _ & _).
  fold c in Hl, Hst.
  destruct (modelRun_no_capacity cap life calls (stats (new (T:=T) cap life)) Hcap)
    as [Hes Hev].
  rewrite Hes in Hl. rewrite <- Hst in Hev.
  destruct (get_refines c l _ k now Hl) as [_ ->].
  destruct (has_refines c l _ k now Hl) as [_ ->].
  destruct Hl as [[_ _ Hsz Hcount _] Hall].
  apply Forall2_length in Hall. cbn [length] in Hall. rewrite Hall in *.
  split_and!; try done; try (by apply map_size_empty_inv).
  all: rewrite Hev; cbn [new stats evictions]; lia.
Qed.

End StoreRoundTrip.

Section StoreQueries.
Import LRUCache.
Context {T : Type}.
Implicit Types (c : LRUCache T) (h : gmap nat (CacheNode T)) (l : list nat).
Implicit Types (n : CacheNode T) (e : entry (T:=T)) (es : list (entry (T:=T))).

(** X13.  [has] answers as [get] would: in every state the store can
    reach, [has(k)] is true exactly when [get(k)] at the same time would
    return a value.  Unlike [get] it counts neither a hit nor a miss, and
    when it answers true it leaves the store as it is: the entry is not
    promoted. *)
Theorem has_agrees_with_get cap life (calls : list (Call T)) k now :
  let c := run calls (new cap life) in
  ((has k now c).1 = true ↔ is_Some (get k now c).1) ∧
  hits (getStats (has k now c).2) = hits (getStats c) ∧
  misses (getStats (has k now c).2) = misses (getStats c) ∧
  evictions (getStats (has k now c).2) = evictions (getStats c) ∧
  ((has k now c).1 = true → (has k now c).2 = c).
Proof.
  intros c. unfold getStats.
  destruct (reachable_holds cap life calls) as ([l Hl] & _). fold c in Hl.
  destruct (has_refines c l _ k now Hl) as [(_ & Hst & _) Hres].
  destruct (get_refines c l _ k now Hl) as [_ Hget].
  assert (Hsame : (has k now c).1 = true → (has k now c).2 = c).
  { clear. unfold has. destruct (lookup k c) as [[a n]|]; [|done].
    by destruct (isExpired now c n). }
  revert Hsame. generalize ((has k now c).2 = c). intros Q Hsame.
  rewrite Hres, Hget, Hst in *. unfold hasResult, getResult in *. cbn [statsAfter].
  split; [|split; [|split; [|split]]].
  - destruct (entryOf k _) as [e|]; [case_bool_decide|]; cbn.
    + split; [done|]. intros [x Hx]. done.
    + split; [by eexists|done].
    + split; [done|]. intros [x Hx]. done.
  - destruct (entryOf k _) as [e|]; [|done]. by case_bool_decide.
  - destruct (entryOf k _) as [e|]; [|done]. by case_bool_decide.
  - destruct (entryOf k _) as [e|]; [|done]. by case_bool_decide.
  - exact Hsame.
Qed.

(** X14.  [clear()] and [destroy()] forget every entry and keep the
    statistics: afterwards every [get] and [has] misses and [size] is 0,
    while [hits], [misses] and [evictions] are what they were; the store
    is an empty store that can be used again. *)
Theorem clear_forgets_entries_keeps_counters c k now :
  let c' := clear c in
  destroy c = c' ∧
  (get k now c').1 = None ∧ (has k now c').1 = false ∧
  cache c' = ∅ ∧ size (getStats c') = 0 ∧
  hits (getStats c') = hits (getStats c) ∧
  misses (getStats c') = misses (getStats c) ∧
  evictions (getStats c') = evictions (getStats c) ∧
  capacity c' = capacity c ∧ ttl c' = ttl c ∧
  (∀ es, rep c es → rep c' []).
Proof.
  intros c'. split_and!; try done.
  intros es [l Hl]. exists []. by eapply holds_clear.
Qed.

End StoreQueries.

Section StoreSweep.
Import LRUCache.
Context {T : Type}.
Implicit Types (c : LRUCache T) (h : gmap nat (CacheNode T)) (l : list nat).
Implicit Types (n : CacheNode T) (e : entry (T:=T)) (es : list (entry (T:=T))).

Lemma entryOf_filter (P : entry (T:=T) → Prop) `{!∀ e, Decision (P e)} k es :
  NoDup (keyOf <$> es) →
  entryOf k (filter P es) =
    match entryOf k es with
    | Some e => if decide (P e) then Some e else None
    | None => None
    end.
Proof.
  induction es as [|e0 es IH]; intros Hnd; [done|].
  rewrite fmap_cons in Hnd. apply NoDup_cons in Hnd as [Hnot Hnd].
  destruct (decide (keyOf e0 = k)) as [<-|Hne].
  - rewrite (entryOf_cons_eq (keyOf e0) e0 es) by done.
    destruct (decide (P e0)).
    + rewrite filter_cons_True by done. by apply entryOf_cons_eq.
    + rewrite filter_cons_False by done.
      apply entryOf_None. intros Hin. apply Hnot.
      apply list_elem_of_fmap in Hin as (e & -> & He).
      apply list_elem_of_filter in He as [_ He]. by apply list_elem_of_fmap_2.
  - rewrite (entryOf_cons_ne k e0 es) by done. rewrite <- IH by done.
    destruct (decide (P e0)).
    + rewrite filter_cons_True by done. by apply entryOf_cons_ne.
    + by rewrite filter_cons_False by done.
Qed.

(** X15.  The sweep of the timer cannot be observed through [get] and
    [has]: in every state the store can reach, a [get] or [has] at the
    time of the sweep or later gives the same answer after the sweep as
    it would have given without it.  After the sweep no entry of the
    index is older than [ttl] at the time of the sweep, and the counters
    of hits and misses are unchanged. *)
Theorem sweep_unobservable cap life (calls : list (Call T)) now now' k :
  now <= now' →
  let c := run calls (new cap life) in
  let c' := cleanupStaleEntries now c in
  (get k now' c').1 = (get k now' c).1 ∧
  (has k now' c').1 = (has k now' c).1 ∧
  (∀ a n, lookup k c' = Some (a, n) → ¬ now - timestamp n > ttl c') ∧
  hits (getStats c') = hits (getStats c) ∧
  misses (getStats c') = misses (getStats c).
Proof.
  intros Hle c c'. unfold getStats.
  destruct (reachable_holds cap life calls) as ([l Hl] & _). fold c in Hl.
  set (es := (modelRun cap life calls ([], stats (new (T:=T) cap life))).1) in *.
  destruct (sweep_refines c l es now Hl) as ([l' Hl'] & Hst & _ & Httl).
  fold c' in Hl', Hst, Httl. cbn [entriesAfter statsAfter] in Hl', Hst.
  destruct (get_refines c l es k now' Hl) as [_ ->].
  destruct (has_refines c l es k now' Hl) as [_ ->].
  destruct (get_refines c' l' _ k now' Hl') as [_ ->].
  destruct (has_refines c' l' _ k now' Hl') as [_ ->].
  pose proof (entryOf_filter (λ e, ¬ now - stampOf e > ttl c) k es
                (holds_keys_nodup _ _ _ Hl)) as Hf.
  unfold getResult, hasResult. rewrite Httl, Hst.
  split_and!; try done.
  - rewrite Hf. destruct (entryOf k es) as [e|]; [|done].
    destruct (decide _) as [Hok|Hexp]; [done|].
    rewrite bool_decide_eq_true_2; [done|]. apply dec_stable in Hexp. lia.
  - rewrite Hf. destruct (entryOf k es) as [e|]; [|done].
    destruct (decide _) as [Hok|Hexp]; [done|].
    rewrite bool_decide_eq_true_2; [done|]. apply dec_stable in Hexp. lia.
  - intros a n Hlook. apply (holds_lookup _ _ _ _ _ _ Hl') in Hlook.
    apply entryOf_Some_elem in Hlook as [Hin _].
    apply list_elem_of_filter in Hin as [Hok _]. exact Hok.
Qed.

End StoreSweep.

Section StoreCounters.
Import LRUCache.
Context {T : Type}.
Implicit Types (c : LRUCache T) (h : gmap nat (CacheNode T)) (l : list nat).
Implicit Types (n : CacheNode T) (e : entry (T:=T)) (es : list (entry (T:=T))).

Lemma count_snoc (which : Call T → bool) calls call :
  count which (calls ++ [call]) = count which calls + (if which call then 1 else 0).
Proof.
  unfold count. rewrite filter_app, length_app.
  destruct (which call) eqn:E.
  - rewrite filter_cons_True by (by rewrite E). cbn. lia.
  - rewrite filter_cons_False by (rewrite E; exact id). cbn. lia.
Qed.

Lemma count_nonneg (which : Call T → bool) calls : 0 <= count which calls.
Proof. unfold count. lia. Qed.

(** The counters of the list of entries, call after call. *)
Lemma modelRun_counters cap life (calls : list (Call T)) :
  let s := (modelRun cap life calls ([], stats (new (T:=T) cap life))).2 in
  hits s + misses s = count isGet calls ∧
  0 <= hits s ∧ 0 <= misses s ∧
  0 <= evictions s <= count isSet calls.
Proof.
  induction calls as [|call calls IH] using rev_ind.
  - cbn. unfold count. cbn. lia.
  - rewrite modelRun_snoc. unfold modelStep. cbn [snd].
    rewrite !count_snoc. cbv zeta in IH.
    pose proof (count_nonneg isSet calls).
    set (st := modelRun cap life calls _) in *. clearbody st.
    destruct call as [k now|k v now|k now| | |now|];
      cbn [statsAfter isGet isSet];
      repeat match goal with
             | |- context [match ?x with _ => _ end] => destruct x
             end;
      cbn [hits misses evictions hit miss grow shrink evicted]; lia.
Qed.

(** X16.  The counters count: after any calls on a new store,
    [hits + misses] is the number of calls of [get] (calls of [has] and
    sweeps count nothing), no counter is negative, and there are no more
    evictions than calls of [set]. *)
Theorem gets_are_counted cap life (calls : list (Call T)) :
  let s := getStats (run calls (new cap life)) in
  hits s + misses s = count isGet calls ∧
  0 <= hits s ∧ 0 <= misses s ∧ 0 <= size s ∧
  0 <= evictions s <= count isSet calls.
Proof.
  intros s. subst s. unfold getStats.
  destruct (reachable_holds cap life calls) as ([l Hl] & Hst & _).
  pose proof (modelRun_counters cap life calls) as Hc. cbv zeta in Hc.
  rewrite <- Hst in Hc.
  destruct Hl as [[_ _ Hsz _ _] _]. lia.
Qed.

End StoreCounters.

Section StoreUpdates.
Import LRUCache.
Context {T : Type}.
Implicit Types (c : LRUCache T) (h : gmap nat (CacheNode T)) (l : list nat).
Implicit Types (n : CacheNode T) (e : entry (T:=T)) (es : list (entry (T:=T))).

Lemma holds_cache_Some c l es k :
  holds c l es → is_Some (cache c !! k) ↔ k ∈ keyOf <$> es.
Proof.
  intros Hh. rewrite <- not_eq_None_Some, (holds_cache_None c l es k Hh).
  split; [apply dec_stable|by intros ? ?].
Qed.

Lemma keys_without k k' es :
  k' ∈ keyOf <$> without k es ↔ k' ∈ keyOf <$> es ∧ k' ≠ k.
Proof.
  unfold without. rewrite !list_elem_of_fmap. split.
  - intros (e & -> & [Hk He]%list_elem_of_filter). split; [by exists e|done].
  - intros [(e & -> & He) Hne]. exists e. split; [done|].
    by apply list_elem_of_filter.
Qed.

(** X17.  A [set] for a key that the index holds updates the entry in
    place: the counters, [size] among them, stay as they are, so nothing
    is evicted however full the store is; the index holds the same keys,
    and the entry, with its new value and time stamp, becomes the most
    recently used one while the others keep their order. *)
Theorem update_in_place cap life (calls : list (Call T)) k v now :
  let c := run calls (new cap life) in
  let c' := set k v now c in
  is_Some (cache c !! k) →
  getStats c' = getStats c ∧
  (∀ k', is_Some (cache c' !! k') ↔ is_Some (cache c !! k')) ∧
  ∃ es, rep c es ∧ rep c' ((k, v, now) :: without k es).
Proof.
  intros c c' Hin. unfold getStats.
  destruct (reachable_holds cap life calls) as ([l Hl] & _). fold c in Hl.
  set (es := (modelRun cap life calls ([], stats (new (T:=T) cap life))).1) in *.
  destruct (set_refines c l es k v now Hl) as ([l' Hl'] & Hst & _).
  fold c' in Hl', Hst. cbn [entriesAfter statsAfter] in Hl', Hst.
  pose proof (proj1 (holds_cache_Some c l es k Hl) Hin) as Hk.
  destruct (entryOf k es) as [e|] eqn:E.
  2:{ exfalso. destruct (holds_view c l es k Hl) as [(Hnone & _)|H].
      - rewrite Hnone in Hin. by destruct Hin.
      - destruct H as (? & ? & ? & ? & ? & ? & ? & _ & _ & _ & _ & _ & _ & _ & _ & He & _).
        congruence. }
  split_and!; [done| |].
  - intros k'. rewrite (holds_cache_Some c' l' _ k' Hl'), (holds_cache_Some c l es k' Hl).
    rewrite fmap_cons, elem_of_cons, keys_without. cbn.
    destruct (decide (k' = k)) as [->|Hne]; [tauto|tauto].
  - exists es. split; [by exists l|by exists l'].
Qed.

Lemma last_entry_split {A B} (xs : list A) (ys : list B) (P : A → B → Prop) :
  Forall2 P xs ys → ys ≠ [] →
  ∃ xs0 x ys0 y, xs = xs0 ++ [x] ∧ ys = ys0 ++ [y] ∧ P x y ∧ Forall2 P xs0 ys0.
Proof.
  intros Hall Hne.
  destruct (exists_last (l:=ys)) as (ys0 & y & ->); [done|].
  apply Forall2_app_inv_r in Hall as (xs0 & xs1 & H0 & H1 & ->).
  apply Forall2_cons_inv_r in H1 as (x & xs2 & Hx & H2 & ->).
  apply Forall2_nil_inv_r in H2 as ->.
  by exists xs0, x, ys0, y.
Qed.

(** X18.  A [set] of a new key into a full store evicts the entry at
    the tail of the list, the least recently used one, and no other: the
    key of the tail node leaves the index, every other key stays, the new
    key is added, [evictions] goes up by one and [size] stays at the
    capacity. *)
Theorem full_store_evicts_tail cap life (calls : list (Call T)) k v now :
  let c := run calls (new cap life) in
  let c' := set k v now c in
  1 <= cap → cache c !! k = None → size (getStats c) = cap →
  ∃ t n, tail c = Some t ∧ heap c !! t = Some n ∧
    cache c' !! key n = None ∧
    (∀ k', k' ≠ key n →
       (is_Some (cache c' !! k') ↔ k' = k ∨ is_Some (cache c !! k'))) ∧
    evictions (getStats c') = evictions (getStats c) + 1 ∧
    size (getStats c') = cap.
Proof.
  intros c c' Hcap Hnew Hfull. unfold getStats in *.
  destruct (reachable_holds cap life calls) as ([l Hl] & _ & Hc & _).
  fold c in Hl, Hc.
  set (es := (modelRun cap life calls ([], stats (new (T:=T) cap life))).1) in *.
  clearbody es.
  destruct (set_refines c l es k v now Hl) as ([l' Hl'] & Hst & _).
  fold c' in Hl', Hst. cbn [entriesAfter statsAfter] in Hl', Hst.
  pose proof (holds_keys_nodup _ _ _ Hl) as Hnd.
  pose proof (proj1 (holds_cache_None c l es k Hl) Hnew) as Hk.
  destruct (entryOf_None k es Hk) as [HeNone _]. rewrite HeNone, Hc in Hl', Hst.
  pose proof Hl as [[Hlinked _ Hsz _ _] Hall].
  pose proof (Forall2_length _ _ _ Hall) as Hlen.
  rewrite bool_decide_eq_true_2 in Hl', Hst by lia.
  destruct (last_entry_split l es _ Hall) as (l0 & t & es0 & e & -> & -> & Hte & Hall0).
  { intros ->. cbn [length] in Hlen. lia. }
  destruct (heap c !! t) as [n|] eqn:Hn; [|done]. cbn in Hte. injection Hte as <-.
  exists t, n. split; [|split; [done|]].
  { rewrite (linked_tail _ _ Hlinked). apply lastOr_snoc. }
  change ((k, v, now) :: es0 ++ [payload n]) with (((k, v, now) :: es0) ++ [payload n]) in Hl'.
  rewrite removelast_last in Hl'.
  rewrite fmap_app in Hnd. apply NoDup_app in Hnd as (_ & Hdisj & _).
  assert (Hkn : key n ∉ keyOf <$> es0).
  { intros Hin. apply (Hdisj _ Hin). cbn. left. }
  assert (Hne : key n ≠ k).
  { intros <-. apply Hk. rewrite fmap_app. apply elem_of_app. right. cbn. left. }
  split_and!.
  - apply (holds_cache_None c' l' _ _ Hl'). rewrite fmap_cons.
    intros [Heq|Hin]%elem_of_cons; [by apply Hne|by apply Hkn].
  - intros k' Hk'.
    rewrite (holds_cache_Some c' l' _ k' Hl'), (holds_cache_Some c _ _ k' Hl).
    rewrite fmap_cons, fmap_app, elem_of_cons, elem_of_app. cbn.
    rewrite list_elem_of_singleton. change (keyOf (payload n)) with (key n). tauto.
  - rewrite Hst. cbn. lia.
  - rewrite Hst. cbn. lia.
Qed.

End StoreUpdates.

Section StorePointers.
Import LRUCache.
Context {T : Type}.
Implicit Types (c : LRUCache T) (h : gmap nat (CacheNode T)) (l : list nat).
Implicit Types (n : CacheNode T) (e : entry (T:=T)) (es : list (entry (T:=T))).

Lemma lastOr_None l : lastOr l None = None ↔ l = [].
Proof.
  split; [|by intros ->].
  destruct l as [|a l] using rev_ind; [done|]. by rewrite lastOr_snoc.
Qed.

Lemma firstOr_None l : firstOr l None = None ↔ l = [].
Proof. by destruct l. Qed.

(** The links of a node inside the list. *)
Lemma linked_node c l1 a l2 :
  linked c (l1 ++ a :: l2) →
  ∃ n, heap c !! a = Some n ∧
    prev n = lastOr l1 None ∧ next n = firstOr l2 None ∧
    (∀ p, prev n = Some p → nextOf p c = Some a) ∧
    (∀ q, next n = Some q → prevOf q c = Some a).
Proof.
  intros [Hseg _ _ Hnd].
  pose proof Hseg as Hseg0.
  apply seg_app in Hseg as [Hseg1 (n & Hn & Hp & Hq & Hseg2)].
  exists n. split_and!; try done.
  - intros p Hprev. rewrite Hp in Hprev.
    destruct l1 as [|b l1 _] using rev_ind; [done|].
    rewrite lastOr_snoc in Hprev. injection Hprev as ->.
    apply seg_app in Hseg1 as [_ (m & Hm & _ & Hnext & _)].
    unfold nextOf. rewrite Hm. cbn. by rewrite Hnext.
  - intros q Hnext. rewrite Hq in Hnext.
    destruct l2 as [|b l2]; [done|]. cbn in Hnext. injection Hnext as ->.
    destruct Hseg2 as (m & Hm & Hprev & _).
    unfold prevOf. rewrite Hm. cbn. by rewrite Hprev.
Qed.

(** X19.  The list stays a well-formed doubly linked list: in every
    state the store can reach, [head] and [tail] are [null] together, and
    exactly when the index is empty; every node of the index sits under
    its own key, has no [prev] exactly when it is the head and no [next]
    exactly when it is the tail, and [prev] and [next] are inverse to one
    another. *)
Theorem list_well_formed cap life (calls : list (Call T)) :
  let c := run calls (new cap life) in
  (head c = None ↔ tail c = None) ∧
  (head c = None ↔ cache c = ∅) ∧
  (∀ k a, cache c !! k = Some a →
     ∃ n, heap c !! a = Some n ∧ key n = k ∧
       (prev n = None ↔ head c = Some a) ∧
       (next n = None ↔ tail c = Some a) ∧
       (∀ p, prev n = Some p → nextOf p c = Some a) ∧
       (∀ q, next n = Some q → prevOf q c = Some a)).
Proof.
  intros c.
  destruct (reachable_holds cap life calls) as ([l Hl] & _). fold c in Hl.
  destruct Hl as [[Hlinked Hindex _ Hcount _] _].
  pose proof Hlinked as [_ Hhead Htail Hnd].
  split; [|split].
  - by rewrite Hhead, Htail, firstOr_None, lastOr_None.
  - rewrite Hhead, firstOr_None. rewrite <- map_size_empty_iff, Hcount.
    by rewrite length_zero_iff_nil.
  - intros k a Hk. apply Hindex in Hk as [Hin Hkey].
    apply list_elem_of_split in Hin as (l1 & l2 & ->).
    destruct (linked_node c l1 a l2 Hlinked) as (n & Hn & Hp & Hq & Hpn & Hnp).
    exists n. rewrite Hn in Hkey. cbn in Hkey. injection Hkey as Hkey.
    split_and!; try done.
    + rewrite Hp, Hhead, lastOr_None. split; [by intros ->|].
      intros Hfirst. destruct l1 as [|b l1]; [done|].
      cbn in Hfirst. injection Hfirst as ->.
      apply NoDup_cons in Hnd as [Hnot _]. exfalso. apply Hnot.
      apply elem_of_app. right. left.
    + rewrite Hq, Htail, firstOr_None. split; [intros ->; apply lastOr_snoc|].
      intros Hlast. destruct l2 as [|b l2 _] using rev_ind; [done|].
      rewrite app_comm_cons, app_assoc, lastOr_snoc in Hlast. injection Hlast as ->.
      apply NoDup_app in Hnd as (_ & _ & Hnd).
      apply NoDup_cons in Hnd as [Hnot _]. exfalso. apply Hnot.
      apply elem_of_app. right. left.
Qed.

End StorePointers.

Section StoreExamples.
Import LRUCache.

Lemma set_then_get_witness :
  let c := set "u2" 7%nat 1000 (run [CallSet "u1" 1%nat 0] (new 1 60000)) in
  (get "u2" 61000 c).1 = (if bool_decide (61000 - 1000 > 60000) then None else Some 7%nat) ∧
  (has "u2" 61000 c).1 = negb (bool_decide (61000 - 1000 > 60000)).
Proof.
  apply (set_then_get 1 60000 [CallSet "u1" 1%nat 0] "u2" 7%nat 1000 61000). lia.
Defined.

Lemma store_without_capacity_witness :
  let c := run [CallSet "u1" 1%nat 0; CallSet "u2" 2%nat 5] (new 0 60000) in
  (get "u2" 6 c).1 = None ∧ (has "u2" 6 c).1 = false ∧
  cache c = ∅ ∧ size (getStats c) = 0 ∧
  evictions (getStats c) = count isSet [CallSet "u1" 1%nat 0; CallSet "u2" 2%nat 5].
Proof.
  apply (store_without_capacity 0 60000
           [CallSet "u1" 1%nat 0; CallSet "u2" 2%nat 5] "u2" 6). lia.
Defined.

Lemma sweep_unobservable_witness :
  let c := run [CallSet "u1" 1%nat 0; CallSet "u2" 2%nat 30000] (new 100 60000) in
  let c' := cleanupStaleEntries 70000 c in
  (get "u1" 70000 c').1 = (get "u1" 70000 c).1 ∧
  (get "u2" 80000 c').1 = (get "u2" 80000 c).1.
Proof.
  intros c c'. split.
  - apply (sweep_unobservable 100 60000
             [CallSet "u1" 1%nat 0; CallSet "u2" 2%nat 30000] 70000 70000 "u1"). lia.
  - apply (sweep_unobservable 100 60000
             [CallSet "u1" 1%nat 0; CallSet "u2" 2%nat 30000] 70000 80000 "u2"). lia.
Defined.

Lemma update_in_place_witness :
  let c := run [CallSet "u1" 1%nat 0; CallSet "u2" 2%nat 5] (new 2 60000) in
  let c' := set "u1" 7%nat 9 c in
  getStats c' = getStats c ∧
  (∀ k', is_Some (cache c' !! k') ↔ is_Some (cache c !! k')).
Proof.
  intros c c'.
  destruct (update_in_place 2 60000 [CallSet "u1" 1%nat 0; CallSet "u2" 2%nat 5]
              "u1" 7%nat 9) as (Hstats & Hkeys & _).
  - vm_compute. by eexists.
  - split; [exact Hstats|exact Hkeys].
Defined.

Lemma full_store_evicts_tail_witness :
  let c := run [CallSet "u1" 1%nat 0; CallSet "u2" 2%nat 5; CallGet "u1" 6] (new 2 60000) in
  let c' := set "u3" 3%nat 9 c in
  ∃ t n, tail c = Some t ∧ heap c !! t = Some n ∧
    cache c' !! key n = None ∧
    (∀ k', k' ≠ key n →
       (is_Some (cache c' !! k') ↔ k' = "u3" ∨ is_Some (cache c !! k'))) ∧
    evictions (getStats c') = evictions (getStats c) + 1 ∧
    size (getStats c') = 2.
Proof.
  apply (full_store_evicts_tail 2 60000
           [CallSet "u1" 1%nat 0; CallSet "u2" 2%nat 5; CallGet "u1" 6] "u3" 3%nat 9);
    [lia | vm_compute; reflexivity | vm_compute; reflexivity].
Defined.

End StoreExamples.

(** ** AsyncQueue.ts: slots, order of service, pending promises *)

Section QueueSlots.
Import AsyncQueue.
Context {T : Type}.
Implicit Types (rt : Runtime T) (q : list QueueTask) (task : QueueTask).
Implicit Types (s : settlement T) (o : outcome T).

(** [processQueue] in the case that the fetch function throws. *)
Lemma processQueueFrom_throws task rest rt e :
  ¬ currentlyProcessing (this rt) >= maxConcurrent (this rt) →
  body (fn task) = Throws e →
  processQueueFrom (task :: rest) rt =
    let p := nextPromise rt in
    let rt1 :=
      called p (fn task)
        (newPromise
           (set_currentlyProcessing (currentlyProcessing (this rt) + 1)
              (set_queue rest rt))).2 in
    let rt3 :=
      release task
        (settle (resolve task) (Rejected (rejection (resolve task) e)) rt1) in
    let rt5 := settle p (Rejected e) (processQueueFrom rest rt3) in
    set_processing (<[id task := p]> (processing (this rt5))) rt5.
Proof.
  intros Hfree Hbody. cbn [processQueueFrom].
  rewrite bool_decide_eq_false_2 by done. by rewrite Hbody.
Qed.

Lemma processQueueFrom_returns task rest rt :
  ¬ currentlyProcessing (this rt) >= maxConcurrent (this rt) →
  body (fn task) = Returns →
  processQueueFrom (task :: rest) rt =
    let p := nextPromise rt in
    let rt1 :=
      called p (fn task)
        (newPromise
           (set_currentlyProcessing (currentlyProcessing (this rt) + 1)
              (set_queue rest rt))).2 in
    let rt2 := set_awaiting (awaiting rt1 ++ [(p, task)]) rt1 in
    set_processing (<[id task := p]> (processing (this rt2))) rt2.
Proof.
  intros Hfree Hbody. cbn [processQueueFrom].
  rewrite bool_decide_eq_false_2 by done. by rewrite Hbody.
Qed.

Lemma processQueueFrom_full q rt :
  currentlyProcessing (this rt) >= maxConcurrent (this rt) →
  processQueueFrom q rt = set_queue q rt.
Proof.
  intros Hfull. destruct q as [|task rest]; [done|].
  cbn [processQueueFrom]. by rewrite bool_decide_eq_true_2.
Qed.

(** [processQueue] starts tasks until the queue is empty or no slot is
    free, provided it is called when at most one task can be started
    beyond those that throw at once. *)
Lemma processQueueFrom_busy q : ∀ rt,
  (q = [] ∨ tl q = [] ∨
   maxConcurrent (this rt) <= currentlyProcessing (this rt) + 1) →
  queue (this (processQueueFrom q rt)) = [] ∨
  maxConcurrent (this (processQueueFrom q rt))
    <= currentlyProcessing (this (processQueueFrom q rt)).
Proof.
  induction q as [|task rest IH]; intros rt Hpre; [by left|].
  destruct (decide (currentlyProcessing (this rt) >= maxConcurrent (this rt)))
    as [Hfull|Hfree].
  { rewrite processQueueFrom_full by done. right. cbn. lia. }
  destruct (body (fn task)) as [e|] eqn:Hbody.
  - rewrite (processQueueFrom_throws task rest rt e Hfree Hbody). cbv zeta.
    set (rt3 := release task _).
    cbn [set_processing set_this this queue maxConcurrent currentlyProcessing].
    rewrite !settle_this. apply IH.
    unfold rt3. cbn. rewrite settle_this. cbn.
    destruct Hpre as [?|[Hrest|Hle]]; [done|left; exact Hrest|right; right; lia].
  - rewrite (processQueueFrom_returns task rest rt Hfree Hbody). cbn.
    destruct Hpre as [?|[Hrest|Hle]]; [done|left; exact Hrest|right; lia].
Qed.

Lemma step_busy rt ev :
  wf rt →
  (queue (this rt) = [] ∨ maxConcurrent (this rt) <= currentlyProcessing (this rt)) →
  queue (this (step rt ev)) = [] ∨
  maxConcurrent (this (step rt ev)) <= currentlyProcessing (this (step rt ev)).
Proof.
  intros Hwf Hbusy. destruct ev as [i f|p o]; cbn [step].
  - unfold enqueue. destruct (processing (this rt) !! i); [done|].
    cbn [newPromise snd]. unfold processQueue. apply processQueueFrom_busy.
    cbn. destruct Hbusy as [->|Hle]; [right; left; done|right; right; lia].
  - destruct (suspended p rt) as [task|] eqn:Hs; [|unfold resume; by rewrite Hs].
    destruct (suspended_split p rt task (wf_nodup_blocks rt Hwf) Hs)
      as (l1 & l2 & Hl & Hf).
    rewrite (resume_unfold rt p task o l1 l2 Hwf Hs Hl Hf).
    rewrite settle_this. unfold processQueue. apply processQueueFrom_busy.
    cbn. rewrite settle_this. cbn.
    destruct Hbusy as [->|Hle]; [left; done|right; right; lia].
Qed.

Lemma run_busy (M : Z) (evs : list (event T)) :
  let rt := run evs (new M) in
  queue (this rt) = [] ∨ maxConcurrent (this rt) <= currentlyProcessing (this rt).
Proof.
  induction evs as [|ev evs IH] using rev_ind; [by left|].
  rewrite queue_run_snoc. apply step_busy; [apply reachable_wf|exact IH].
Qed.

(** X20.  No slot is idle while a task waits: in every state that the
    queue reaches, if [getStats()] reports a task in the queue then it
    reports [maxConcurrent] tasks in progress. *)
Theorem no_idle_slot (M : Z) (evs : list (event T)) :
  0 <= M →
  let '(queueLength, processing, _) := getStats (run evs (new M)) in
  (0 < queueLength)%nat → processing = M.
Proof.
  intros HM. unfold getStats. intros Hq.
  pose proof (run_busy M evs) as Hbusy. cbv zeta in Hbusy.
  pose proof (reachable_wf M evs) as [_ Hb _ _ _ _].
  rewrite run_maxConcurrent in Hbusy, Hb. cbn [new this maxConcurrent] in Hbusy, Hb.
  destruct Hbusy as [Hnil|Hle]; [rewrite Hnil in Hq; cbn in Hq; lia|lia].
Qed.

End QueueSlots.

Section QueueOrder.
Import AsyncQueue.
Context {T : Type}.
Implicit Types (rt : Runtime T) (q : list QueueTask) (task : QueueTask).
Implicit Types (s : settlement T) (o : outcome T).

(** [processQueue] takes the tasks it starts from the front of the
    queue and calls their fetch functions in this order. *)
Lemma processQueueFrom_order q : ∀ rt,
  ∃ started,
    q = started ++ queue (this (processQueueFrom q rt)) ∧
    (invoked (processQueueFrom q rt)).*2 =
      (invoked rt).*2 ++ ((λ task, name (fn task)) <$> started).
Proof.
  induction q as [|task rest IH]; intros rt.
  { exists []. cbn. by rewrite app_nil_r. }
  destruct (decide (currentlyProcessing (this rt) >= maxConcurrent (this rt)))
    as [Hfull|Hfree].
  { rewrite processQueueFrom_full by done. exists []. cbn. by rewrite app_nil_r. }
  destruct (body (fn task)) as [e|] eqn:Hbody.
  - rewrite (processQueueFrom_throws task rest rt e Hfree Hbody). cbv zeta.
    set (rt3 := release task _).
    destruct (IH rt3) as (started & Hq & Hlog).
    exists (task :: started).
    cbn [set_processing set_this this queue invoked].
    rewrite !settle_this, !settle_invoked. split.
    + cbn. by rewrite <- Hq.
    + rewrite Hlog. unfold rt3. cbn. rewrite settle_invoked. cbn.
      rewrite fmap_app. cbn. by rewrite <- app_assoc.
  - rewrite (processQueueFrom_returns task rest rt Hfree Hbody). cbn.
    exists [task]. split; [done|]. by rewrite fmap_app.
Qed.

Lemma step_order rt ev :
  wf rt →
  ∃ started,
    queue (this rt) ++ arrival rt ev = started ++ queue (this (step rt ev)) ∧
    (invoked (step rt ev)).*2 =
      (invoked rt).*2 ++ ((λ task, name (fn task)) <$> started).
Proof.
  intros Hwf. destruct ev as [i f|p o]; cbn [step arrival].
  - unfold enqueue. destruct (processing (this rt) !! i).
    { exists []. cbn. by rewrite !app_nil_r. }
    cbn [newPromise snd]. unfold processQueue.
    set (rt1 := set_queue _ _).
    destruct (processQueueFrom_order (queue (this rt1)) rt1) as (started & Hq & Hlog).
    exists started. split; [exact Hq|exact Hlog].
  - rewrite app_nil_r.
    destruct (suspended p rt) as [task|] eqn:Hs.
    2:{ unfold resume. rewrite Hs. exists []. cbn. by rewrite app_nil_r. }
    destruct (suspended_split p rt task (wf_nodup_blocks rt Hwf) Hs)
      as (l1 & l2 & Hl & Hf).
    rewrite (resume_unfold rt p task o l1 l2 Hwf Hs Hl Hf).
    rewrite settle_this, settle_invoked. unfold processQueue.
    set (rt3 := release task _).
    destruct (processQueueFrom_order (queue (this rt3)) rt3) as (started & Hq & Hlog).
    exists started. split.
    + rewrite <- Hq. unfold rt3. cbn. by rewrite settle_this.
    + rewrite Hlog. unfold rt3. cbn. by rewrite settle_invoked.
Qed.

Lemma arrivalsOf_snoc (evs : list (event T)) ev rt :
  arrivalsOf (evs ++ [ev]) rt = arrivalsOf evs rt ++ arrival (run evs rt) ev.
Proof.
  revert rt. induction evs as [|ev0 evs IH]; intros rt.
  - cbn. by rewrite app_nil_r.
  - cbn [app arrivalsOf]. rewrite IH. by rewrite app_assoc.
Qed.

(** X21.  Tasks are served first come, first served: in every state
    that the queue reaches, the fetch functions that have been called are
    those of the tasks pushed first, called in the order in which the
    tasks were pushed, and the queue holds the other tasks, oldest
    first. *)
Theorem first_come_first_served (M : Z) (evs : list (event T)) :
  let rt := run evs (new M) in
  ∃ started,
    arrivalsOf evs (new M) = started ++ queue (this rt) ∧
    (invoked rt).*2 = (λ task, name (fn task)) <$> started.
Proof.
  induction evs as [|ev evs IH] using rev_ind.
  { by exists []. }
  cbv zeta in *. rewrite queue_run_snoc, arrivalsOf_snoc.
  destruct IH as (started & Harr & Hlog).
  destruct (step_order (run evs (new M)) ev (reachable_wf M evs))
    as (started' & Hq & Hlog').
  exists (started ++ started'). split.
  - by rewrite Harr, <- !app_assoc, Hq.
  - by rewrite Hlog', Hlog, fmap_app.
Qed.

End QueueOrder.


Section QueuePending.
Import AsyncQueue.
Context {T : Type}.
Implicit Types (rt : Runtime T) (q : list QueueTask) (task : QueueTask).
Implicit Types (s : settlement T) (o : outcome T).

Lemma settle_is_Some p s rt x :
  is_Some (promises rt !! x) → is_Some (promises (settle p s rt) !! x).
Proof.
  intros Hx. unfold settle.
  destruct (promises rt !! p) as [[| |]|] eqn:E; try done.
  cbn. destruct (decide (x = p)) as [->|Hne].
  - by rewrite lookup_insert_eq.
  - by rewrite lookup_insert_ne.
Qed.

Lemma settle_still_pending p s rt x :
  promises (settle p s rt) !! x = Some Pending →
  promises rt !! x = Some Pending ∧ (s ≠ Pending → x ≠ p).
Proof.
  unfold settle. destruct (promises rt !! p) as [[| |]|] eqn:E; cbn.
  - destruct (decide (x = p)) as [->|Hne].
    + rewrite lookup_insert_eq. intros [= ->]. split; [done|]. by intros [].
    + rewrite lookup_insert_ne by done. by split.
  - intros Hx. split; [done|]. intros _ ->. congruence.
  - intros Hx. split; [done|]. intros _ ->. congruence.
  - intros Hx. split; [done|]. intros _ ->. congruence.
Qed.

(** The state in which a task whose fetch function has thrown calls
    [processQueue] again. *)
Lemma throw_released task rest rt e :
  wf (set_queue (task :: rest) rt) →
  let p := nextPromise rt in
  let rt1 :=
    called p (fn task)
      (newPromise
         (set_currentlyProcessing (currentlyProcessing (this rt) + 1)
            (set_queue rest rt))).2 in
  let rt3 :=
    release task
      (settle (resolve task) (Rejected (rejection (resolve task) e)) rt1) in
  ¬ currentlyProcessing (this rt) >= maxConcurrent (this rt) →
  wf (set_queue rest rt3) ∧
  nextPromise rt3 = S p ∧
  promises rt3 !! p = Some Pending ∧
  (p ∉ owed (set_queue rest rt3)) ∧
  p ≠ resolve task ∧
  (resolve task ∉ owed (set_queue rest rt3)) ∧
  (∃ s', promises rt3 !! resolve task = Some s' ∧ s' ≠ Pending) ∧
  (∀ x, x ≠ p → x ≠ resolve task → promises rt3 !! x = promises rt !! x) ∧
  (∀ x, x ∈ owed (set_queue (task :: rest) rt) ↔
        x = resolve task ∨ x ∈ owed (set_queue rest rt3)).
Proof.
  intros Hwf p rt1 rt3 Hfree.
  pose proof (λ x, owed_lt _ x Hwf) as Hlt.
  destruct Hwf as [Hc Hb Hpk Hpend Hnd Hfr].
  unfold owed in Hpend, Hnd, Hlt. cbn in Hc, Hb, Hpk, Hpend, Hnd, Hfr, Hlt.
  set (A := fst <$> awaiting rt) in *.
  set (B := (λ pt : nat * QueueTask, resolve pt.2) <$> awaiting rt) in *.
  fold p in Hlt, Hfr.
  rewrite owed_middle in Hnd. apply NoDup_cons in Hnd as [Hr Hnd].
  assert (Hp : p ∉ A ++ B ++ resolve task :: (resolve <$> rest)).
  { intros Hin. apply Hlt in Hin. lia. }
  assert (Hpr : p ≠ resolve task).
  { intros Heq. apply Hp. rewrite !elem_of_app, elem_of_cons. tauto. }
  assert (Hres : promises rt !! resolve task = Some Pending).
  { apply Hpend. rewrite !elem_of_app, elem_of_cons. tauto. }
  assert (Howed : owed (set_queue rest rt3) = A ++ B ++ (resolve <$> rest)).
  { unfold owed, rt3, rt1. cbn. by rewrite settle_awaiting. }
  split_and!.
  - constructor; rewrite ?Howed; unfold rt3, rt1; cbn;
      rewrite ?settle_this, ?settle_awaiting, ?settle_peak, ?settle_nextPromise;
      cbn; fold A B.
    + lia.
    + lia.
    + lia.
    + intros x Hx. rewrite settle_other by (by intros ->). cbn.
      rewrite lookup_insert_ne.
      * apply Hpend. rewrite !elem_of_app in *. rewrite elem_of_cons. tauto.
      * intros <-. apply Hp. rewrite !elem_of_app in *. rewrite elem_of_cons. tauto.
    + done.
    + intros x Hx. apply settle_None. cbn.
      rewrite lookup_insert_ne by (fold p; lia). apply Hfr. lia.
  - unfold rt3, rt1. cbn. by rewrite settle_nextPromise.
  - unfold rt3, rt1. cbn. rewrite settle_other by done. cbn.
    by rewrite lookup_insert_eq.
  - rewrite Howed. intros Hin. apply Hp.
    rewrite !elem_of_app in *. rewrite elem_of_cons. tauto.
  - done.
  - by rewrite Howed.
  - eexists. split.
    + unfold rt3, rt1. cbn. apply settle_pending. cbn.
      rewrite lookup_insert_ne by done. exact Hres.
    + done.
  - intros x Hxp Hxr. unfold rt3, rt1. cbn. rewrite settle_other by done. cbn.
    by rewrite lookup_insert_ne.
  - intros x. rewrite Howed.
    change (owed (set_queue (task :: rest) rt))
      with (A ++ B ++ resolve task :: (resolve <$> rest)).
    rewrite !elem_of_app, elem_of_cons. tauto.
Qed.

(** After [processQueue] every promise made is in the store, and one
    that is pending is owed, unless it was pending and not owed before. *)
Lemma processQueueFrom_pending q : ∀ rt,
  wf (set_queue q rt) →
  (∀ x, (x < nextPromise rt)%nat → is_Some (promises rt !! x)) →
  (∀ x, (x < nextPromise (processQueueFrom q rt))%nat →
        is_Some (promises (processQueueFrom q rt) !! x)) ∧
  (∀ x, promises (processQueueFrom q rt) !! x = Some Pending →
        x ∈ owed (processQueueFrom q rt) ∨
        (promises rt !! x = Some Pending ∧ x ∉ owed (set_queue q rt))).
Proof.
  induction q as [|task rest IH]; intros rt Hwf Hdom.
  { split; [done|]. intros x Hx. cbn in *.
    destruct (decide (x ∈ owed (set_queue [] rt))); [by left|by right]. }
  destruct (decide (currentlyProcessing (this rt) >= maxConcurrent (this rt)))
    as [Hfull|Hfree].
  { rewrite processQueueFrom_full by done. split; [done|]. intros x Hx.
    destruct (decide (x ∈ owed (set_queue (task :: rest) rt))); [by left|by right]. }
  destruct (body (fn task)) as [e|] eqn:Hbody.
  - rewrite (processQueueFrom_throws task rest rt e Hfree Hbody).
    pose proof (throw_released task rest rt e Hwf) as Hrel.
    cbv zeta in *. specialize (Hrel Hfree).
    set (p := nextPromise rt) in *. set (rt3 := release task _) in *.
    destruct Hrel as (Hwf3 & Hnext3 & Hp3 & Hpo & Hpr & Hro & (s' & Hr3 & Hs') & Hsame & Howed).
    destruct (IH rt3 Hwf3) as [Hdom4 Hpend4].
    { intros x Hx. rewrite Hnext3 in Hx.
      destruct (decide (x = p)) as [->|Hxp]; [by rewrite Hp3|].
      destruct (decide (x = resolve task)) as [->|Hxr]; [by rewrite Hr3|].
      rewrite Hsame by done. apply Hdom. lia. }
    assert (Hp4 : promises (processQueueFrom rest rt3) !! p = Some Pending).
    { rewrite processQueueFrom_promises; [done|lia|].
      intros Hin. apply Hpo. unfold owed. rewrite !elem_of_app. by right; right. }
    split.
    + intros x Hx. cbn in Hx |- *. rewrite settle_nextPromise in Hx.
      apply settle_is_Some. by apply Hdom4.
    + intros x Hx. cbn in Hx.
      apply settle_still_pending in Hx as [Hx Hxp]. specialize (Hxp ltac:(done)).
      assert (Howed' : owed (set_processing
                  (<[id task := p]> (processing (this (settle p (Rejected e)
                       (processQueueFrom rest rt3)))))
                  (settle p (Rejected e) (processQueueFrom rest rt3)))
                = owed (processQueueFrom rest rt3)).
      { unfold owed. cbn. by rewrite settle_this, settle_awaiting. }
      rewrite Howed'.
      destruct (Hpend4 x Hx) as [Hin|[Hx3 Hnot]]; [by left|right].
      assert (Hxr : x ≠ resolve task) by (intros ->; congruence).
      rewrite Hsame in Hx3 by done. split; [done|].
      rewrite Howed. tauto.
  - rewrite (processQueueFrom_returns task rest rt Hfree Hbody). cbv zeta.
    set (rt' := set_processing _ _).
    assert (Howed : ∀ y, y ∈ owed rt' ↔
              y = nextPromise rt ∨ y ∈ owed (set_queue (task :: rest) rt)).
    { intros y. unfold owed, rt'. cbn. rewrite !fmap_app. cbn.
      rewrite ?elem_of_app, ?elem_of_cons, ?elem_of_nil. tauto. }
    assert (Hprom : promises rt' = <[nextPromise rt := Pending]> (promises rt)) by done.
    assert (Hnext : nextPromise rt' = S (nextPromise rt)) by done.
    clearbody rt'. split.
    + intros x Hx. rewrite Hprom. rewrite Hnext in Hx.
      destruct (decide (x = nextPromise rt)) as [->|Hne].
      * by rewrite lookup_insert_eq.
      * rewrite lookup_insert_ne by done. apply Hdom. lia.
    + intros x Hx. rewrite Hprom in Hx. rewrite Howed.
      destruct (decide (x = nextPromise rt)) as [->|Hne]; [by left; left|].
      rewrite lookup_insert_ne in Hx by done.
      destruct (decide (x ∈ owed (set_queue (task :: rest) rt)));
        [left; by right|by right].
Qed.

End QueuePending.

Section QueueAccounts.
Import AsyncQueue.
Context {T : Type}.
Implicit Types (rt : Runtime T) (q : list QueueTask) (task : QueueTask).
Implicit Types (s : settlement T) (o : outcome T).

Lemma promise_lt rt x s : wf rt → promises rt !! x = Some s → (x < nextPromise rt)%nat.
Proof.
  intros Hwf Hx. destruct (decide (x < nextPromise rt)%nat) as [|Hge]; [done|].
  rewrite (wf_fresh _ Hwf x) in Hx; [done|lia].
Qed.

Lemma processQueueFrom_accounted q rt :
  wf (set_queue q rt) → accounted (set_queue q rt) →
  accounted (processQueueFrom q rt).
Proof.
  intros Hwf Hacc.
  destruct (processQueueFrom_pending q rt Hwf) as [Hdom Hpend].
  { intros x Hx. destruct (Hacc x Hx) as (s & Hs & _). by exists s. }
  intros x Hx. destruct (Hdom x Hx) as [s Hs]. exists s. split; [done|].
  intros ->. destruct (Hpend x Hs) as [Hin|[Hold Hnot]]; [done|].
  exfalso. apply Hnot.
  destruct (Hacc x) as (s & Hs' & Hin).
  { eapply (promise_lt (set_queue q rt)); [done|exact Hold]. }
  cbn in Hs'. rewrite Hold in Hs'. injection Hs' as <-. by apply Hin.
Qed.

(** The state in which [enqueue] calls [processQueue]. *)
Lemma pushed_wf i f rt :
  wf rt →
  wf (set_queue (queue (this rt) ++ [mkTask i f (nextPromise rt)]) (newPromise rt).2).
Proof.
  intros Hwf.
  pose proof (λ x, owed_lt _ x Hwf) as Hlt.
  destruct Hwf as [Hc Hb Hpk Hpend Hnd Hfr].
  unfold owed in *. cbn in *.
  set (A := fst <$> awaiting rt) in *.
  set (B := (λ pt : nat * QueueTask, resolve pt.2) <$> awaiting rt) in *.
  set (C := resolve <$> queue (this rt)) in *.
  assert (Hperm : A ++ B ++ (resolve <$> queue (this rt)
                               ++ [mkTask i f (nextPromise rt)])
                  ≡ₚ nextPromise rt :: A ++ B ++ C).
  { rewrite fmap_app. cbn. fold C.
    by rewrite !app_assoc, <- Permutation_cons_append. }
  assert (Hp : nextPromise rt ∉ A ++ B ++ C).
  { intros Hin. apply Hlt in Hin. lia. }
  constructor; unfold owed; cbn; fold A B; try done.
  - intros x Hx. rewrite Hperm in Hx.
    apply elem_of_cons in Hx as [->|Hx]; [by rewrite lookup_insert_eq|].
    rewrite lookup_insert_ne; [by apply Hpend|]. by intros <-.
  - rewrite Hperm. by apply NoDup_cons.
  - intros x Hx. rewrite lookup_insert_ne by lia. apply Hfr. lia.
Qed.

Lemma enqueue_accounted i f rt :
  wf rt → accounted rt → accounted (enqueue i f rt).2.
Proof.
  intros Hwf Hacc. unfold enqueue.
  destruct (processing (this rt) !! i) as [p|]; [done|]. cbn [newPromise snd].
  unfold processQueue. cbn [set_queue set_this this queue].
  apply processQueueFrom_accounted; [by apply pushed_wf|].
  intros x Hx. cbn in Hx |- *.
  destruct (decide (x = nextPromise rt)) as [->|Hne].
  - exists Pending. rewrite lookup_insert_eq. split; [done|]. intros _.
    unfold owed. cbn. rewrite !elem_of_app, fmap_app, elem_of_app. cbn.
    right; right; right. left.
  - destruct (Hacc x) as (s & Hs & Hin); [lia|]. exists s.
    rewrite lookup_insert_ne by done. split; [done|]. intros Hp.
    specialize (Hin Hp). unfold owed in Hin |- *. cbn.
    rewrite !elem_of_app, fmap_app, elem_of_app in *. tauto.
Qed.

Lemma owed_resumed rt p task l1 l2 s x :
  awaiting rt = l1 ++ (p, task) :: l2 →
  x ∈ owed rt →
  x = p ∨ x = resolve task ∨
  x ∈ owed (release task (settle (resolve task) s (set_awaiting (l1 ++ l2) rt))).
Proof.
  intros Haw. unfold owed. cbn. rewrite settle_this, settle_awaiting. cbn.
  rewrite Haw, !fmap_app, !fmap_cons. cbn.
  rewrite !elem_of_app, !elem_of_cons. tauto.
Qed.

Lemma resume_accounted p o rt :
  wf rt → accounted rt → accounted (resume p o rt).
Proof.
  intros Hwf Hacc.
  destruct (suspended p rt) as [task|] eqn:Hs; [|unfold resume; by rewrite Hs].
  destruct (suspended_split p rt task (wf_nodup_blocks rt Hwf) Hs)
    as (l1 & l2 & Hl & Hf).
  rewrite (resume_unfold rt p task o l1 l2 Hwf Hs Hl Hf).
  pose proof (resume_released rt p task l1 l2 (taskResult task o) Hwf Hl) as Hrel.
  pose proof (λ x, owed_resumed rt p task l1 l2 (taskResult task o) x Hl) as Hback.
  cbv zeta in Hrel.
  set (rt3 := release task _) in *.
  destruct Hrel as (Hwf3 & Hp3 & Hr3 & Hsub & Hnext3 & Hres3 & Hpp3).
  assert (Hsame : ∀ x, x ≠ resolve task → promises rt3 !! x = promises rt !! x).
  { intros x Hx. unfold rt3. cbn. by rewrite settle_other. }
  unfold processQueue.
  rewrite <- (set_queue_id rt3) in Hwf3.
  destruct (processQueueFrom_pending (queue (this rt3)) rt3 Hwf3) as [Hdom Hpend].
  { intros x Hx. rewrite Hnext3 in Hx. destruct (Hacc x Hx) as (s & Hs' & _).
    destruct (decide (x = resolve task)) as [->|Hne]; [by rewrite Hres3|].
    rewrite Hsame by done. by exists s. }
  assert (Hp4 : promises (processQueueFrom (queue (this rt3)) rt3) !! p = Some Pending).
  { rewrite processQueueFrom_promises; [done| |].
    - eapply promise_lt; [|exact Hpp3]. by rewrite set_queue_id in Hwf3.
    - intros Hin. apply Hp3. unfold owed. rewrite !elem_of_app. by right; right. }
  intros x Hx. rewrite settle_nextPromise in Hx.
  destruct (settle_is_Some p (blockResult o) _ x (Hdom x Hx)) as [s Hsx].
  exists s. split; [done|]. intros ->. rewrite settle_owed.
  apply settle_still_pending in Hsx as [Hx4 Hxp].
  assert (Hne : x ≠ p) by (apply Hxp; by destruct o).
  destruct (Hpend x Hx4) as [Hin|[Hx3 Hnot]]; [done|]. exfalso.
  assert (Hxr : x ≠ resolve task).
  { intros ->. rewrite Hres3 in Hx3. by destruct o. }
  rewrite Hsame in Hx3 by done.
  destruct (Hacc x) as (s & Hs' & Hin).
  { by eapply promise_lt. }
  rewrite Hx3 in Hs'. injection Hs' as <-.
  destruct (Hback x (Hin eq_refl)) as [?|[?|Hin3]]; [done|done|].
  apply Hnot. by rewrite set_queue_id.
Qed.

Lemma run_accounted (M : Z) (evs : list (event T)) : accounted (run evs (new M)).
Proof.
  induction evs as [|ev evs IH] using rev_ind.
  - intros x Hx. cbn in Hx. lia.
  - rewrite queue_run_snoc. pose proof (reachable_wf M evs) as Hwf.
    destruct ev as [i f|p o]; cbn [step].
    + by apply enqueue_accounted.
    + by apply resume_accounted.
Qed.

(** X22.  No caller is left waiting: in every state that the queue
    reaches, every promise that [enqueue] has returned is in the store of
    promises, and a promise is pending exactly when the queue still owes
    it an answer, because its task waits in the queue or its fetch
    function is running.  So when the queue is empty and no fetch function
    is running, every promise has been settled. *)
Theorem no_caller_left_waiting (M : Z) (evs : list (event T)) :
  let rt := run evs (new M) in
  (∀ i f, ((enqueue i f rt).1 < nextPromise (enqueue i f rt).2)%nat) ∧
  (∀ x, (x < nextPromise rt)%nat →
     ∃ s, promises rt !! x = Some s ∧ (s = Pending ↔ x ∈ owed rt)) ∧
  (queue (this rt) = [] → currentlyProcessing (this rt) = 0 →
   ∀ x, (x < nextPromise rt)%nat →
     ∃ s, promises rt !! x = Some s ∧ s ≠ Pending).
Proof.
  intros rt.
  pose proof (reachable_wf M evs) as Hwf. fold rt in Hwf.
  pose proof (run_accounted M evs) as Hacc. fold rt in Hacc.
  split; [|split].
  - intros i f. unfold enqueue.
    destruct (processing (this rt) !! i) as [p|] eqn:Hp.
    + cbn. by apply (reachable_tabled M evs i p).
    + cbn [newPromise fst snd]. unfold processQueue.
      pose proof (processQueueFrom_nextPromise
        (queue (this (set_queue (queue (this rt) ++ [mkTask i f (nextPromise rt)])
                        (newPromise rt).2)))
        (set_queue (queue (this rt) ++ [mkTask i f (nextPromise rt)])
           (newPromise rt).2)) as Hle.
      cbn in Hle |- *. lia.
  - intros x Hx. destruct (Hacc x Hx) as (s & Hs & Hin). exists s.
    split; [done|]. split; [done|]. intros Hx'.
    pose proof (wf_pending _ Hwf x Hx') as Hp. congruence.
  - intros Hq Hcp x Hx. destruct (Hacc x Hx) as (s & Hs & Hin). exists s.
    split; [done|]. intros ->. specialize (Hin eq_refl).
    pose proof (wf_count _ Hwf) as Hc. rewrite Hcp in Hc.
    destruct (awaiting rt) as [|pt l] eqn:Haw; [|cbn in Hc; lia].
    unfold owed in Hin. rewrite Haw, Hq in Hin. cbn in Hin.
    by apply elem_of_nil in Hin.
Qed.

End QueueAccounts.

Section QueueThrow.
Import AsyncQueue.
Context {T : Type}.
Implicit Types (rt : Runtime T) (q : list QueueTask) (task : QueueTask).
Implicit Types (s : settlement T) (o : outcome T).

Lemma settle_unfold p s rt :
  promises rt !! p = Some Pending →
  settle p s rt = set_promises (<[p := s]> (promises rt)) rt.
Proof. intros Hp. unfold settle. by rewrite Hp. Qed.

(** [enqueue] of a fetch function that throws when it is called, on a
    queue with a free slot and nothing waiting. *)
Lemma enqueue_throws i f e rt :
  processing (this rt) !! i = None →
  queue (this rt) = [] →
  currentlyProcessing (this rt) < maxConcurrent (this rt) →
  body f = Throws e →
  enqueue i f rt =
    (nextPromise rt,
     {| this := {| queue := [];
                   processing :=
                     <[i := S (nextPromise rt)]> (delete i (processing (this rt)));
                   maxConcurrent := maxConcurrent (this rt);
                   currentlyProcessing := currentlyProcessing (this rt) + 1 - 1 |};
        promises := <[S (nextPromise rt) := Rejected e]>
                      (<[nextPromise rt := Rejected (rejection (nextPromise rt) e)]>
                         (<[S (nextPromise rt) := Pending]>
                            (<[nextPromise rt := Pending]> (promises rt))));
        nextPromise := S (S (nextPromise rt));
        awaiting := awaiting rt;
        invoked := invoked rt ++ [(S (nextPromise rt), name f)];
        peak := Nat.max (peak rt) (S (length (awaiting rt))) |}).
Proof.
  intros Hi Hq Hfree Hbody. unfold enqueue. rewrite Hi. cbn [newPromise snd].
  unfold processQueue. cbn [set_queue set_this this queue]. rewrite Hq. cbn [app].
  rewrite (processQueueFrom_throws _ [] _ e) by (cbn; done || lia).
  cbv zeta. cbn [processQueueFrom].
  cbn -[settle Z.add Z.sub].
  rewrite (settle_unfold (nextPromise rt))
    by (cbn; rewrite lookup_insert_ne by lia; apply lookup_insert_eq).
  cbn -[settle Z.add Z.sub].
  rewrite (settle_unfold (S (nextPromise rt)))
    by (cbn; rewrite lookup_insert_ne by lia; apply lookup_insert_eq).
  reflexivity.
Qed.

(** X23.  A fetch function that throws when it is called, on a queue
    with a free slot and nothing waiting: the caller's promise is rejected
    at once, with the error thrown or with [Error('Unknown error')] if
    that is not an [Error]; no slot stays taken and nothing is queued.
    But the key is left in the [processing] map with the rejected promise
    of the block, so every later call for the key gets this promise back
    and its fetch function is not called. *)
Theorem synchronous_throw_rejects_at_once i f e rt :
  processing (this rt) !! i = None →
  queue (this rt) = [] →
  currentlyProcessing (this rt) < maxConcurrent (this rt) →
  body f = Throws e →
  let p := (enqueue i f rt).1 in
  let rt' := (enqueue i f rt).2 in
  p = nextPromise rt ∧
  received p rt' = Some (Rejected (rejection p e)) ∧
  invoked rt' = invoked rt ++ [(S p, name f)] ∧
  currentlyProcessing (this rt') = currentlyProcessing (this rt) ∧
  queue (this rt') = [] ∧ awaiting rt' = awaiting rt ∧
  processing (this rt') !! i = Some (S p) ∧
  received (S p) rt' = Some (Rejected e) ∧
  (∀ f', enqueue i f' rt' = (S p, rt')).
Proof.
  intros Hi Hq Hfree Hbody p rt'. subst p rt'.
  rewrite (enqueue_throws i f e rt Hi Hq Hfree Hbody). cbn [fst snd].
  set (rt' := mkRuntime _ _ _ _ _ _).
  assert (Hi' : processing (this rt') !! i = Some (S (nextPromise rt)))
    by apply lookup_insert_eq.
  unfold received. split_and!; try done.
  - cbn. rewrite lookup_insert_ne by lia. apply lookup_insert_eq.
  - cbn. lia.
  - cbn. apply lookup_insert_eq.
  - intros f'. unfold enqueue. by rewrite Hi'.
Qed.

End QueueThrow.

Section QueueExamples.
Import AsyncQueue.

(** Two slots, three calls: the third task waits while both slots are
    taken. *)
Lemma no_idle_slot_witness :
  let '(queueLength, processing, _) :=
    getStats (run [Enqueue "a" (mkFn 0 Returns); Enqueue "b" (mkFn 1 Returns);
                   Enqueue "c" (mkFn 2 Returns)] (new (T:=nat) 2)) in
  (0 < queueLength)%nat → processing = 2.
Proof.
  apply (no_idle_slot (T:=nat) 2
           [Enqueue "a" (mkFn 0 Returns); Enqueue "b" (mkFn 1 Returns);
            Enqueue "c" (mkFn 2 Returns)]). lia.
Defined.

Lemma synchronous_throw_rejects_at_once_witness :
  let rt := new (T:=nat) 10 in
  let f := mkFn 0 (Throws (OtherValue 7)) in
  received (enqueue "k" f rt).1 (enqueue "k" f rt).2
    = Some (Rejected (UnknownError 0)) ∧
  ∀ f', enqueue "k" f' (enqueue "k" f rt).2 = (1%nat, (enqueue "k" f rt).2).
Proof.
  intros rt f.
  destruct (synchronous_throw_rejects_at_once (T:=nat) "k" f (OtherValue 7) rt)
    as (_ & Hrej & _ & _ & _ & _ & _ & _ & Hjoin);
    [reflexivity | reflexivity | reflexivity | reflexivity |].
  split; [exact Hrej|exact Hjoin].
Defined.

End QueueExamples.

(** ** index.ts: [POST /users], [DELETE /cache], [GET /cache-status] *)

Section ApiUsers.
Import Api.

Lemma maxId_nonneg ids : 0 <= maxId ids.
Proof. unfold maxId. induction ids as [|i ids IH]; cbn [foldr]; lia. Qed.

Lemma maxId_bound ids i : i ∈ ids → i <= maxId ids.
Proof.
  unfold maxId. induction ids as [|j ids IH]; [by intros ?%elem_of_nil|].
  intros [->|Hin]%elem_of_cons; cbn [foldr]; [lia|].
  specialize (IH Hin). lia.
Qed.

Lemma missing_false s : s ≠ "" → missing (Some s) = false.
Proof. intros Hs. cbn. by rewrite bool_decide_eq_false_2. Qed.

(** X24.  [POST /users] never overwrites a user.  With a name and an
    email that are non-empty strings it answers 201 with a user whose id
    is at least 1, is larger than every id in [mockUsers] and so is new;
    the user is added to [mockUsers], the others stay as they are, and it
    is put in the cache under its id, where a lookup finds it until [ttl]
    has passed (on a store of capacity 1 or more).  With a name or an
    email missing or empty it throws a [ValidationError] that names each
    missing field, in the order name, email, and changes nothing. *)
Theorem create_user_makes_a_new_id reqName reqEmail now st :
  (∀ n e, reqName = Some n → reqEmail = Some e → n ≠ "" → e ≠ "" →
     ∃ newId,
       let newUser := mkUser newId n e in
       let st' := (createUser reqName reqEmail now st).2 in
       (createUser reqName reqEmail now st).1 = Created newUser ∧
       1 <= newId ∧
       mockUsers st !! newId = None ∧
       (∀ i, is_Some (mockUsers st !! i) → i < newId) ∧
       mockUsers st' !! newId = Some newUser ∧
       (∀ i, i ≠ newId → mockUsers st' !! i = mockUsers st !! i) ∧
       responseTracker st' = responseTracker st ∧
       (∀ es, LRUCache.rep (userCache st) es →
          1 <= LRUCache.capacity (userCache st) →
          ∀ now',
            (LRUCache.get (toString newId) now' (userCache st')).1 =
              if bool_decide (now' - now > LRUCache.ttl (userCache st))
              then None else Some newUser)) ∧
  (missing reqName = true ∨ missing reqEmail = true →
     ∃ errors,
       createUser reqName reqEmail now st = (ThrowsValidationError errors, st) ∧
       errors ≠ [] ∧
       (mkField "name" "Name is required" ∈ errors ↔ missing reqName = true) ∧
       (mkField "email" "Email is required" ∈ errors ↔ missing reqEmail = true) ∧
       (∀ err, err ∈ errors →
          err = mkField "name" "Name is required" ∨
          err = mkField "email" "Email is required")).
Proof.
  split.
  - intros n e -> -> Hn He. unfold createUser.
    rewrite !missing_false by done. cbn [app length].
    rewrite bool_decide_eq_false_2 by lia.
    set (ids := (map_to_list (mockUsers st)).*1).
    assert (Hbound : ∀ i, is_Some (mockUsers st !! i) → i < maxId ids + 1).
    { intros i [u Hu]. enough (i <= maxId ids) by lia. apply maxId_bound.
      unfold ids. apply list_elem_of_fmap. exists (i, u). split; [done|].
      by apply elem_of_map_to_list. }
    exists (maxId ids + 1). cbn [fst snd mockUsers userCache responseTracker].
    split_and!; try done.
    + pose proof (maxId_nonneg ids). lia.
    + destruct (mockUsers st !! (maxId ids + 1)) eqn:E; [|done].
      specialize (Hbound (maxId ids + 1) ltac:(by eexists)). lia.
    + apply lookup_insert_eq.
    + intros i Hi. by apply lookup_insert_ne.
    + intros es [l Hl] Hcap now'.
      by destruct (set_get_holds _ l es (toString (maxId ids + 1))
                     (mkUser (maxId ids + 1) n e) now now' Hl Hcap) as [-> _].
  - intros Hmiss. unfold createUser.
    assert (Hgoal : ∀ errors,
      errors = (if missing reqName then [mkField "name" "Name is required"] else [])
               ++ (if missing reqEmail then [mkField "email" "Email is required"] else []) →
      errors ≠ [] ∧
      (mkField "name" "Name is required" ∈ errors ↔ missing reqName = true) ∧
      (mkField "email" "Email is required" ∈ errors ↔ missing reqEmail = true) ∧
      (∀ err, err ∈ errors →
         err = mkField "name" "Name is required" ∨
         err = mkField "email" "Email is required")).
    { intros errors ->.
      destruct (missing reqName), (missing reqEmail); cbn [app];
        try (by destruct Hmiss);
        (split; [done|]); (split; [|split]);
        try (intros err); rewrite ?elem_of_cons, ?elem_of_nil;
        intuition (discriminate || auto). }
    destruct reqName as [n|], reqEmail as [e|];
      try (eexists; split; [reflexivity|by apply Hgoal]).
    rewrite bool_decide_eq_true_2.
    + eexists. split; [reflexivity|]. by apply Hgoal.
    + destruct (missing (Some n)), (missing (Some e)); cbn; try lia;
        try (by destruct Hmiss).
Qed.

End ApiUsers.

Section ApiStatus.
Import Api.

Lemma rate_bounds (h t : Z) :
  0 <= h → h <= t → 0 < t →
  (0 <= Qc_of_Z h / Qc_of_Z t * Qc_of_Z 100)%Qc ∧
  (Qc_of_Z h / Qc_of_Z t * Qc_of_Z 100 <= Qc_of_Z 100)%Qc.
Proof.
  intros Hh Hht Ht.
  assert (Hpos : (0 < Qc_of_Z t)%Qc).
  { rewrite <- Z2Qc_inj_0. apply (proj1 (Z2Qc_inj_lt 0 t)). done. }
  assert (Hnz : Qc_of_Z t ≠ 0%Qc).
  { rewrite <- Z2Qc_inj_0. intros Heq%Z2Qc_inj. lia. }
  assert (Hmul : (Qc_of_Z h / Qc_of_Z t * Qc_of_Z t)%Qc = Qc_of_Z h).
  { rewrite Qcmult_comm. by apply Qcmult_div_r. }
  assert (H0 : (0 <= Qc_of_Z h / Qc_of_Z t)%Qc).
  { apply (Qcmult_lt_0_le_reg_r _ _ (Qc_of_Z t) Hpos). rewrite Hmul.
    rewrite Qcmult_0_l, <- Z2Qc_inj_0. by apply (proj1 (Z2Qc_inj_le _ _)). }
  assert (H1 : (Qc_of_Z h / Qc_of_Z t <= 1)%Qc).
  { apply (Qcmult_lt_0_le_reg_r _ _ (Qc_of_Z t) Hpos). rewrite Hmul.
    rewrite Qcmult_1_l. by apply (proj1 (Z2Qc_inj_le _ _)). }
  assert (H100 : (0 <= Qc_of_Z 100)%Qc).
  { rewrite <- Z2Qc_inj_0. by apply (proj1 (Z2Qc_inj_le _ _)). }
  split.
  - rewrite <- (Qcmult_0_l (Qc_of_Z 100)). by apply Qcmult_le_compat_r.
  - rewrite <- (Qcmult_1_l (Qc_of_Z 100)) at 2. by apply Qcmult_le_compat_r.
Qed.

(** X25.  What [GET /cache-status] reports of a store that has served
    any calls: [hits + misses] is the number of calls of [get], the hit
    rate is a percentage between 0 and 100, and 0, not [NaN], when there
    has been no [get].  After [DELETE /cache] it reports a cache of size 0
    and an average response time of 0, and the same hits, misses, hit rate
    and evictions as before: the statistics are not reset. *)
Theorem cache_status_rates st cap life calls :
  userCache st = LRUCache.run calls (LRUCache.new cap life) →
  let r := cacheStatus st in
  let r' := cacheStatus (clearCache st) in
  hits r + misses r = LRUCache.count LRUCache.isGet calls ∧
  (0 <= hitRate r)%Qc ∧ (hitRate r <= Qc_of_Z 100)%Qc ∧
  (LRUCache.count LRUCache.isGet calls = 0 → hitRate r = 0%Qc) ∧
  cacheSize r' = 0 ∧ averageResponseTime r' = 0%Qc ∧
  hits r' = hits r ∧ misses r' = misses r ∧
  hitRate r' = hitRate r ∧ evictions r' = evictions r.
Proof.
  intros Hcache r r'.
  destruct (reachable_holds cap life calls) as (_ & Hst & _).
  pose proof (modelRun_counters cap life calls) as Hc. cbv zeta in Hc.
  rewrite <- Hst, <- Hcache in Hc. destruct Hc as (Hsum & Hh & Hm & _).
  unfold r, r', cacheStatus, clearCache, LRUCache.getStats.
  cbn [hits misses hitRate cacheSize averageResponseTime evictions userCache
       responseTracker LRUCache.clear LRUCache.stats LRUCache.set_stats
       LRUCache.set_tail LRUCache.set_head LRUCache.set_cache
       LRUCache.hits LRUCache.misses LRUCache.size LRUCache.evictions].
  split_and!; try done.
  - case_bool_decide; [|done]. apply rate_bounds; lia.
  - case_bool_decide.
    + apply rate_bounds; lia.
    + rewrite <- Z2Qc_inj_0. by apply (proj1 (Z2Qc_inj_le _ _)).
  - intros H0. rewrite bool_decide_eq_false_2; [done|lia].
Qed.

Lemma cache_status_rates_witness :
  let st :=
    mkServer (mockUsers server)
      (LRUCache.run [LRUCache.CallGet "1" 0; LRUCache.CallSet "1" (mkUser 1 "a" "b") 5;
                     LRUCache.CallGet "1" 9] (LRUCache.new 100 60000))
      (responseTracker server) in
  hits (cacheStatus st) + misses (cacheStatus st) =
    LRUCache.count LRUCache.isGet
      [LRUCache.CallGet "1" 0; LRUCache.CallSet "1" (mkUser 1 "a" "b") 5;
       LRUCache.CallGet "1" 9] ∧
  (hitRate (cacheStatus st) <= Qc_of_Z 100)%Qc.
Proof.
  intros st.
  destruct (cache_status_rates st 100 60000
              [LRUCache.CallGet "1" 0; LRUCache.CallSet "1" (mkUser 1 "a" "b") 5;
               LRUCache.CallGet "1" 9])
    as (Hsum & _ & Hrate & _); [reflexivity|].
  split; [exact Hsum|exact Hrate].
Defined.

End ApiStatus.

Section ApiExamples.
Import Api.

(** The first user created on the server as it starts gets the id 4. *)
Lemma create_user_makes_a_new_id_witness :
  ∃ newId,
    (createUser (Some "Bob") (Some "bob@example.com") 0 server).1
      = Created (mkUser newId "Bob" "bob@example.com") ∧
    1 <= newId ∧ mockUsers server !! newId = None.
Proof.
  destruct (proj1 (create_user_makes_a_new_id (Some "Bob") (Some "bob@example.com")
                     0 server) "Bob" "bob@example.com")
    as (newId & Hreply & Hpos & Hnew & _);
    [reflexivity | reflexivity | discriminate | discriminate |].
  exists newId. split; [exact Hreply|split; [exact Hpos|exact Hnew]].
Defined.

End ApiExamples.

(** ** The seat selection of the front end *)

Section SeatSelection.
Import SeatMap.

Lemma findIndex_None k prev :
  findIndex k prev = None ↔ Forall (λ s, id s ≠ k) prev.
Proof.
  unfold findIndex. rewrite fmap_None. apply list_find_None.
Qed.

Lemma findIndex_Some k prev i :
  findIndex k prev = Some i →
  ∃ s, prev !! i = Some s ∧ id s = k.
Proof.
  unfold findIndex. destruct (list_find _ prev) as [[j s]|] eqn:E; [|done].
  intros [= <-]. apply list_find_Some in E as (Hs & Hk & _). by exists s.
Qed.

Lemma isSeatSelected_findIndex k prev :
  isSeatSelected k prev = bool_decide (is_Some (findIndex k prev)).
Proof.
  unfold isSeatSelected. destruct (findIndex k prev) as [i|] eqn:E.
  - rewrite (bool_decide_eq_true_2 (is_Some _)) by (by eexists).
    apply bool_decide_eq_true_2.
    apply findIndex_Some in E as (s & Hs & Hk). apply Exists_exists.
    exists s. split; [by eapply list_elem_of_lookup_2|done].
  - rewrite (bool_decide_eq_false_2 (is_Some _)) by (by intros [? ?]).
    apply bool_decide_eq_false_2.
    apply findIndex_None in E. intros (s & Hin & Hk)%Exists_exists.
    eapply Forall_forall in E; [|exact Hin]. by apply E.
Qed.

(** [toggleSeat] keeps a selection within the limit and free of
    duplicates. *)
Lemma toggleSeat_valid seat prev :
  (length prev <= MAX_SELECTIONS)%nat → NoDup (id <$> prev) →
  (length (toggleSeat seat prev) <= MAX_SELECTIONS)%nat ∧
  NoDup (id <$> toggleSeat seat prev).
Proof.
  intros Hlen Hnd. unfold toggleSeat.
  destruct (findIndex (id seat) prev) as [i|] eqn:E.
  - split.
    + pose proof (sublist_length _ _ (sublist_delete prev i)). lia.
    + apply (sublist_NoDup _ (id <$> prev)); [done|]. rewrite list_fmap_delete.
      apply sublist_delete.
  - case_bool_decide as Hroom; [|done]. split.
    + rewrite length_app. cbn [length] in *. unfold MAX_SELECTIONS in *. lia.
    + rewrite fmap_app. apply NoDup_app. split_and!; [done| |apply NoDup_singleton].
      intros k Hk [->|[]%elem_of_nil]%elem_of_cons.
      apply findIndex_None in E.
      apply list_elem_of_fmap in Hk as (s & Hs & Hin).
      eapply Forall_forall in E; [|exact Hin]. by apply E.
Qed.

Lemma click_valid selected seat :
  (length selected <= MAX_SELECTIONS)%nat ∧ NoDup (id <$> selected) ∧
  Forall (λ s, status s = "available") selected →
  (length (click selected seat) <= MAX_SELECTIONS)%nat ∧
  NoDup (id <$> click selected seat) ∧
  Forall (λ s, status s = "available") (click selected seat).
Proof.
  intros (Hlen & Hnd & Hav). unfold click, handleClick.
  rewrite isSeatSelected_findIndex.
  destruct (_ && _) eqn:Hguard; [|done].
  destruct (toggleSeat_valid seat selected Hlen Hnd) as [Hlen' Hnd'].
  split_and!; [done|done|]. unfold toggleSeat in *.
  destruct (findIndex (id seat) selected) as [i|] eqn:E.
  - by apply Forall_delete.
  - case_bool_decide; [|done]. apply Forall_app. split; [done|].
    constructor; [|done].
    rewrite (bool_decide_eq_false_2 (is_Some (@None nat))) in Hguard
      by apply is_Some_None.
    rewrite orb_false_r in Hguard. apply andb_true_iff in Hguard as [Ha _].
    by apply bool_decide_eq_true in Ha.
Qed.

Lemma click_valid_run seats :
  (length (clicks seats clearSelection) <= MAX_SELECTIONS)%nat ∧
  NoDup (id <$> clicks seats clearSelection) ∧
  Forall (λ s, status s = "available") (clicks seats clearSelection).
Proof.
  unfold clicks, clearSelection.
  induction seats as [|seat seats IH] using rev_ind.
  { cbn. split_and!; [lia|constructor|constructor]. }
  rewrite foldl_app. cbn [foldl]. by apply click_valid.
Qed.

(** X26.  The selection stays valid: whatever seats are clicked,
    starting from an empty selection, at most 8 seats are selected, no
    seat is selected twice, and every selected seat had the status
    'available' when it was clicked, so that a reserved, sold or held seat
    is never selected. *)
Theorem selection_stays_valid seats :
  let selected := clicks seats clearSelection in
  (length selected <= MAX_SELECTIONS)%nat ∧
  NoDup (id <$> selected) ∧
  Forall (λ s, status s = "available") selected ∧
  (∀ s, s ∈ selected → s ∈ seats).
Proof.
  cbv zeta. destruct (click_valid_run seats) as (Hlen & Hnd & Hav).
  split_and!; try done.
  unfold clicks, clearSelection.
  induction seats as [|seat seats IH] using rev_ind.
  { cbn. by intros s ?%elem_of_nil. }
  rewrite foldl_app. cbn [foldl].
  intros s Hs. apply elem_of_app.
  specialize (IH (proj1 (click_valid_run seats))
                 (proj1 (proj2 (click_valid_run seats)))
                 (proj2 (proj2 (click_valid_run seats)))).
  unfold click in Hs. destruct (handleClick _ _ _) as [seat'|] eqn:Hc.
  - assert (seat' = seat) as ->.
    { unfold handleClick in Hc. destruct (_ && _); congruence. }
    unfold toggleSeat in Hs. destruct (findIndex _ _).
    + left. apply IH. by eapply list_elem_of_delete_inv.
    + case_bool_decide; [|left; by apply IH].
      apply elem_of_app in Hs as [Hs|Hs]; [left; by apply IH|by right].
  - left. by apply IH.
Qed.

End SeatSelection.

Section SeatToggle.
Import SeatMap.

Lemma isSeatSelected_true k selected :
  isSeatSelected k selected = true ↔ k ∈ id <$> selected.
Proof.
  unfold isSeatSelected. rewrite bool_decide_eq_true, Exists_exists, list_elem_of_fmap.
  split; intros (s & H1 & H2); exists s; done.
Qed.

Lemma isSeatSelected_ext k l1 l2 :
  (k ∈ id <$> l1 ↔ k ∈ id <$> l2) → isSeatSelected k l1 = isSeatSelected k l2.
Proof.
  intros Hiff. rewrite <- !isSeatSelected_true in Hiff.
  destruct (isSeatSelected k l1), (isSeatSelected k l2); try done.
  - by destruct (proj1 Hiff eq_refl).
  - by destruct (proj2 Hiff eq_refl).
Qed.

Lemma elem_of_delete_ne {A} (l : list A) i x y :
  l !! i = Some y → x ≠ y → x ∈ delete i l ↔ x ∈ l.
Proof.
  intros Hi Hne. rewrite delete_take_drop.
  rewrite <- (take_drop_middle l i y Hi) at 3.
  rewrite !elem_of_app, elem_of_cons. tauto.
Qed.

(** X27.  What a toggle does to the selection: the seat toggled is
    selected afterwards exactly when it was not selected before and there
    was room for it (fewer than 8 seats selected), and for every other seat
    nothing changes: a toggle never drops or adds another seat. *)
Theorem toggle_changes_one_seat seat prev k :
  NoDup (id <$> prev) →
  isSeatSelected k (toggleSeat seat prev) =
    if bool_decide (k = id seat)
    then negb (isSeatSelected k prev) && canSelectMore prev
    else isSeatSelected k prev.
Proof.
  intros Hnd. unfold toggleSeat, canSelectMore.
  destruct (findIndex (id seat) prev) as [i|] eqn:E.
  - destruct (findIndex_Some _ _ _ E) as (s & Hs & Hk).
    assert (Hsel : isSeatSelected (id seat) prev = true).
    { apply isSeatSelected_true, list_elem_of_fmap. exists s.
      split; [done|by eapply list_elem_of_lookup_2]. }
    case_bool_decide as Hkeq.
    + try subst k. rewrite Hsel. cbn.
      apply not_true_is_false. rewrite isSeatSelected_true, list_fmap_delete.
      intros Hin.
      assert (Hi : (id <$> prev) !! i = Some (id seat))
        by (by rewrite list_lookup_fmap, Hs, <- Hk).
      rewrite delete_take_drop in Hin.
      rewrite <- (take_drop_middle _ _ _ Hi) in Hnd.
      apply NoDup_app in Hnd as (_ & Hdisj & Hnd).
      apply NoDup_cons in Hnd as [Hnot _].
      apply elem_of_app in Hin as [Hin|Hin]; [|done].
      apply (Hdisj _ Hin). left.
    + apply isSeatSelected_ext. rewrite list_fmap_delete.
      apply (elem_of_delete_ne _ i _ (id seat)); [|done].
      by rewrite list_lookup_fmap, Hs, <- Hk.
  - assert (Hsel : isSeatSelected (id seat) prev = false).
    { apply not_true_is_false. rewrite isSeatSelected_true.
      intros (s & Hk & Hin)%list_elem_of_fmap.
      apply findIndex_None in E. eapply Forall_forall in E; [|exact Hin]. by apply E. }
    destruct (decide (k = id seat)) as [->|Hne].
    + rewrite (bool_decide_eq_true_2 (id seat = id seat)) by done.
      rewrite Hsel. cbn [negb andb]. case_bool_decide; [|done].
      apply isSeatSelected_true. rewrite fmap_app. apply elem_of_app. right. left.
    + rewrite (bool_decide_eq_false_2 (k = id seat)) by done.
      case_bool_decide; [|done]. apply isSeatSelected_ext.
      rewrite fmap_app, elem_of_app. cbn. rewrite list_elem_of_singleton. tauto.
Qed.

Lemma toggle_changes_one_seat_witness :
  let a := mkSeat "A-1-01" 1 "available" "A" "Lower Bowl A" 1 in
  let b := mkSeat "A-1-02" 2 "available" "A" "Lower Bowl A" 1 in
  isSeatSelected "A-1-01" (toggleSeat b [a]) =
    if bool_decide ("A-1-01" = id b)
    then negb (isSeatSelected "A-1-01" [a]) && canSelectMore [a]
    else isSeatSelected "A-1-01" [a].
Proof.
  intros a b. apply (toggle_changes_one_seat b [a] "A-1-01").
  repeat constructor. by intros ?%elem_of_nil.
Defined.

End SeatToggle.

Section SeatPrices.
Import SeatMap.

Lemma subtotal_acc (a : Z) selected :
  foldl (λ sum seat, sum + getPriceForTier (priceTier seat)) a selected =
  a + subtotal selected.
Proof.
  unfold subtotal. revert a. induction selected as [|s l IH]; intros a; cbn [foldl]; [lia|].
  rewrite (IH (a + _)), (IH (0 + _)). lia.
Qed.

Lemma getPriceForTier_bounds tier : 50 <= getPriceForTier tier <= 150.
Proof. unfold getPriceForTier. repeat case_bool_decide; lia. Qed.

Lemma subtotal_bounds selected :
  50 * Z.of_nat (length selected) <= subtotal selected
    <= 150 * Z.of_nat (length selected).
Proof.
  induction selected as [|s l IH]; [cbn; lia|].
  unfold subtotal. cbn [foldl]. rewrite subtotal_acc. cbn [length].
  pose proof (getPriceForTier_bounds (priceTier s)). lia.
Qed.

(** X28.  The subtotal shown is the sum of the prices of the selected
    seats, each between 50 and 150 whatever its price tier (50 for a tier
    that is not in the table): it is 0 for an empty selection, lies between
    50 and 150 times the number of seats, and never exceeds 1200 for a
    selection made by clicking. *)
Theorem subtotal_within_limits :
  subtotal clearSelection = 0 ∧
  (∀ seat selected,
     subtotal (selected ++ [seat]) =
       subtotal selected + getPriceForTier (priceTier seat)) ∧
  (∀ selected,
     50 * Z.of_nat (length selected) <= subtotal selected
       <= 150 * Z.of_nat (length selected)) ∧
  (∀ seats, 0 <= subtotal (clicks seats clearSelection) <= 1200).
Proof.
  split_and!.
  - done.
  - intros seat selected. unfold subtotal. rewrite foldl_app. done.
  - apply subtotal_bounds.
  - intros seats.
    destruct (click_valid_run seats) as [Hlen _].
    pose proof (subtotal_bounds (clicks seats clearSelection)).
    unfold MAX_SELECTIONS in Hlen. lia.
Qed.

End SeatPrices.

Section StoreHits.
Import LRUCache.
Context {T : Type}.
Implicit Types (c : LRUCache T) (h : gmap nat (CacheNode T)) (l : list nat).
Implicit Types (n : CacheNode T) (e : entry (T:=T)) (es : list (entry (T:=T))).

(** X29.  A hit promotes the entry and nothing else: in every state
    the store can reach, a [get] that returns a value counts one hit,
    leaves [misses], [size] and [evictions] and the keys of the index as
    they are, and moves the entry to the head of the list while the others
    keep their order.  The entry keeps its time stamp: a hit does not
    extend its life, which runs from the last [set]. *)
Theorem hit_promotes_entry cap life (calls : list (Call T)) k now v :
  let c := run calls (new cap life) in
  let c' := (get k now c).2 in
  (get k now c).1 = Some v →
  hits (getStats c') = hits (getStats c) + 1 ∧
  misses (getStats c') = misses (getStats c) ∧
  size (getStats c') = size (getStats c) ∧
  evictions (getStats c') = evictions (getStats c) ∧
  (∀ k', is_Some (cache c' !! k') ↔ is_Some (cache c !! k')) ∧
  (∃ a, head c' = Some a ∧ cache c' !! k = Some a) ∧
  ∃ es e, rep c es ∧ entryOf k es = Some e ∧ valueOf e = v ∧
          ¬ now - stampOf e > life ∧ rep c' (e :: without k es).
Proof.
  intros c c' Hget. unfold getStats.
  destruct (reachable_holds cap life calls) as ([l Hl] & _ & _ & Ht).
  fold c in Hl, Ht.
  set (es := (modelRun cap life calls ([], stats (new (T:=T) cap life))).1) in *.
  clearbody es.
  destruct (get_refines c l es k now Hl) as [([l' Hl'] & Hst & _) Hres].
  fold c' in Hl', Hst. cbn [entriesAfter statsAfter] in Hl', Hst.
  rewrite Hres in Hget. unfold getResult in Hget. rewrite Ht in *.
  destruct (entryOf k es) as [e|] eqn:E; [|done].
  case_bool_decide as Hexp; [done|]. injection Hget as Hv.
  destruct (entryOf_Some_elem _ _ _ E) as [Hin Hk].
  rewrite Hst. cbn [hits misses size evictions hit].
  split_and!; try done.
  - intros k'. rewrite (holds_cache_Some c' l' _ k' Hl'), (holds_cache_Some c l es k' Hl).
    rewrite fmap_cons, elem_of_cons, keys_without, Hk.
    destruct (decide (k' = k)) as [->|Hne]; [|tauto].
    split; [intros _|by left]. apply list_elem_of_fmap. by exists e.
  - destruct Hl' as [[Hlinked Hindex _ _ _] Hall].
    apply Forall2_cons_inv_r in Hall as (a & l'' & Ha & _ & ->).
    exists a. split; [by rewrite (linked_head _ _ Hlinked)|].
    apply Hindex. split; [left|]. rewrite (payload_key _ _ _ Ha). by rewrite Hk.
  - exists es, e. split_and!; try done; [by exists l|by exists l'].
Qed.

End StoreHits.

Section StoreHitExample.
Import LRUCache.

Lemma hit_promotes_entry_witness :
  let c := run [CallSet "u1" 1%nat 0; CallSet "u2" 2%nat 5] (new 2 60000) in
  let c' := (get "u1" 9 c).2 in
  hits (getStats c') = hits (getStats c) + 1 ∧
  (∃ a, head c' = Some a ∧ cache c' !! "u1" = Some a).
Proof.
  intros c c'.
  destruct (hit_promotes_entry 2 60000 [CallSet "u1" 1%nat 0; CallSet "u2" 2%nat 5]
              "u1" 9 1%nat) as (Hhits & _ & _ & _ & _ & Hhead & _).
  - vm_compute. reflexivity.
  - split; [exact Hhits|exact Hhead].
Defined.

End StoreHitExample.
